(** * LedgerMonitor: the AI detection service ([server/ai_service.py])

    A shallow embedding of the response interpreter, the threshold filter,
    the result assembly and the command-line entry point, followed by the
    properties proved about them.

    Conventions.
    - A Python [str] is a list of Unicode code points ([N]).
    - Indices are [Z], as in Python ([-1] is what [find]/[rfind] return when
      nothing is found).
    - A Python [dict] is an association list in insertion order, keys unique.
    - A call that may raise returns [exn + A]; [try]/[except] is a [match].
      The exceptions are those of class [Exception].
    - What the service takes from its surroundings (the credential, the image
      decoders, the model, the clock, the files, the standard output, the
      limits of the interpreter) is a [World].
    - Writes to [sys.stderr] are diagnostics; they are taken to succeed and
      are not part of the model.
    - The module is taken to have been imported (lines 20-26 exit with status
      1 when a package is missing) and the command line to have been accepted
      by [argparse], which exits by itself on [--help] and on a command line
      it cannot parse. *)

From Stdlib Require Import List Ascii String NArith ZArith QArith Lia Bool.
Import ListNotations.

Set Warnings "-register-all".
Close Scope Q_scope.
Open Scope bool_scope.
Open Scope list_scope.

(* ================================================================== *)
(** * Text *)

Definition char := N.
Definition str := list char.

(** String literals of the source, as code points. *)
Definition lit (s : string) : str := map N_of_ascii (list_ascii_of_string s).
Coercion lit : string >-> str.

Definition ch (a : ascii) : char := N_of_ascii a.

Definition LBRACE : char := Eval cbv in ch "{".
Definition RBRACE : char := Eval cbv in ch "}".
Definition LBRACKET : char := Eval cbv in ch "[".
Definition RBRACKET : char := Eval cbv in ch "]".
Definition COMMA : char := Eval cbv in ch ",".
Definition COLON : char := Eval cbv in ch ":".
Definition QUOTE : char := 34%N.
Definition BACKSLASH : char := Eval cbv in ch "\".
Definition BACKTICK : char := Eval cbv in ch "`".
Definition NEWLINE : char := 10%N.

(** A literal in which each apostrophe stands for a double quote. *)
Definition dq (s : string) : str :=
  map (fun c => if (c =? 39)%N then QUOTE else c) (lit s).

(** [a == b] on strings *)
Fixpoint str_eqb (a b : str) : bool :=
  match a, b with
  | [], [] => true
  | x :: a', y :: b' => (x =? y)%N && str_eqb a' b'
  | _, _ => false
  end.

(** [str.isspace] on one code point (CPython's [Py_UNICODE_ISSPACE]); this is
    the set used by [str.strip()] and by [\s] in a [str] pattern. *)
Definition is_space (c : char) : bool :=
  ((9 <=? c) && (c <=? 13) || (28 <=? c) && (c <=? 32) || (c =? 133) || (c =? 160)
   || (c =? 5760) || (8192 <=? c) && (c <=? 8202) || (c =? 8232) || (c =? 8233)
   || (c =? 8239) || (c =? 8287) || (c =? 12288))%N.

Fixpoint lstrip (s : str) : str :=
  match s with
  | [] => []
  | c :: s' => if is_space c then lstrip s' else s
  end.

Definition rstrip (s : str) : str := rev (lstrip (rev s)).

(** [s.strip()] *)
Definition strip (s : str) : str := rstrip (lstrip s).

(** [s.startswith(p)] *)
Fixpoint startswith (s p : str) {struct p} : bool :=
  match p with
  | [] => true
  | a :: p' =>
      match s with
      | [] => false
      | b :: s' => (b =? a)%N && startswith s' p'
      end
  end.

(** [s.endswith(p)] *)
Definition endswith (s p : str) : bool := startswith (rev s) (rev p).

(** [p in s] for strings *)
Fixpoint contains (s p : str) : bool :=
  startswith s p ||
  match s with
  | [] => false
  | _ :: s' => contains s' p
  end.

(** [c in s] for a single character *)
Definition has_char (s : str) (c : char) : bool := existsb (N.eqb c) s.

Fixpoint find_from (c : char) (s : str) (i : Z) : Z :=
  match s with
  | [] => (-1)%Z
  | x :: s' => if (x =? c)%N then i else find_from c s' (i + 1)%Z
  end.

(** [s.find(c)] for a single character *)
Definition find (s : str) (c : char) : Z := find_from c s 0%Z.

Fixpoint rfind_from (c : char) (s : str) (i last : Z) : Z :=
  match s with
  | [] => last
  | x :: s' => rfind_from c s' (i + 1)%Z (if (x =? c)%N then i else last)
  end.

(** [s.rfind(c)] for a single character *)
Definition rfind (s : str) (c : char) : Z := rfind_from c s 0%Z (-1)%Z.

(** [s[a:b]] for [0 <= a] and [0 <= b] *)
Definition slice (s : str) (a b : Z) : str :=
  firstn (Z.to_nat (b - a)) (skipn (Z.to_nat a) s).

(** [s[n:]] for a literal [n >= 0] *)
Definition drop (n : nat) (s : str) : str := skipn n s.

(** [s[:-n]] for a literal [n > 0] *)
Definition drop_last (n : nat) (s : str) : str := firstn (List.length s - n) s.

(** [s.split(sep)] for a non-empty separator: the pieces between the
    non-overlapping occurrences of [sep], found left to right.  [skip] counts
    the characters of the occurrence just found that are still to be passed;
    [cur] is the current piece, reversed. *)
Fixpoint split_go (sep : str) (s : str) (skip : nat) (cur : str) : list str :=
  match s with
  | [] => [rev cur]
  | c :: s' =>
      match skip with
      | S k => split_go sep s' k cur
      | O =>
          if startswith s sep
          then rev cur :: split_go sep s' (List.length sep - 1) []
          else split_go sep s' 0 (c :: cur)
      end
  end.

Definition split (s sep : str) : list str := split_go sep s 0 [].

(** [parts[i]], raising [IndexError] (here [None]) out of range *)
Definition item {A} (l : list A) (i : nat) : option A := nth_error l i.

Definition is_ascii_lower (c : char) : bool := ((97 <=? c) && (c <=? 122))%N.
Definition is_ascii_upper (c : char) : bool := ((65 <=? c) && (c <=? 90))%N.

(** [s.upper()] and [s.lower()], on the ASCII letters; other characters are
    left as they are.  The source only compares the results with the ASCII
    words ["NONE"], ["BLUR"] and ["quota"], and no text with a character outside
    ASCII has an upper case equal to ["NONE"] or ["BLUR"] or a lower case that
    contains ["quota"], so the comparisons are the ones Python makes. *)
Definition upper (s : str) : str :=
  map (fun c => if is_ascii_lower c then (c - 32)%N else c) s.
Definition lower (s : str) : str :=
  map (fun c => if is_ascii_upper c then (c + 32)%N else c) s.

Definition is_digit (c : char) : bool := ((48 <=? c) && (c <=? 57))%N.
Definition digit_val (c : char) : Z := Z.of_N (c - 48)%N.

(** Decimal value of a run of ASCII digits. *)
Definition digits_val (ds : str) : Z :=
  fold_left (fun acc c => (acc * 10 + digit_val c)%Z) ds 0%Z.

(** [str(n)] / ["%d" % n] for a natural number *)
Fixpoint dec_go (fuel : nat) (n : N) (acc : str) : str :=
  match fuel with
  | O => acc
  | S f =>
      let acc' := (48 + n mod 10)%N :: acc in
      if (n <? 10)%N then acc' else dec_go f (n / 10)%N acc'
  end.
Definition str_of_N (n : N) : str := dec_go (S (N.to_nat (N.log2 n))) n [].
Definition str_of_nat (n : nat) : str := str_of_N (N.of_nat n).

(* ================================================================== *)
(** * Numbers *)

(** A Python [float]: an IEEE-754 binary64 value.  A finite value is held as
    the rational it denotes, in lowest terms (the sign of zero is not kept: no
    comparison distinguishes it). *)
Inductive pyfloat :=
| FNaN
| FInf (neg : bool)
| FFin (q : Q).

(** Nearest integer to [n/d] for [0 <= n], [0 < d], ties to even. *)
Definition div_half_even (n d : Z) : Z :=
  let q := (n / d)%Z in
  let r := (n mod d)%Z in
  if (2 * r <? d)%Z then q
  else if (d <? 2 * r)%Z then (q + 1)%Z
  else if Z.even q then q else (q + 1)%Z.

(** [floor (log2 (n/d))] for [0 < n], [0 < d]. *)
Definition ilog2_ratio (n d : Z) : Z :=
  let k := (Z.log2 n - Z.log2 d)%Z in
  let below := if (0 <=? k)%Z then (d * 2 ^ k <=? n)%Z else (d <=? n * 2 ^ (- k))%Z in
  if below then k else (k - 1)%Z.

(** The binary64 value nearest to [n/d] ([0 <= n], [0 < d]), ties to even,
    with gradual underflow and overflow to infinity: what [float(text)] and a
    float literal of the source denote. *)
Definition round_double (neg : bool) (n d : Z) : pyfloat :=
  if (n =? 0)%Z then FFin 0
  else
    let k := ilog2_ratio n d in
    let e := (Z.max k (-1022) - 52)%Z in
    let m := if (0 <=? e)%Z then div_half_even n (d * 2 ^ e)
             else div_half_even (n * 2 ^ (- e)) d in
    if (971 <? e)%Z || ((e =? 971)%Z && (2 ^ 53 <=? m)%Z) then FInf neg
    else
      let sm := if neg then (- m)%Z else m in
      FFin (Qred (if (0 <=? e)%Z then inject_Z (sm * 2 ^ e)
                  else Qmake sm (Z.to_pos (2 ^ (- e))))).

(** The float denoted by the decimal [mant * 10^exp10] ([0 <= mant]). *)
Definition float_of_decimal (neg : bool) (mant exp10 : Z) : pyfloat :=
  if (0 <=? exp10)%Z then round_double neg (mant * 10 ^ exp10) 1
  else round_double neg mant (10 ^ (- exp10)).

(** [a >= b] on floats *)
Definition float_ge (a b : pyfloat) : bool :=
  match a, b with
  | FNaN, _ | _, FNaN => false
  | FInf na, FInf nb => negb na || nb
  | FInf na, FFin _ => negb na
  | FFin _, FInf nb => nb
  | FFin x, FFin y => Qle_bool y x
  end.

(** [n >= b] for an [int] and a [float]: Python compares the exact values. *)
Definition int_ge_float (n : Z) (b : pyfloat) : bool :=
  float_ge (FFin (inject_Z n)) b.

(* ================================================================== *)
(** * Values and exceptions *)

(** The Python values the service handles: what [json.loads] produces and
    what the service builds itself. *)
Inductive pyval :=
| PNone
| PBool (b : bool)
| PInt (n : Z)
| PFloat (f : pyfloat)
| PStr (s : str)
| PList (l : list pyval)
| PDict (d : list (str * pyval)).

Definition dict := list (str * pyval).

(** [d.get(k)] : [None] here is "absent" *)
Fixpoint dict_get (d : dict) (k : str) : option pyval :=
  match d with
  | [] => None
  | (k', v) :: d' => if str_eqb k' k then Some v else dict_get d' k
  end.

(** [k in d] *)
Definition dict_has (d : dict) (k : str) : bool :=
  match dict_get d k with Some _ => true | None => false end.

(** [d[k] = v]: an existing key keeps its place, a new one goes last. *)
Fixpoint dict_set (d : dict) (k : str) (v : pyval) : dict :=
  match d with
  | [] => [(k, v)]
  | (k', v') :: d' =>
      if str_eqb k' k then (k', v) :: d' else (k', v') :: dict_set d' k v
  end.

(** The exception classes the service distinguishes in its handlers.
    [JSONDecodeError] is a subclass of [ValueError] and [RecursionError] one of
    [RuntimeError]; every class is a subclass of [Exception].  [OtherError]
    stands for any other [Exception]. *)
Inductive exn :=
| RuntimeError (msg : str)
| RecursionError (msg : str)
| JSONDecodeError (msg : str) (doc : str) (pos : nat)
| ValueError (msg : str)
| TypeError (msg : str)
| AttributeError (msg : str)
| OtherError (msg : str).

(** [doc.count('\n', 0, pos)] *)
Definition count_newlines (doc : str) (pos : nat) : nat :=
  List.length (filter (N.eqb NEWLINE) (firstn pos doc)).

(** [pos - doc.rfind('\n', 0, pos)] *)
Definition colno (doc : str) (pos : nat) : Z :=
  (Z.of_nat pos - rfind (firstn pos doc) NEWLINE)%Z.

(** [str(e)].  For [JSONDecodeError] this is
    ['%s: line %d column %d (char %d)' % (msg, lineno, colno, pos)]. *)
Definition str_exn (e : exn) : str :=
  match e with
  | JSONDecodeError msg doc pos =>
      msg ++ lit ": line " ++ str_of_nat (count_newlines doc pos + 1)
          ++ lit " column " ++ str_of_N (Z.to_N (colno doc pos))
          ++ lit " (char " ++ str_of_nat pos ++ lit ")"
  | RuntimeError msg | RecursionError msg | ValueError msg | TypeError msg
  | AttributeError msg | OtherError msg => msg
  end.

Definition is_RuntimeError (e : exn) : bool :=
  match e with RuntimeError _ | RecursionError _ => true | _ => false end.
Definition is_JSONDecodeError (e : exn) : bool :=
  match e with JSONDecodeError _ _ _ => true | _ => false end.
Definition is_ValueError (e : exn) : bool :=
  match e with JSONDecodeError _ _ _ | ValueError _ => true | _ => false end.

(** [type(v).__name__] *)
Definition type_name (v : pyval) : str :=
  match v with
  | PNone => lit "NoneType"
  | PBool _ => lit "bool"
  | PInt _ => lit "int"
  | PFloat _ => lit "float"
  | PStr _ => lit "str"
  | PList _ => lit "list"
  | PDict _ => lit "dict"
  end.

(* ================================================================== *)
(** * [json.loads]

    The decoder of the standard library, as CPython 3.11 implements it (the C
    scanner with [strict=True]): the values it builds, where it stops and what
    it raises.  Besides [JSONDecodeError] it raises [ValueError] for an [int]
    literal with more digits than the interpreter converts, and
    [RecursionError] when the text is nested too deep for the recursion limit
    of the interpreter.  Where that limit lies depends on the version of the
    interpreter and on the call stack, and close to it a decode error turns
    into a [RecursionError] too; the model takes it from the interpreter text
    by text.  The decoder recurses on a [fuel] that [json_loads] sets to twice
    the length of the text plus one, which is never used up ([decoder_sound]
    below). *)

(** The limits of the interpreter that the [json] module meets. *)
Record Limits := {
  (** whether [json.loads], called by the service on this text, exceeds the
      recursion limit, and then what follows "maximum recursion depth
      exceeded" in the message of the [RecursionError] *)
  loads_recursion : str -> option str;
  (** the same for [json.dumps(result, indent=2)] *)
  dumps_recursion : pyval -> option str;
  (** [sys.get_int_max_str_digits()]; zero is no limit *)
  int_max_str_digits : nat
}.

Definition is_json_ws (c : char) : bool :=
  ((c =? 32) || (c =? 9) || (c =? 10) || (c =? 13))%N.

Fixpoint skip_ws (s : str) (idx : nat) : str * nat :=
  match s with
  | [] => ([], idx)
  | c :: s' => if is_json_ws c then skip_ws s' (S idx) else (s, idx)
  end.

Definition hex_val (c : char) : option N :=
  if is_digit c then Some (c - 48)%N
  else if ((97 <=? c) && (c <=? 102))%N then Some (c - 87)%N
  else if ((65 <=? c) && (c <=? 70))%N then Some (c - 55)%N
  else None.

Definition hex4 (a b c d : char) : option N :=
  match hex_val a, hex_val b, hex_val c, hex_val d with
  | Some x, Some y, Some z, Some w => Some (((x * 16 + y) * 16 + z) * 16 + w)%N
  | _, _, _, _ => None
  end.

Definition is_high_surrogate (c : N) : bool := ((55296 <=? c) && (c <=? 56319))%N.
Definition is_low_surrogate (c : N) : bool := ((56320 <=? c) && (c <=? 57343))%N.
Definition join_surrogates (hi lo : N) : N :=
  (65536 + ((hi - 55296) * 1024 + (lo - 56320)))%N.

(** The character a one-letter escape stands for. *)
Definition unescape (c : char) : option char :=
  if (c =? QUOTE)%N then Some QUOTE
  else if (c =? BACKSLASH)%N then Some BACKSLASH
  else if (c =? ch "/")%N then Some (ch "/")
  else if (c =? ch "b")%N then Some 8%N
  else if (c =? ch "f")%N then Some 12%N
  else if (c =? ch "n")%N then Some 10%N
  else if (c =? ch "r")%N then Some 13%N
  else if (c =? ch "t")%N then Some 9%N
  else None.

(** [scanstring]: [s] starts just after the opening quote, which is at
    [begin]; [idx] is the position of the head of [s]; [acc] is the decoded
    text so far, reversed.  Returns the string, the rest of the text and its
    position. *)
Fixpoint scanstring (doc : str) (begin : nat) (s : str) (idx : nat) (acc : str)
  : exn + (str * (str * nat)) :=
  match s with
  | [] => inl (JSONDecodeError (lit "Unterminated string starting at") doc begin)
  | c :: s1 =>
      if (c =? QUOTE)%N then inr (rev acc, (s1, S idx))
      else if (c =? BACKSLASH)%N then
        match s1 with
        | [] => inl (JSONDecodeError (lit "Unterminated string starting at") doc begin)
        | e :: s2 =>
            if (e =? ch "u")%N then
              match s2 with
              | h1 :: h2 :: h3 :: h4 :: s6 =>
                  match s6 with
                  | [] => inl (JSONDecodeError (lit "Invalid \uXXXX escape") doc (S idx))
                  | _ :: _ =>
                      match hex4 h1 h2 h3 h4 with
                      | None =>
                          inl (JSONDecodeError (lit "Invalid \uXXXX escape") doc (S idx))
                      | Some c1 =>
                          if is_high_surrogate c1 && (6 <? List.length s6)%nat then
                            match s6 with
                            | n1 :: n2 :: g1 :: g2 :: g3 :: g4 :: s12 =>
                                if (n1 =? BACKSLASH)%N && (n2 =? ch "u")%N then
                                  match hex4 g1 g2 g3 g4 with
                                  | None =>
                                      inl (JSONDecodeError (lit "Invalid \uXXXX escape")
                                             doc (idx + 7))
                                  | Some c2 =>
                                      if is_low_surrogate c2
                                      then scanstring doc begin s12 (idx + 12)
                                             (join_surrogates c1 c2 :: acc)
                                      else scanstring doc begin s6 (idx + 6) (c1 :: acc)
                                  end
                                else scanstring doc begin s6 (idx + 6) (c1 :: acc)
                            | _ => scanstring doc begin s6 (idx + 6) (c1 :: acc)
                            end
                          else scanstring doc begin s6 (idx + 6) (c1 :: acc)
                      end
                  end
              | _ => inl (JSONDecodeError (lit "Invalid \uXXXX escape") doc (S idx))
              end
            else
              match unescape e with
              | Some c' => scanstring doc begin s2 (idx + 2) (c' :: acc)
              | None => inl (JSONDecodeError (lit "Invalid \escape") doc idx)
              end
        end
      else if (c <=? 31)%N then
        inl (JSONDecodeError (lit "Invalid control character at") doc idx)
      else scanstring doc begin s1 (S idx) (c :: acc)
  end.

(** The longest prefix of [s] whose characters satisfy [p], and the rest. *)
Fixpoint span (p : char -> bool) (s : str) : str * str :=
  match s with
  | [] => ([], [])
  | c :: s' => if p c then let (a, b) := span p s' in (c :: a, b) else ([], s)
  end.

(** The integer part of a number: [0] or a non-zero digit followed by digits. *)
Definition match_integer (s : str) : option (str * str) :=
  match s with
  | [] => None
  | c :: s' =>
      if ((49 <=? c) && (c <=? 57))%N then
        let (ds, r) := span is_digit s' in Some (c :: ds, r)
      else if (c =? 48)%N then Some ([c], s')
      else None
  end.

(** The fraction: a dot followed by at least one digit. *)
Definition match_frac (s : str) : option (str * str) :=
  match s with
  | d :: c :: _ =>
      if (d =? ch ".")%N && is_digit c then Some (span is_digit (tl s)) else None
  | _ => None
  end.

(** The exponent: [e] or [E], an optional sign and at least one digit;
    gives the sign, the digits and the rest. *)
Definition match_exp (s : str) : option (bool * str * str) :=
  match s with
  | e :: s1 =>
      if (e =? ch "e")%N || (e =? ch "E")%N then
        let '(neg, s2) :=
          match s1 with
          | sg :: s2 =>
              if (sg =? ch "-")%N then (true, s2)
              else if (sg =? ch "+")%N then (false, s2)
              else (false, s1)
          | [] => (false, s1)
          end in
        let (ds, r) := span is_digit s2 in
        match ds with
        | [] => None
        | _ :: _ => Some (neg, ds, r)
        end
      else None
  | [] => None
  end.

Definition int_limit_error (lim : Limits) (digits : nat) : exn :=
  ValueError
    (lit "Exceeds the limit (" ++ str_of_nat (int_max_str_digits lim)
       ++ lit " digits) for integer string conversion: value has "
       ++ str_of_nat digits
       ++ lit " digits; use sys.set_int_max_str_digits() to increase the limit").

(** [PyLong_FromString] on the digits of an integer literal: beyond 640
    digits the number of digits is checked against the limit. *)
Definition int_of_digits (lim : Limits) (neg : bool) (ids : str) : exn + pyval :=
  let digits := List.length ids in
  if ((640 <? digits) && (0 <? int_max_str_digits lim)
      && (int_max_str_digits lim <? digits))%nat
  then inl (int_limit_error lim digits)
  else
    let n := digits_val ids in
    inr (PInt (if neg then (- n)%Z else n)).

(** [_match_number] after the optional minus sign: the integer part, the
    optional fraction and the optional exponent.  A number with a fraction or
    an exponent is a [float], the others are [int]. *)
Definition number_body (lim : Limits) (neg : bool) (s0 : str)
  : option ((exn + pyval) * str) :=
  match match_integer s0 with
  | None => None
  | Some (ids, r1) =>
      let '(fds, r2) :=
        match match_frac r1 with
        | Some (fds, r2) => (Some fds, r2)
        | None => (None, r1)
        end in
      let '(ex, r3) :=
        match match_exp r2 with
        | Some (eneg, eds, r3) => (Some (eneg, eds), r3)
        | None => (None, r2)
        end in
      match fds, ex with
      | None, None => Some (int_of_digits lim neg ids, r3)
      | _, _ =>
          let fd := match fds with Some d => d | None => [] end in
          let e10 := match ex with
                     | Some (eneg, eds) =>
                         if eneg then (- digits_val eds)%Z else digits_val eds
                     | None => 0%Z
                     end in
          Some (inr (PFloat (float_of_decimal neg (digits_val (ids ++ fd))
                               (e10 - Z.of_nat (List.length fd)))), r3)
      end
  end.

(** [_match_number]: the number at the head of [s], if any, with the rest of
    the text. *)
Definition match_number (lim : Limits) (s : str) : option ((exn + pyval) * str) :=
  match s with
  | c :: s' =>
      if (c =? ch "-")%N then number_body lim true s' else number_body lim false s
  | [] => None
  end.

Definition recursion_error (suffix : str) : exn :=
  RecursionError (lit "maximum recursion depth exceeded" ++ suffix).

(** Never raised: see [decoder_sound]. *)
Definition out_of_fuel : exn := OtherError (lit "out of fuel").

Definition expecting_value (doc : str) (idx : nat) : exn :=
  JSONDecodeError (lit "Expecting value") doc idx.

(** [scan_once], [_parse_object] (from the first key on) and [_parse_array]
    (from the first item on).  [s] is the text from position [idx] on. *)
Fixpoint scan_once (fuel : nat) (lim : Limits) (doc s : str) (idx : nat)
  {struct fuel} : exn + (pyval * (str * nat)) :=
  match fuel with
  | O => inl out_of_fuel
  | S f =>
      match s with
      | [] => inl (expecting_value doc idx)
      | c :: s1 =>
          if (c =? QUOTE)%N then
            match scanstring doc idx s1 (S idx) [] with
            | inl e => inl e
            | inr (t, rest) => inr (PStr t, rest)
            end
          else if (c =? LBRACE)%N then
            let (s2, i2) := skip_ws s1 (S idx) in
            match s2 with
            | c2 :: s3 =>
                if (c2 =? RBRACE)%N then inr (PDict [], (s3, S i2))
                else parse_object f lim doc s2 i2 []
            | [] => parse_object f lim doc s2 i2 []
            end
          else if (c =? LBRACKET)%N then
            let (s2, i2) := skip_ws s1 (S idx) in
            match s2 with
            | c2 :: s3 =>
                if (c2 =? RBRACKET)%N then inr (PList [], (s3, S i2))
                else parse_array f lim doc s2 i2 []
            | [] => inl (expecting_value doc i2)
            end
          else if startswith s (lit "null") then inr (PNone, (skipn 4 s, idx + 4))
          else if startswith s (lit "true") then inr (PBool true, (skipn 4 s, idx + 4))
          else if startswith s (lit "false") then inr (PBool false, (skipn 5 s, idx + 5))
          else if startswith s (lit "NaN") then inr (PFloat FNaN, (skipn 3 s, idx + 3))
          else if startswith s (lit "Infinity") then
            inr (PFloat (FInf false), (skipn 8 s, idx + 8))
          else if startswith s (lit "-Infinity") then
            inr (PFloat (FInf true), (skipn 9 s, idx + 9))
          else
            match match_number lim s with
            | Some (inr v, r) => inr (v, (r, idx + (List.length s - List.length r)))
            | Some (inl e, _) => inl e
            | None => inl (expecting_value doc idx)
            end
      end
  end

with parse_object (fuel : nat) (lim : Limits) (doc s : str) (idx : nat)
    (acc : dict) {struct fuel} : exn + (pyval * (str * nat)) :=
  match fuel with
  | O => inl out_of_fuel
  | S f =>
      let no_key := JSONDecodeError
                      (lit "Expecting property name enclosed in double quotes") doc idx in
      match s with
      | [] => inl no_key
      | c :: s1 =>
          if negb (c =? QUOTE)%N then inl no_key
          else
            match scanstring doc idx s1 (S idx) [] with
            | inl e => inl e
            | inr (key, (s2, i2)) =>
                let (s3, i3) := skip_ws s2 i2 in
                let no_colon := JSONDecodeError (lit "Expecting ':' delimiter") doc i3 in
                match s3 with
                | [] => inl no_colon
                | c3 :: s4 =>
                    if negb (c3 =? COLON)%N then inl no_colon
                    else
                      let (s5, i5) := skip_ws s4 (S i3) in
                      match scan_once f lim doc s5 i5 with
                      | inl e => inl e
                      | inr (v, (s6, i6)) =>
                          let acc' := dict_set acc key v in
                          let (s7, i7) := skip_ws s6 i6 in
                          let no_comma :=
                            JSONDecodeError (lit "Expecting ',' delimiter") doc i7 in
                          match s7 with
                          | [] => inl no_comma
                          | c7 :: s8 =>
                              if (c7 =? RBRACE)%N then inr (PDict acc', (s8, S i7))
                              else if (c7 =? COMMA)%N then
                                let (s9, i9) := skip_ws s8 (S i7) in
                                parse_object f lim doc s9 i9 acc'
                              else inl no_comma
                          end
                      end
                end
            end
      end
  end

with parse_array (fuel : nat) (lim : Limits) (doc s : str) (idx : nat)
    (acc : list pyval) {struct fuel} : exn + (pyval * (str * nat)) :=
  match fuel with
  | O => inl out_of_fuel
  | S f =>
      match scan_once f lim doc s idx with
      | inl e => inl e
      | inr (v, (s2, i2)) =>
          let acc' := acc ++ [v] in
          let (s3, i3) := skip_ws s2 i2 in
          let no_comma := JSONDecodeError (lit "Expecting ',' delimiter") doc i3 in
          match s3 with
          | [] => inl no_comma
          | c3 :: s4 =>
              if (c3 =? RBRACKET)%N then inr (PList acc', (s4, S i3))
              else if (c3 =? COMMA)%N then
                let (s5, i5) := skip_ws s4 (S i3) in
                parse_array f lim doc s5 i5 acc'
              else inl no_comma
          end
      end
  end.

Definition BOM : char := 65279%N.

(** [json.loads(s)] for a [str], within the recursion limit. *)
Definition decode (lim : Limits) (s : str) : exn + pyval :=
  if startswith s [BOM] then
    inl (JSONDecodeError (lit "Unexpected UTF-8 BOM (decode using utf-8-sig)") s 0)
  else
    let (s0, i0) := skip_ws s 0 in
    match scan_once (S (2 * List.length s)) lim s s0 i0 with
    | inl e => inl e
    | inr (obj, (s1, i1)) =>
        let (s2, i2) := skip_ws s1 i1 in
        match s2 with
        | [] => inr obj
        | _ :: _ => inl (JSONDecodeError (lit "Extra data") s i2)
        end
    end.

(** [json.loads(s)] for a [str]. *)
Definition json_loads (lim : Limits) (s : str) : exn + pyval :=
  match loads_recursion lim s with
  | Some suffix => inl (recursion_error suffix)
  | None => decode lim s
  end.

(** What [json.dumps(result, indent=2)] raises, if it does.  The values the
    service passes hold nothing that cannot be serialised; the document
    itself is not modelled. *)
Definition json_dumps (lim : Limits) (result : pyval) : option exn :=
  match dumps_recursion lim result with
  | Some suffix => Some (recursion_error suffix)
  | None => None
  end.

(* ================================================================== *)
(** * The two [re] patterns of the service *)

(** What follows the comma in [,\s*}] and [,\s*]]: a run of white space and
    then [close].  Gives the length of the run.  ([close] is not white
    space, so the greedy [\s*] has one way to match.) *)
Fixpoint ws_then (close : char) (s : str) : option nat :=
  match s with
  | [] => None
  | c :: s' =>
      if (c =? close)%N then Some 0
      else if is_space c then option_map S (ws_then close s')
      else None
  end.

(** [re.sub(r',\s*X', 'X', s)] for [X] one of the closing delimiters: every
    match, left to right and not overlapping, is replaced by [X].  A match is
    a comma, dropped here, and its white space, dropped by counting it down in
    [skip]; the delimiter after them is kept. *)
Fixpoint re_sub_go (close : char) (s : str) (skip : nat) : str :=
  match s with
  | [] => []
  | c :: s' =>
      match skip with
      | S k => re_sub_go close s' k
      | O =>
          if (c =? COMMA)%N then
            match ws_then close s' with
            | Some n => re_sub_go close s' n
            | None => c :: re_sub_go close s' 0
            end
          else c :: re_sub_go close s' 0
      end
  end.

Definition re_sub_trailing (close : char) (s : str) : str := re_sub_go close s 0.

(** A literal of a pattern at the head of [s]. *)
Definition expect (p s : str) : option str :=
  if startswith s p then Some (skipn (List.length p) s) else None.

Definition is_conf_char (c : char) : bool := is_digit c || (c =? ch ".")%N.

(** One match of
    [\{\s*"plateNumber"\s*:\s*"([^"]+)"\s*,\s*"confidence"\s*:\s*([0-9.]+)]
    at the head of [s]: group 1, group 2 and the text after the match.  Each
    [\s*] is followed by a character that is not white space and [[^"]+] by a
    quote, so the greedy runs have one way to match. *)
Definition match_vehicle (s : str) : option (str * str * str) :=
  match expect [LBRACE] s with None => None | Some s1 =>
  match expect (dq "'plateNumber'") (lstrip s1) with None => None | Some s2 =>
  match expect [COLON] (lstrip s2) with None => None | Some s3 =>
  match expect [QUOTE] (lstrip s3) with None => None | Some s4 =>
  let (plate, s5) := span (fun c => negb (c =? QUOTE)%N) s4 in
  match plate with [] => None | _ :: _ =>
  match expect [QUOTE] s5 with None => None | Some s6 =>
  match expect [COMMA] (lstrip s6) with None => None | Some s7 =>
  match expect (dq "'confidence'") (lstrip s7) with None => None | Some s8 =>
  match expect [COLON] (lstrip s8) with None => None | Some s9 =>
  let (conf, rest) := span is_conf_char (lstrip s9) in
  match conf with [] => None | _ :: _ => Some (plate, conf, rest)
  end end end end end end end end end end.

(** [re.finditer(vehicle_pattern, s)]: the matches left to right, not
    overlapping, as pairs of group 1 and group 2.  [skip] counts the
    characters of the last match still to be passed. *)
Fixpoint finditer_go (s : str) (skip : nat) : list (str * str) :=
  match s with
  | [] => []
  | _ :: s' =>
      match skip with
      | S k => finditer_go s' k
      | O =>
          match match_vehicle s with
          | Some (plate, conf, rest) =>
              (plate, conf) :: finditer_go s' (List.length s' - List.length rest)
          | None => finditer_go s' 0
          end
      end
  end.

Definition finditer (s : str) : list (str * str) := finditer_go s 0.

(** [float(t)] for a text of digits and dots, which is all that group 2 of the
    pattern can hold: digits with at most one dot and at least one digit. *)
Definition float_of_text (t : str) : exn + pyfloat :=
  let bad := ValueError (lit "could not convert string to float: '" ++ t ++ lit "'") in
  let (ip, r) := span is_digit t in
  match r with
  | [] =>
      match ip with
      | [] => inl bad
      | _ :: _ => inr (float_of_decimal false (digits_val ip) 0)
      end
  | d :: fp =>
      if (d =? ch ".")%N && forallb is_digit fp
         && negb (Nat.eqb (List.length ip + List.length fp) 0)
      then inr (float_of_decimal false (digits_val (ip ++ fp))
                  (- Z.of_nat (List.length fp)))
      else inl bad
  end.

(* ================================================================== *)
(** * The service: [server/ai_service.py] *)

Definition bind {A B} (m : exn + A) (k : A -> exn + B) : exn + B :=
  match m with
  | inl e => inl e
  | inr a => k a
  end.

Notation "x <- m ;; k" := (bind m (fun x => k))
  (at level 61, m at next level, right associativity).

(** [CONFIDENCE_THRESHOLD = 0.7]: the float the literal denotes. *)
Definition CONFIDENCE_THRESHOLD : pyfloat := float_of_decimal false 7 (-1).

(** A decoded image.  Nothing in the service looks inside it. *)
Inductive Image := ImageOf (data : str).

(** [datetime]: what the clock reads, in UTC. *)
Record datetime := {
  year : nat; month : nat; day : nat;
  hour : nat; minute : nat; second : nat; microsecond : nat
}.

(** What the service reads from its surroundings in one invocation. *)
Record World := {
  (** the module constant, fixed when the module is loaded *)
  GEMINI_API_KEY : str;
  (** [Image.open(io.BytesIO(base64.b64decode(s)))] *)
  decode_image : str -> exn + Image;
  (** [Image.open(filepath)] *)
  open_image : str -> exn + Image;
  (** what [genai.configure] or [genai.GenerativeModel] raise, if they do *)
  configure : option exn;
  (** [model.generate_content([prompt, image], ...).text], or what the call
      or the access to [.text] raises *)
  generate_content : Image -> exn + str;
  (** the clock *)
  clock : datetime;
  (** [open(path, 'r', encoding='utf-8').read()] *)
  read_text : str -> exn + str;
  (** what [open(path, 'w')] or the write of the document raises, if they do *)
  write_text : str -> option exn;
  (** what the [print] to [sys.stdout] raises, if it does *)
  print_stdout : option exn;
  (** the limits of the interpreter *)
  limits : Limits
}.

(** [get_gemini_model()] *)
Definition get_gemini_model (w : World) : exn + unit :=
  match GEMINI_API_KEY w with
  | [] => inl (RuntimeError (lit "GEMINI_API_KEY is not set in environment"))
  | _ :: _ =>
      match configure w with
      | Some e =>
          inl (RuntimeError (lit "Failed to initialize Gemini model: " ++ str_exn e))
      | None => inr tt
      end
  end.

(** [load_image_from_base64(base64_string)] *)
Definition load_image_from_base64 (w : World) (base64_string : str) : exn + Image :=
  let attempt :=
    base64_string <-
      (if has_char base64_string COMMA then
         match item (split base64_string [COMMA]) 1 with
         | Some part => inr part
         | None => inl (OtherError (lit "list index out of range"))
         end
       else inr base64_string) ;;
    decode_image w base64_string in
  match attempt with
  | inr image => inr image
  | inl e => inl (ValueError (lit "Failed to load image from base64: " ++ str_exn e))
  end.

(** [load_image_from_file(filepath)] *)
Definition load_image_from_file (w : World) (filepath : str) : exn + Image :=
  match open_image w filepath with
  | inr image => inr image
  | inl e => inl (ValueError (lit "Failed to load image from file: " ++ str_exn e))
  end.

(** Lines 253-260: the part between the first two fences. *)
Definition fenced_part (response_text : str) : str :=
  if startswith response_text (lit "```") then
    let parts := split response_text (lit "```") in
    if (1 <? List.length parts)%nat then
      let response_text := nth 1 parts [] in
      if startswith response_text (lit "json") then drop 4 response_text
      else response_text
    else response_text
  else response_text.

(** Lines 263-269: the additional cleanup. *)
Definition additional_cleanup (response_text : str) : str :=
  let response_text :=
    if startswith response_text (lit "```json") then drop 7 response_text
    else response_text in
  let response_text :=
    if startswith response_text (lit "```") then drop 3 response_text
    else response_text in
  let response_text :=
    if endswith response_text (lit "```") then drop_last 3 response_text
    else response_text in
  strip response_text.

(** Lines 252-269: the removal of markdown code fences. *)
Definition strip_fences (response_text : str) : str :=
  additional_cleanup (fenced_part response_text).

(** Lines 271-276: the JSON object embedded in the text. *)
Definition extract_object (response_text : str) : str :=
  if has_char response_text LBRACE && has_char response_text RBRACE then
    let start_idx := find response_text LBRACE in
    let end_idx := (rfind response_text RBRACE + 1)%Z in
    if (start_idx <? end_idx)%Z then slice response_text start_idx end_idx
    else response_text
  else response_text.

(** Lines 294-303: the scan from [last_brace] down to [0].  [chars] holds
    [fixed_text[i]], [fixed_text[i-1]], ..., [fixed_text[0]]; the result is
    [start_idx] after the loop. *)
Fixpoint scan_back (chars : str) (i brace_count start_idx : Z) : Z :=
  match chars with
  | [] => start_idx
  | c :: rest =>
      if (c =? RBRACE)%N then scan_back rest (i - 1)%Z (brace_count + 1)%Z start_idx
      else if (c =? LBRACE)%N then
        let brace_count := (brace_count - 1)%Z in
        if (brace_count =? 0)%Z then i
        else scan_back rest (i - 1)%Z brace_count start_idx
      else scan_back rest (i - 1)%Z brace_count start_idx
  end.

(** Lines 285-286 *)
Definition fix_trailing_commas (response_text : str) : str :=
  re_sub_trailing RBRACKET (re_sub_trailing RBRACE response_text).

(** Lines 289-309: the body of the inner [try], after [json.loads] raised
    [parse_error] on [response_text]. *)
Definition repair (lim : Limits) (parse_error : exn) (response_text : str)
  : exn + pyval :=
  let fixed_text := fix_trailing_commas response_text in
  let last_brace := rfind fixed_text RBRACE in
  if (0 <? last_brace)%Z then
    let start_idx :=
      scan_back (rev (firstn (Z.to_nat (last_brace + 1)) fixed_text))
        last_brace 0 last_brace in
    let json_candidate := slice fixed_text start_idx (last_brace + 1)%Z in
    json_loads lim json_candidate
  else inl parse_error.

Definition zero_bbox : pyval := PList [PInt 0; PInt 0; PInt 0; PInt 0].

(** The record built at lines 322-328. *)
Definition salvaged_record (plate : str) (confidence : pyfloat) : pyval :=
  PDict [ (lit "plateNumber", PStr plate);
          (lit "confidence", PFloat confidence);
          (lit "bbox", zero_bbox);
          (lit "class_name", PStr (lit "car"));
          (lit "plateVisible",
            PBool (negb (existsb (str_eqb (upper plate)) [lit "NONE"; lit "BLUR"]))) ].

(** Lines 317-330: the loop over the matches. *)
Fixpoint salvage_loop (matches : list (str * str)) (vehicles : list pyval)
  : list pyval :=
  match matches with
  | [] => vehicles
  | (plate, group2) :: matches' =>
      match float_of_text group2 with
      | inr confidence =>
          if float_ge confidence CONFIDENCE_THRESHOLD
          then salvage_loop matches' (vehicles ++ [salvaged_record plate confidence])
          else salvage_loop matches' vehicles
      | inl _ => salvage_loop matches' vehicles
      end
  end.

(** Lines 311-339: the handler of the inner [try]. *)
Definition salvage (parse_error : exn) (response_text : str) : pyval :=
  let vehicles := salvage_loop (finditer response_text) [] in
  match vehicles with
  | _ :: _ =>
      PDict [ (lit "vehicles", PList vehicles);
              (lit "error", PStr (lit "Partial parse: " ++ str_exn parse_error)) ]
  | [] =>
      PDict [ (lit "vehicles", PList []);
              (lit "error",
                PStr (lit "Failed to parse AI response: " ++ str_exn parse_error)) ]
  end.

Definition not_iterable_arg (v : pyval) : exn :=
  TypeError (lit "argument of type '" ++ type_name v ++ lit "' is not iterable").
Definition not_iterable (v : pyval) : exn :=
  TypeError (lit "'" ++ type_name v ++ lit "' object is not iterable").
Definition list_index_error : exn :=
  TypeError (lit "list indices must be integers or slices, not str").

(** ['vehicles' in result] *)
Definition has_vehicles (result : pyval) : exn + bool :=
  match result with
  | PDict d => inr (dict_has d (lit "vehicles"))
  | PList l =>
      inr (existsb (fun v => match v with
                             | PStr t => str_eqb t (lit "vehicles")
                             | _ => false
                             end) l)
  | PStr t => inr (contains t (lit "vehicles"))
  | _ => inl (not_iterable_arg result)
  end.

(** [result[key] = value] for a [str] key *)
Definition set_item (result : pyval) (key : str) (value : pyval) : exn + pyval :=
  match result with
  | PDict d => inr (PDict (dict_set d key value))
  | PList _ => inl list_index_error
  | _ =>
      inl (TypeError (lit "'" ++ type_name result
                        ++ lit "' object does not support item assignment"))
  end.

(** [result['vehicles']] *)
Definition get_vehicles (result : pyval) : exn + pyval :=
  match result with
  | PDict d =>
      match dict_get d (lit "vehicles") with
      | Some v => inr v
      | None => inl (OtherError (lit "'vehicles'"))
      end
  | PList _ => inl list_index_error
  | PStr _ => inl (TypeError (lit "string indices must be integers, not 'str'"))
  | _ => inl (TypeError (lit "'" ++ type_name result ++ lit "' object is not subscriptable"))
  end.

(** The items a [for] gets from a value. *)
Definition iterate (v : pyval) : exn + list pyval :=
  match v with
  | PList l => inr l
  | PStr t => inr (map (fun c => PStr [c]) t)
  | PDict d => inr (map (fun kv => PStr (fst kv)) d)
  | _ => inl (not_iterable v)
  end.

(** [vehicle.get('confidence', 0.0)] *)
Definition get_confidence (vehicle : pyval) : exn + pyval :=
  match vehicle with
  | PDict d =>
      match dict_get d (lit "confidence") with
      | Some c => inr c
      | None => inr (PFloat (FFin 0))
      end
  | _ =>
      inl (AttributeError (lit "'" ++ type_name vehicle
                             ++ lit "' object has no attribute 'get'"))
  end.

(** [c >= CONFIDENCE_THRESHOLD] *)
Definition ge_threshold (c : pyval) : exn + bool :=
  match c with
  | PBool b => inr (int_ge_float (if b then 1 else 0)%Z CONFIDENCE_THRESHOLD)
  | PInt n => inr (int_ge_float n CONFIDENCE_THRESHOLD)
  | PFloat f => inr (float_ge f CONFIDENCE_THRESHOLD)
  | _ =>
      inl (TypeError (lit "'>=' not supported between instances of '" ++ type_name c
                        ++ lit "' and 'float'"))
  end.

(** Lines 346-349: the list comprehension; it stops at the first item whose
    test raises. *)
Fixpoint filter_vehicles (vehicles : list pyval) : exn + list pyval :=
  match vehicles with
  | [] => inr []
  | vehicle :: rest =>
      c <- get_confidence vehicle ;;
      keep <- ge_threshold c ;;
      filtered <- filter_vehicles rest ;;
      inr (if keep then vehicle :: filtered else filtered)
  end.

(** Lines 341-353 *)
Definition normalize (result : pyval) : exn + pyval :=
  present <- has_vehicles result ;;
  result <- (if present then inr result else set_item result (lit "vehicles") (PList [])) ;;
  vehicles <- get_vehicles result ;;
  items <- iterate vehicles ;;
  filtered_vehicles <- filter_vehicles items ;;
  set_item result (lit "vehicles") (PList filtered_vehicles).

(** Lines 250-276: [response_text] when it reaches [json.loads]. *)
Definition clean (text : str) : str :=
  extract_object (strip_fences (strip text)).

(** Lines 250-353: from the reply text to the value returned, or the exception
    that reaches the handlers of the outer [try]. *)
Definition interpret (lim : Limits) (text : str) : exn + pyval :=
  let response_text := clean text in
  match json_loads lim response_text with
  | inr result => normalize result
  | inl parse_error =>
      if is_JSONDecodeError parse_error then
        match repair lim parse_error response_text with
        | inr result => normalize result
        | inl e =>
            if is_ValueError e then inr (salvage parse_error response_text)
            else inl e
        end
      else inl parse_error
  end.

Definition error_result (msg : str) : pyval :=
  PDict [ (lit "vehicles", PList []); (lit "error", PStr msg) ].

(** The handlers of the outer [try] (lines 355-372).  The handler for
    [JSONDecodeError] prints [response_text]; when the exception was raised
    before line 250 bound that variable, the handler itself raises
    [UnboundLocalError]. *)
Definition outer_handlers (e : exn) (response_text_bound : bool) : exn + pyval :=
  if is_RuntimeError e then inr (error_result (str_exn e))
  else if is_JSONDecodeError e then
    if response_text_bound
    then inr (error_result (lit "Failed to parse AI response: " ++ str_exn e))
    else inl (OtherError (lit "cannot access local variable 'response_text' where it is not associated with a value"))
  else
    let error_msg := str_exn e in
    if contains (lower error_msg) (lit "quota") || contains error_msg (lit "429")
    then inr (error_result
                (lit "API quota exceeded. Please check your Gemini API plan and billing."))
    else inr (error_result error_msg).

(** [analyze_image_with_gemini(image)] *)
Definition analyze_image_with_gemini (w : World) (image : Image) : exn + pyval :=
  match get_gemini_model w with
  | inl e => outer_handlers e false
  | inr _ =>
      match generate_content w image with
      | inl e => outer_handlers e false
      | inr text =>
          match interpret (limits w) text with
          | inr result => inr result
          | inl e => outer_handlers e true
          end
      end
  end.

Definition pad (width n : nat) : str :=
  let digits := str_of_nat n in
  repeat 48%N (width - List.length digits) ++ digits.

(** [d.isoformat()] for a naive [datetime] *)
Definition isoformat (d : datetime) : str :=
  pad 4 (year d) ++ lit "-" ++ pad 2 (month d) ++ lit "-" ++ pad 2 (day d)
    ++ lit "T" ++ pad 2 (hour d) ++ lit ":" ++ pad 2 (minute d)
    ++ lit ":" ++ pad 2 (second d)
    ++ (if Nat.eqb (microsecond d) 0 then [] else lit "." ++ pad 6 (microsecond d)).

(** [datetime.utcnow().isoformat() + 'Z'] *)
Definition utcnow_z (w : World) : str := isoformat (clock w) ++ lit "Z".

(** [datetime.now(timezone.utc).isoformat()]: an aware [datetime] prints its
    offset. *)
Definition now_utc_isoformat (w : World) : str := isoformat (clock w) ++ lit "+00:00".

Definition envelope (vehicles : list pyval) (error timestamp : str) : pyval :=
  PDict [ (lit "vehicles", PList vehicles);
          (lit "error", PStr error);
          (lit "timestamp", PStr timestamp) ].

(** [process_image(image_input, is_base64)] *)
Definition process_image (w : World) (image_input : str) (is_base64 : bool)
  : exn + pyval :=
  let body :=
    match GEMINI_API_KEY w with
    | [] =>
        inr (envelope [] (lit "GEMINI_API_KEY is not set in environment")
               (now_utc_isoformat w))
    | _ :: _ =>
        image <- (if is_base64 then load_image_from_base64 w image_input
                  else load_image_from_file w image_input) ;;
        result <- analyze_image_with_gemini w image ;;
        set_item result (lit "timestamp") (PStr (utcnow_z w))
    end in
  match body with
  | inr result => inr result
  | inl e =>
      if is_ValueError e
      then inr (envelope [] (lit "Failed to load image: " ++ str_exn e) (utcnow_z w))
      else inr (envelope [] (str_exn e) (utcnow_z w))
  end.

(** The command line after [argparse]: an option that was not given is
    [None]. *)
Record Args := {
  image : option str;
  base64 : option str;
  base64_file : option str;
  output : option str
}.

(** [bool(a)] for an option value: [None] and the empty string are false. *)
Definition truthy (a : option str) : bool :=
  match a with
  | Some (_ :: _) => true
  | _ => false
  end.

Definition arg (a : option str) : str :=
  match a with
  | Some t => t
  | None => []
  end.

(** How a run of [main] ends.  The document written is
    [json.dumps(result, indent=2)]; it is represented by [result]. *)
Inductive Outcome :=
| SysExit (code : Z)
| Uncaught (e : exn)
| Printed (result : pyval)
| Saved (path : str) (result : pyval).

(** The exit status of the process: an uncaught exception ends it with 1. *)
Definition exit_status (o : Outcome) : Z :=
  match o with
  | SysExit code => code
  | Uncaught _ => 1%Z
  | Printed _ | Saved _ _ => 0%Z
  end.

(** Lines 460-468 *)
Definition emit (w : World) (args : Args) (result : pyval) : Outcome :=
  match json_dumps (limits w) result with
  | Some e => Uncaught e
  | None =>
      if truthy (output args) then
        match write_text w (arg (output args)) with
        | Some e => Uncaught e
        | None =>
            match print_stdout w with
            | Some e => Uncaught e
            | None => Saved (arg (output args)) result
            end
        end
      else
        match print_stdout w with
        | Some e => Uncaught e
        | None => Printed result
        end
  end.

(** [main()], from line 435 on *)
Definition main (w : World) (args : Args) : Outcome :=
  if negb (truthy (image args)) && negb (truthy (base64 args))
     && negb (truthy (base64_file args))
  then SysExit 1
  else
    let provided_args :=
      (Nat.b2n (truthy (image args)) + Nat.b2n (truthy (base64 args))
       + Nat.b2n (truthy (base64_file args)))%nat in
    if (1 <? provided_args)%nat then SysExit 1
    else if truthy (image args) then
      match process_image w (arg (image args)) false with
      | inr result => emit w args result
      | inl e => Uncaught e
      end
    else if truthy (base64_file args) then
      let attempt :=
        base64_data <- read_text w (arg (base64_file args)) ;;
        process_image w (strip base64_data) true in
      match attempt with
      | inr result => emit w args result
      | inl _ => SysExit 1
      end
    else
      match process_image w (arg (base64 args)) true with
      | inr result => emit w args result
      | inl e => Uncaught e
      end.

(* ================================================================== *)
(** * Vocabulary of the properties *)

(** The value of the float [0.7]: the binary64 nearest to seven tenths. *)
Definition threshold_value : Q := 3152519739159347 # 4503599627370496.

Definition is_number (c : pyval) : bool :=
  match c with
  | PBool _ | PInt _ | PFloat _ => true
  | _ => false
  end.

(** A candidate record: a [dict] whose confidence, when it has one, is a
    number. *)
Definition candidate_record (v : pyval) : Prop :=
  exists d, v = PDict d /\
    match dict_get d (lit "confidence") with
    | Some c => is_number c = true
    | None => True
    end.

(** The number [c] is at least 0.7 ([True] counts as 1, [False] as 0). *)
Definition at_least_threshold (c : pyval) : Prop :=
  match c with
  | PBool b => (threshold_value <= inject_Z (if b then 1 else 0))%Q
  | PInt n => (threshold_value <= inject_Z n)%Q
  | PFloat (FFin q) => (threshold_value <= q)%Q
  | PFloat (FInf neg) => neg = false
  | _ => False
  end.

(** The record [v] has a confidence, and it is at least 0.7. *)
Definition confidence_at_least (v : pyval) : Prop :=
  exists d c, v = PDict d /\ dict_get d (lit "confidence") = Some c
              /\ at_least_threshold c.

(** [kept] is [l] with exactly the items that do not satisfy [P] left out:
    the items that satisfy it are all there, as often and in the order they
    are in [l]. *)
Inductive selected {A} (P : A -> Prop) : list A -> list A -> Prop :=
| selected_nil : selected P [] []
| selected_keep x l kept :
    P x -> selected P l kept -> selected P (x :: l) (x :: kept)
| selected_drop x l kept :
    ~ P x -> selected P l kept -> selected P (x :: l) kept.

(** What [json.loads] raises: a [JSONDecodeError], the [RecursionError] of
    too deep a nesting, or the [ValueError] of too long an [int] literal. *)
Definition decoder_raises (e : exn) : Prop :=
  is_JSONDecodeError e = true
  \/ (exists suffix, e = recursion_error suffix)
  \/ (exists lim digits, e = int_limit_error lim digits).

(** A step of the scanner on [s] went well: it consumed at least one
    character, or it raised a decode error or the [ValueError] of too long an
    [int] literal. *)
Definition decoded_ok (lim : Limits) (res : exn + (pyval * (str * nat))) (s : str)
  : Prop :=
  match res with
  | inl e => is_JSONDecodeError e = true
             \/ exists digits, e = int_limit_error lim digits
  | inr (_, (r, _)) => List.length r < List.length s
  end.

(** The vehicles of a result: the list under its ["vehicles"] key. *)
Definition vehicles_of (result : pyval) : list pyval :=
  match result with
  | PDict d =>
      match dict_get d (lit "vehicles") with
      | Some (PList l) => l
      | _ => []
      end
  | _ => []
  end.

(** [r.get(k)] for a record [r] *)
Definition field (r : pyval) (k : str) : option pyval :=
  match r with
  | PDict d => dict_get d k
  | _ => None
  end.

(** The reply decoded to [decoded], by the strict attempt or, after a decode
    error of the strict attempt, by the repair. *)
Definition decoded_reply (lim : Limits) (text : str) (decoded : pyval) : Prop :=
  json_loads lim (clean text) = inr decoded
  \/ exists parse_error,
       json_loads lim (clean text) = inl parse_error
       /\ is_JSONDecodeError parse_error = true
       /\ repair lim parse_error (clean text) = inr decoded.

(** Neither the strict attempt nor the repair parsed the reply: the strict
    attempt ended in the decode error [parse_error], and the repair in a
    [ValueError], which a decode error is. *)
Definition undecodable (lim : Limits) (text : str) (parse_error : exn) : Prop :=
  json_loads lim (clean text) = inl parse_error
  /\ is_JSONDecodeError parse_error = true
  /\ exists e, repair lim parse_error (clean text) = inl e
               /\ is_ValueError e = true.

(** The reply is nested deeper, or holds a longer [int] literal, than the
    interpreter takes: one of the two decode attempts, the last one made,
    ended in an exception that is not a [ValueError], or the strict one in
    one that is not a decode error. *)
Definition beyond_limits (lim : Limits) (text : str) (e : exn) : Prop :=
  (json_loads lim (clean text) = inl e /\ is_JSONDecodeError e = false)
  \/ exists parse_error,
       json_loads lim (clean text) = inl parse_error
       /\ is_JSONDecodeError parse_error = true
       /\ repair lim parse_error (clean text) = inl e
       /\ is_ValueError e = false.

(** The invariant of the data model on one record: [plateVisible] is true
    exactly when [plateNumber] is not ["NONE"]. *)
Definition plate_visible_invariant (r : pyval) : Prop :=
  exists plate pv,
    field r (lit "plateNumber") = Some (PStr plate)
    /\ field r (lit "plateVisible") = Some (PBool pv)
    /\ (pv = true <-> plate <> lit "NONE").

(** A returned record that breaks the invariant: ["NONE"] with
    [plateVisible] true, as a reply may hold it. *)
Definition none_but_visible : pyval :=
  PDict [ (lit "plateNumber", PStr (lit "NONE"));
          (lit "confidence", PFloat (float_of_decimal false 9 (-1)));
          (lit "plateVisible", PBool true) ].

(** Lines 396-399 *)
Definition load_image (w : World) (image_input : str) (is_base64 : bool)
  : exn + Image :=
  if is_base64 then load_image_from_base64 w image_input
  else load_image_from_file w image_input.

(** Every exception of the upstream call has a message. *)
Definition upstream_speaks (w : World) : Prop :=
  forall image e, generate_content w image = inl e -> str_exn e <> [].

(** The failure modes of one invocation. *)
Inductive failure (w : World) (image_input : str) (is_base64 : bool) : Prop :=
| missing_credential :
    GEMINI_API_KEY w = [] -> failure w image_input is_base64
| image_decode_failure e :
    load_image w image_input is_base64 = inl e -> failure w image_input is_base64
| upstream_error image e :
    load_image w image_input is_base64 = inr image ->
    get_gemini_model w = inl e \/ generate_content w image = inl e ->
    failure w image_input is_base64
| parse_failure image text parse_error :
    load_image w image_input is_base64 = inr image ->
    generate_content w image = inr text ->
    undecodable (limits w) text parse_error ->
    salvage_loop (finditer (clean text)) [] = [] ->
    failure w image_input is_base64
| limit_failure image text e :
    load_image w image_input is_base64 = inr image ->
    generate_content w image = inr text ->
    beyond_limits (limits w) text e ->
    failure w image_input is_base64.

(** An interpreter with the default limit on digits, for texts and values
    that stay within its recursion limit. *)
Definition default_limits : Limits :=
  {| loads_recursion := fun _ => None;
     dumps_recursion := fun _ => None;
     int_max_str_digits := 4300 |}.

(** An interpreter that reaches its recursion limit on the texts that hold
    four opening brackets in a row. *)
Definition shallow_limits : Limits :=
  {| loads_recursion := fun s =>
       if contains s (lit "[[[[")
       then Some (lit " while decoding a JSON array from a unicode string")
       else None;
     dumps_recursion := fun _ => None;
     int_max_str_digits := 4300 |}.

(** A world for examples: the credential, what the model call gives, what
    opening an image file gives and what writing the output gives are left
    open; everything else succeeds. *)
Definition sample_world (key : str) (reply : exn + str)
    (opened : exn + Image) (written : option exn) : World :=
  {| GEMINI_API_KEY := key;
     decode_image := fun data => inr (ImageOf data);
     open_image := fun _ => opened;
     configure := None;
     generate_content := fun _ => reply;
     clock := {| year := 2025; month := 3; day := 9;
                 hour := 14; minute := 5; second := 7; microsecond := 1500 |};
     read_text := fun path => inr path;
     write_text := fun _ => written;
     print_stdout := None;
     limits := default_limits |}.

Definition set_limits (w : World) (lim : Limits) : World :=
  {| GEMINI_API_KEY := GEMINI_API_KEY w;
     decode_image := decode_image w;
     open_image := open_image w;
     configure := configure w;
     generate_content := generate_content w;
     clock := clock w;
     read_text := read_text w;
     write_text := write_text w;
     print_stdout := print_stdout w;
     limits := lim |}.

(** The image input that the command line names: the path of [--image], the
    text of [--base64], or what the file of [--base64-file] holds, stripped. *)
Inductive given (w : World) (args : Args) : str -> bool -> Prop :=
| given_image :
    truthy (image args) = true -> given w args (arg (image args)) false
| given_base64 :
    truthy (base64 args) = true -> given w args (arg (base64 args)) true
| given_base64_file data :
    truthy (base64_file args) = true ->
    read_text w (arg (base64_file args)) = inr data ->
    given w args (strip data) true.

(** The result cannot be written out: its serialisation, the write to the
    file of [--output] or the print to the standard output raises. *)
Definition cannot_emit (w : World) (args : Args) (result : pyval) : Prop :=
  (exists e, json_dumps (limits w) result = Some e)
  \/ (truthy (output args) = true
      /\ exists e, write_text w (arg (output args)) = Some e)
  \/ (exists e, print_stdout w = Some e).

(** The braces of a text pair up, counted as characters (those inside
    string literals too). *)
Inductive balanced : str -> Prop :=
| balanced_nil : balanced []
| balanced_char c s :
    c <> LBRACE -> c <> RBRACE -> balanced s -> balanced (c :: s)
| balanced_nest a b :
    balanced a -> balanced b -> balanced (LBRACE :: a ++ RBRACE :: b).

(** Two candidate records, one below the threshold and one above. *)
Definition sample_records : list pyval :=
  [ PDict [ (lit "plateNumber", PStr (lit "AAA 111"));
            (lit "confidence", PFloat (float_of_decimal false 5 (-1))) ];
    PDict [ (lit "plateNumber", PStr (lit "BBB 222"));
            (lit "confidence", PFloat (float_of_decimal false 8 (-1))) ] ].

(** A reply cut short after the first fields of its first record. *)
Definition truncated_reply : str :=
  dq "{'vehicles':[{'plateNumber':'NONE','confidence':0.9,'bbox':[0,0,".

(** A reply with a trailing comma before each closing delimiter. *)
Definition trailing_commas_reply : str :=
  dq "{'vehicles':[{'plateNumber':'ABC 123','confidence':0.9,}, ],}".

(** [t] is [j] with a comma, and white space after it if any, put before
    some of the occurrences of the delimiter [close]. *)
Inductive inserted (close : char) : str -> str -> Prop :=
| inserted_nil : inserted close [] []
| inserted_keep c j t :
    inserted close j t -> inserted close (c :: j) (c :: t)
| inserted_comma ws j t :
    Forall (fun c => is_space c = true) ws ->
    inserted close j t ->
    inserted close (close :: j) (COMMA :: ws ++ close :: t).

(** Some comma of [s] is followed by white space, if any, and then by
    [close]. *)
Fixpoint has_trailing (close : char) (s : str) : bool :=
  match s with
  | [] => false
  | c :: s' =>
      ((c =? COMMA)%N && match ws_then close s' with Some _ => true | None => false end)
      || has_trailing close s'
  end.

(** A run of white space. *)
Definition spaces (ws : str) : Prop := Forall (fun c => is_space c = true) ws.

(** What the vehicle pattern matches at the head of [s], read off the
    pattern: an opening brace, the key ["plateNumber"], a colon, a quoted
    non-empty text without quote (group 1), a comma, the key ["confidence"], a
    colon and the longest non-empty run of digits and dots (group 2), with
    optional white space between them; [rest] is what follows the match. *)
Definition vehicle_fragment (s plate conf rest : str) : Prop :=
  exists w1 w2 w3 w4 w5 w6 w7,
    spaces w1 /\ spaces w2 /\ spaces w3 /\ spaces w4
    /\ spaces w5 /\ spaces w6 /\ spaces w7
    /\ s = LBRACE :: w1 ++ dq "'plateNumber'" ++ w2 ++ COLON :: w3
              ++ QUOTE :: plate ++ QUOTE :: w4 ++ COMMA :: w5
              ++ dq "'confidence'" ++ w6 ++ COLON :: w7 ++ conf ++ rest
    /\ plate <> [] /\ ~ In QUOTE plate
    /\ conf <> [] /\ Forall (fun c => is_conf_char c = true) conf
    /\ match rest with
       | [] => True
       | c :: _ => is_conf_char c = false
       end.






(** What [load_image_from_base64] makes of the text it hands to the decoder
    (lines 61-65). *)
Definition decoded_payload (w : World) (payload : str) : exn + Image :=
  match decode_image w payload with
  | inr image => inr image
  | inl e => inl (ValueError (lit "Failed to load image from base64: " ++ str_exn e))
  end.

(** The message of line 371. *)
Definition quota_message : str :=
  lit "API quota exceeded. Please check your Gemini API plan and billing.".

(** What the interpreter says of line 363 when [response_text] was never
    bound. *)
Definition unbound_response_text : str :=
  lit "cannot access local variable 'response_text' where it is not associated with a value".

Definition set_configure (w : World) (raised : option exn) : World :=
  {| GEMINI_API_KEY := GEMINI_API_KEY w;
     decode_image := decode_image w;
     open_image := open_image w;
     configure := raised;
     generate_content := generate_content w;
     clock := clock w;
     read_text := read_text w;
     write_text := write_text w;
     print_stdout := print_stdout w;
     limits := limits w |}.

(** A reply cut short after its first record. *)
Definition reply_cut_after_record : str :=
  dq "{'vehicles':[{'plateNumber':'ABC 123','confidence':0.9}".

(** A reply whose second record gives its confidence in words. *)
Definition reply_with_worded_confidence : str :=
  dq "{'vehicles':[{'plateNumber':'ABC 123','confidence':0.9},{'plateNumber':'XYZ 789','confidence':'high'}]}".

(** A reply with a record below the threshold, one above, and a note. *)
Definition reply_with_note : str :=
  dq "{'vehicles':[{'plateNumber':'AAA 111','confidence':0.5},{'plateNumber':'BBB 222','confidence':0.8}],'note':'two cars'}".

(* ================================================================== *)
(** * Properties *)

(** ** Strings and dictionaries *)

Lemma str_eqb_eq (a b : str) : str_eqb a b = true <-> a = b.
Proof.
  revert b; induction a as [|x a IH]; intros [|y b]; simpl; split; intro H;
    try reflexivity; try discriminate.
  - apply andb_true_iff in H as [Hx Hr]. apply N.eqb_eq in Hx.
    apply IH in Hr. subst; reflexivity.
  - injection H as -> ->. rewrite N.eqb_refl. apply IH. reflexivity.
Qed.

Lemma str_eqb_refl (a : str) : str_eqb a a = true.
Proof. apply str_eqb_eq; reflexivity. Qed.

Lemma str_eqb_neq (a b : str) : a <> b -> str_eqb a b = false.
Proof.
  intro H. destruct (str_eqb a b) eqn:E; [|reflexivity].
  apply str_eqb_eq in E. contradiction.
Qed.

Lemma dict_get_set_same (d : dict) k v : dict_get (dict_set d k v) k = Some v.
Proof.
  induction d as [|[k0 v0] d IH]; simpl.
  - rewrite str_eqb_refl; reflexivity.
  - destruct (str_eqb k0 k) eqn:E; simpl; rewrite E; auto.
Qed.

Lemma dict_get_set_other (d : dict) k k' v :
  k <> k' -> dict_get (dict_set d k v) k' = dict_get d k'.
Proof.
  intro Hk. induction d as [|[k0 v0] d IH]; simpl.
  - rewrite (str_eqb_neq k k' Hk); reflexivity.
  - destruct (str_eqb k0 k) eqn:E; simpl.
    + apply str_eqb_eq in E; subst k0.
      rewrite (str_eqb_neq k k' Hk); reflexivity.
    + destruct (str_eqb k0 k'); auto.
Qed.

(** ** The decoder always has fuel enough *)

Lemma skip_ws_length s i : List.length (fst (skip_ws s i)) <= List.length s.
Proof.
  revert i; induction s as [|c s IH]; intro i; simpl; [lia|].
  destruct (is_json_ws c); simpl; [|lia]. specialize (IH (S i)). lia.
Qed.

Lemma span_app p s : fst (span p s) ++ snd (span p s) = s.
Proof.
  induction s as [|c s IH]; simpl; [reflexivity|].
  destruct (p c); [|reflexivity]. destruct (span p s); simpl in *. congruence.
Qed.

Lemma span_length p s : List.length (snd (span p s)) <= List.length s.
Proof.
  rewrite <- (span_app p s) at 2. rewrite length_app. lia.
Qed.

Lemma scanstring_sound doc b : forall n s idx acc,
  List.length s <= n ->
  match scanstring doc b s idx acc with
  | inl e => is_JSONDecodeError e = true
  | inr (_, (r, _)) => List.length r < List.length s
  end.
Proof.
  induction n as [|n IH]; intros s idx acc Hn.
  - destruct s; [reflexivity | simpl in Hn; lia].
  - destruct s as [|c s1]; [reflexivity|]. simpl in Hn.
    cbn [scanstring].
    repeat match goal with
    | |- context [if ?x then _ else _] => destruct x
    | |- context [match ?x with _ => _ end] =>
        lazymatch x with
        | context [scanstring] => fail
        | _ => destruct x
        end
    end;
    try reflexivity; try (simpl; lia);
    try (match goal with
    | |- context [scanstring ?d ?b ?s ?i ?a] =>
        let H := fresh in
        assert (H := IH s i a); 
        let H2 := fresh in 
        assert (H2 : List.length s <= n) by (simpl in *; lia);
        specialize (H H2); clear H2; revert H;
        destruct (scanstring d b s i a) as [?|[? [? ?]]]; intro H;
        [exact H | simpl in *; lia]
    end).
Qed.

Lemma skip_ws_le s i s' i' : skip_ws s i = (s', i') -> List.length s' <= List.length s.
Proof.
  intro H. pose proof (skip_ws_length s i) as L. rewrite H in L. exact L.
Qed.

Lemma span_le p s a b : span p s = (a, b) -> List.length b <= List.length s.
Proof.
  intro H. pose proof (span_length p s) as L. rewrite H in L. exact L.
Qed.

Lemma match_integer_length s ds r :
  match_integer s = Some (ds, r) -> List.length r < List.length s.
Proof.
  unfold match_integer. destruct s as [|c s']; [discriminate|].
  destruct ((49 <=? c)%N && (c <=? 57)%N).
  - destruct (span is_digit s') as [a b] eqn:E. intro H. injection H as _ <-.
    apply span_le in E. simpl. lia.
  - destruct (c =? 48)%N; [|discriminate]. intro H. injection H as _ <-. simpl. lia.
Qed.

Lemma match_frac_length s ds r :
  match_frac s = Some (ds, r) -> List.length r <= List.length s.
Proof.
  unfold match_frac. destruct s as [|d [|c s']]; try discriminate.
  destruct ((d =? ch ".")%N && is_digit c); [|discriminate].
  intro H. injection H as H.
  pose proof (span_le is_digit (c :: s') ds r H) as L. simpl in *. lia.
Qed.

Lemma match_exp_length s sg ds r :
  match_exp s = Some (sg, ds, r) -> List.length r <= List.length s.
Proof.
  unfold match_exp. destruct s as [|e s1]; [discriminate|].
  destruct ((e =? ch "e")%N || (e =? ch "E")%N); [|discriminate].
  assert (forall neg s2, List.length s2 <= List.length s1 ->
            (let (ds0, r0) := span is_digit s2 in
             match ds0 with
             | [] => None
             | _ :: _ => Some (neg, ds0, r0)
             end) = Some (sg, ds, r) -> List.length r <= List.length (e :: s1)) as K.
  { intros neg s2 L. destruct (span is_digit s2) as [a b] eqn:E.
    destruct a; [discriminate|]. intro H. injection H as _ _ <-.
    apply span_le in E. simpl. lia. }
  destruct s1 as [|sg' s2].
  - apply K. simpl; lia.
  - destruct (sg' =? ch "-")%N; [apply K; simpl; lia|].
    destruct (sg' =? ch "+")%N; apply K; simpl; lia.
Qed.

Section Scanner.

(** The limits of the interpreter and the text being decoded. *)
Variable lim : Limits.
Variable doc : str.

Lemma number_body_length neg s0 v r :
  number_body lim neg s0 = Some (v, r) -> List.length r < List.length s0.
Proof.
  unfold number_body.
  destruct (match_integer s0) as [[ids r1]|] eqn:Ei; [|discriminate].
  apply match_integer_length in Ei.
  destruct (match_frac r1) as [[fds r2]|] eqn:Ef.
  - apply match_frac_length in Ef.
    destruct (match_exp r2) as [[[eneg eds] r3]|] eqn:Ee.
    + apply match_exp_length in Ee. intro H. injection H as _ <-. lia.
    + intro H. injection H as _ <-. lia.
  - destruct (match_exp r1) as [[[eneg eds] r3]|] eqn:Ee.
    + apply match_exp_length in Ee. intro H. injection H as _ <-. lia.
    + intro H. injection H as _ <-. lia.
Qed.

Lemma match_number_length s v r :
  match_number lim s = Some (v, r) -> List.length r < List.length s.
Proof.
  unfold match_number. destruct s as [|c s']; [discriminate|].
  destruct (c =? ch "-")%N; intro H; apply number_body_length in H; simpl in *; lia.
Qed.

Lemma int_of_digits_raises neg ids e :
  int_of_digits lim neg ids = inl e ->
  e = int_limit_error lim (List.length ids).
Proof.
  unfold int_of_digits.
  destruct ((640 <? List.length ids) && (0 <? int_max_str_digits lim)
            && (int_max_str_digits lim <? List.length ids))%nat;
    [intros [= <-]; reflexivity | discriminate].
Qed.

Lemma number_body_raises neg s0 e r :
  number_body lim neg s0 = Some (inl e, r) ->
  exists digits, e = int_limit_error lim digits.
Proof.
  unfold number_body.
  destruct (match_integer s0) as [[ids r1]|]; [|discriminate].
  destruct (match_frac r1) as [[fds r2]|];
    [destruct (match_exp r2) as [[[eneg eds] r3]|]
    |destruct (match_exp r1) as [[[eneg eds] r3]|]];
    try discriminate.
  intros [= H _]. apply int_of_digits_raises in H. eexists; exact H.
Qed.

Lemma match_number_raises s e r :
  match_number lim s = Some (inl e, r) ->
  exists digits, e = int_limit_error lim digits.
Proof.
  unfold match_number. destruct s as [|c s']; [discriminate|].
  destruct (c =? ch "-")%N; apply number_body_raises.
Qed.

Lemma scanstring_ok b s idx acc :
  match scanstring doc b s idx acc with
  | inl e => is_JSONDecodeError e = true
  | inr (_, (r, _)) => List.length r < List.length s
  end.
Proof. apply (scanstring_sound doc b (List.length s)). lia. Qed.

(** Closes a goal [decoded_ok lim (inl e) s] for an exception of the
    scanner. *)
Ltac raised :=
  first [ left; reflexivity | right; eexists; reflexivity ].

Lemma decoder_sound : forall fuel,
  (forall s idx,
      2 * List.length s < fuel -> decoded_ok lim (scan_once fuel lim doc s idx) s)
  /\ (forall s idx acc, 2 * List.length s + 1 < fuel ->
        decoded_ok lim (parse_object fuel lim doc s idx acc) s)
  /\ (forall s idx acc, 2 * List.length s + 1 < fuel ->
        decoded_ok lim (parse_array fuel lim doc s idx acc) s).
Proof.
  induction fuel as [|f (IHs & IHo & IHa)].
  - repeat split; intros; lia.
  - split; [|split].
    + intros s idx Hf. destruct s as [|c s1]; [raised|].
      cbn [scan_once]. simpl in Hf.
      destruct (c =? QUOTE)%N.
      { pose proof (scanstring_ok idx s1 (S idx) []) as K.
        destruct (scanstring doc idx s1 (S idx) []) as [e|[t [r i]]]; simpl in *;
          [left; exact K | lia]. }
      destruct (c =? LBRACE)%N.
      { destruct (skip_ws s1 (S idx)) as [s2 i2] eqn:E. apply skip_ws_le in E.
        assert (decoded_ok lim (parse_object f lim doc s2 i2 []) (c :: s1)) as K.
        { specialize (IHo s2 i2 []). unfold decoded_ok in *.
          destruct (parse_object f lim doc s2 i2 []) as [e|[v [r i]]].
          - apply IHo. lia.
          - simpl. assert (2 * List.length s2 + 1 < f) as L by lia.
            specialize (IHo L). lia. }
        destruct s2 as [|c2 s3]; [exact K|].
        destruct (c2 =? RBRACE)%N; [|exact K]. simpl in *. lia. }
      destruct (c =? LBRACKET)%N.
      { destruct (skip_ws s1 (S idx)) as [s2 i2] eqn:E. apply skip_ws_le in E.
        destruct s2 as [|c2 s3]; [raised|].
        destruct (c2 =? RBRACKET)%N; [simpl in *; lia|].
        specialize (IHa (c2 :: s3) i2 []). unfold decoded_ok in *.
        destruct (parse_array f lim doc (c2 :: s3) i2 []) as [e|[v [r i]]].
        - apply IHa. lia.
        - assert (2 * List.length (c2 :: s3) + 1 < f) as L by lia.
          specialize (IHa L). simpl in *. lia. }
      repeat match goal with
      | |- decoded_ok lim (if ?x then _ else _) _ => destruct x
      | |- decoded_ok lim (inr (_, (skipn _ _, _))) _ =>
          unfold decoded_ok; rewrite length_skipn; simpl; lia
      end.
      destruct (match_number lim (c :: s1)) as [[[e|v] r]|] eqn:E; [| |raised].
      * apply match_number_raises in E. destruct E as (digits & ->). raised.
      * apply match_number_length in E. exact E.
    + intros s idx acc Hf. cbn [parse_object].
      destruct s as [|c s1]; [raised|]. simpl in Hf.
      destruct (negb (c =? QUOTE)%N); [raised|].
      pose proof (scanstring_ok idx s1 (S idx) []) as K.
      destruct (scanstring doc idx s1 (S idx) []) as [e|[key [s2 i2]]]; [left; exact K|].
      destruct (skip_ws s2 i2) as [s3 i3] eqn:E3. apply skip_ws_le in E3.
      destruct s3 as [|c3 s4]; [raised|].
      destruct (negb (c3 =? COLON)%N); [raised|].
      destruct (skip_ws s4 (S i3)) as [s5 i5] eqn:E5. apply skip_ws_le in E5.
      simpl in E3.
      specialize (IHs s5 i5). unfold decoded_ok in IHs.
      destruct (scan_once f lim doc s5 i5) as [e|[v [s6 i6]]]; [apply IHs; lia|].
      assert (List.length s6 < List.length s5) as L6 by (apply IHs; lia).
      destruct (skip_ws s6 i6) as [s7 i7] eqn:E7. apply skip_ws_le in E7.
      destruct s7 as [|c7 s8]; [raised|]. simpl in E7.
      destruct (c7 =? RBRACE)%N; [simpl; lia|].
      destruct (c7 =? COMMA)%N; [|raised].
      destruct (skip_ws s8 (S i7)) as [s9 i9] eqn:E9. apply skip_ws_le in E9.
      specialize (IHo s9 i9 (dict_set acc key v)). unfold decoded_ok in *.
      destruct (parse_object f lim doc s9 i9 (dict_set acc key v)) as [e|[v' [r i]]].
      * apply IHo. lia.
      * assert (2 * List.length s9 + 1 < f) as L by lia.
        specialize (IHo L). simpl. lia.
    + intros s idx acc Hf. cbn [parse_array].
      specialize (IHs s idx). unfold decoded_ok in IHs.
      destruct (scan_once f lim doc s idx) as [e|[v [s2 i2]]]; [apply IHs; lia|].
      assert (List.length s2 < List.length s) as L2 by (apply IHs; lia).
      destruct (skip_ws s2 i2) as [s3 i3] eqn:E3. apply skip_ws_le in E3.
      destruct s3 as [|c3 s4]; [raised|]. simpl in E3.
      destruct (c3 =? RBRACKET)%N; [simpl; lia|].
      destruct (c3 =? COMMA)%N; [|raised].
      destruct (skip_ws s4 (S i3)) as [s5 i5] eqn:E5. apply skip_ws_le in E5.
      specialize (IHa s5 i5 (acc ++ [v])). unfold decoded_ok in *.
      destruct (parse_array f lim doc s5 i5 (acc ++ [v])) as [e|[v' [r i]]].
      * apply IHa. lia.
      * assert (2 * List.length s5 + 1 < f) as L by lia.
        specialize (IHa L). simpl. lia.
Qed.

End Scanner.

(** Within the recursion limit the decoder raises a decode error or the
    [ValueError] of too long an [int] literal: the fuel is enough. *)
Lemma decode_raises lim s e :
  decode lim s = inl e ->
  is_JSONDecodeError e = true \/ exists digits, e = int_limit_error lim digits.
Proof.
  unfold decode. destruct (startswith s [BOM]).
  { intro H; injection H as <-; left; reflexivity. }
  destruct (skip_ws s 0) as [s0 i0] eqn:E0. apply skip_ws_le in E0.
  destruct (decoder_sound lim s (S (2 * List.length s))) as (Hs & _ & _).
  specialize (Hs s0 i0). unfold decoded_ok in Hs.
  destruct (scan_once (S (2 * List.length s)) lim s s0 i0) as [e'|[obj [s1 i1]]].
  - intro H; injection H as <-. apply Hs. lia.
  - destruct (skip_ws s1 i1) as [s2 i2]. destruct s2; [discriminate|].
    intro H; injection H as <-; left; reflexivity.
Qed.

(** [json.loads] raises nothing but the decoder's exceptions. *)
Lemma json_loads_raises lim s e : json_loads lim s = inl e -> decoder_raises e.
Proof.
  unfold json_loads. destruct (loads_recursion lim s) as [suffix|].
  - intros [= <-]. right; left. exists suffix. reflexivity.
  - intro H. apply decode_raises in H. destruct H as [H|(digits & ->)].
    + left. exact H.
    + right; right. eexists _, _. reflexivity.
Qed.

(** The exceptions of the decoder have a message, and none is a
    [RuntimeError] and a [ValueError] at once. *)
Lemma decoder_raises_message e : decoder_raises e -> str_exn e <> [].
Proof.
  intros [H|[(what & ->)|(lim & digits & ->)]]; try discriminate.
  destruct e; try discriminate. simpl.
  destruct msg; discriminate.
Qed.

Lemma decoder_raises_class e :
  decoder_raises e ->
  is_JSONDecodeError e = true
  \/ (is_JSONDecodeError e = false /\ is_RuntimeError e = true
      /\ is_ValueError e = false)
  \/ (is_JSONDecodeError e = false /\ is_RuntimeError e = false
      /\ is_ValueError e = true).
Proof.
  intros [H|[(what & ->)|(lim & digits & ->)]]; [left; exact H| |].
  - right; left. repeat split.
  - right; right. repeat split.
Qed.

(** ** The threshold filter *)

Lemma CONFIDENCE_THRESHOLD_value : CONFIDENCE_THRESHOLD = FFin threshold_value.
Proof. vm_compute. reflexivity. Qed.

Lemma ge_threshold_number (c : pyval) :
  is_number c = true ->
  exists b, ge_threshold c = inr b /\ (b = true <-> at_least_threshold c).
Proof.
  destruct c as [| b | n | f | | |]; simpl; try discriminate; intros _.
  - eexists; split; [reflexivity|].
    unfold int_ge_float. rewrite CONFIDENCE_THRESHOLD_value. simpl.
    apply Qle_bool_iff.
  - eexists; split; [reflexivity|].
    unfold int_ge_float. rewrite CONFIDENCE_THRESHOLD_value. simpl.
    apply Qle_bool_iff.
  - eexists; split; [reflexivity|].
    rewrite CONFIDENCE_THRESHOLD_value.
    destruct f as [| neg | q]; simpl.
    + split; [discriminate | tauto].
    + destruct neg; simpl; split; congruence.
    + apply Qle_bool_iff.
Qed.

Lemma ge_threshold_default : ge_threshold (PFloat (FFin 0)) = inr false.
Proof. vm_compute. reflexivity. Qed.

(** What the filter decides for one candidate record. *)
Lemma candidate_decision (v : pyval) :
  candidate_record v ->
  exists c b, get_confidence v = inr c /\ ge_threshold c = inr b
              /\ (b = true <-> confidence_at_least v).
Proof.
  intros (d & -> & Hc). simpl.
  destruct (dict_get d (lit "confidence")) as [c|] eqn:E.
  - destruct (ge_threshold_number c Hc) as (b & Hb & Hiff).
    exists c, b. split; [reflexivity|]. split; [exact Hb|]. split.
    + intro Hbt. exists d, c. split; [reflexivity|]. split; [exact E|].
      apply Hiff; exact Hbt.
    + intros (d' & c' & Hd & Hg & Hat). injection Hd as <-.
      rewrite E in Hg. injection Hg as <-. apply Hiff; exact Hat.
  - exists (PFloat (FFin 0)), false. split; [reflexivity|].
    split; [exact ge_threshold_default|]. split.
    + discriminate.
    + intros (d' & c' & Hd & Hg & _). injection Hd as <-.
      rewrite E in Hg. discriminate.
Qed.

(** C3.  For every list of candidate records (dictionaries whose confidence,
    when present, is a number) the threshold filter returns the list with
    exactly the records whose confidence is not at least 0.7 left out: the
    records at or above 0.7 are all kept, whatever their other fields, in the
    order they had, and no record below 0.7 is. *)
Theorem threshold_filter_exact (l : list pyval) :
  Forall candidate_record l ->
  exists kept,
    filter_vehicles l = inr kept
    /\ selected confidence_at_least l kept
    /\ (forall v, In v kept <-> In v l /\ confidence_at_least v).
Proof.
  induction 1 as [|v l Hv Hl IH].
  - exists []. split; [reflexivity|]. split; [constructor|]. simpl. tauto.
  - destruct IH as (kept & Hk & Hsel & Hin).
    destruct (candidate_decision v Hv) as (c & b & Hc & Hb & Hiff).
    simpl. rewrite Hc. simpl. rewrite Hb. simpl. rewrite Hk. simpl.
    destruct b.
    + assert (confidence_at_least v) as Hat by (apply Hiff; reflexivity).
      exists (v :: kept). split; [reflexivity|]. split.
      * constructor; assumption.
      * intro x. simpl. rewrite Hin. split.
        -- intros [<-|[Hx Hx']]; [|tauto]. split; [left; reflexivity|exact Hat].
        -- intros [[<-|Hx] Hx']; tauto.
    + assert (~ confidence_at_least v) as Hat.
      { intro K. apply Hiff in K. discriminate. }
      exists kept. split; [reflexivity|]. split.
      * constructor; assumption.
      * intro x. simpl. rewrite Hin. split.
        -- tauto.
        -- intros [[<-|Hx] Hx']; [contradiction|tauto].
Qed.

(** ** The interpreter, path by path *)

Section Interpreter.

Variable lim : Limits.

Lemma repair_raises e1 rt e2 :
  is_JSONDecodeError e1 = true -> repair lim e1 rt = inl e2 -> decoder_raises e2.
Proof.
  unfold repair. intros H1.
  destruct (0 <? rfind (fix_trailing_commas rt) RBRACE)%Z.
  - apply json_loads_raises.
  - intro H. injection H as <-. left. exact H1.
Qed.

Lemma is_JSONDecodeError_ValueError e :
  is_JSONDecodeError e = true -> is_ValueError e = true.
Proof. destruct e; simpl; congruence. Qed.

(** The ways through lines 278-353: a decoded reply is normalised, ... *)
Lemma interpret_decoded text decoded :
  decoded_reply lim text decoded -> interpret lim text = normalize decoded.
Proof.
  unfold interpret. intros [H|(e1 & H1 & Hc & H2)].
  - rewrite H. reflexivity.
  - rewrite H1, Hc, H2. reflexivity.
Qed.

(** ... a reply that neither attempt parsed is salvaged, ... *)
Lemma interpret_undecodable text parse_error :
  undecodable lim text parse_error ->
  interpret lim text = inr (salvage parse_error (clean text)).
Proof.
  unfold interpret. intros (H1 & Hc & e2 & H2 & Hv).
  rewrite H1, Hc, H2, Hv. reflexivity.
Qed.

(** ... and what a decode attempt raises beyond the limits of the interpreter
    goes to the handlers of the outer [try]. *)
Lemma interpret_beyond_limits text e :
  beyond_limits lim text e -> interpret lim text = inl e.
Proof.
  unfold interpret. intros [(H1 & Hc)|(e1 & H1 & Hc & H2 & Hv)].
  - rewrite H1, Hc. reflexivity.
  - rewrite H1, Hc, H2, Hv. reflexivity.
Qed.

Lemma beyond_limits_raises text e :
  beyond_limits lim text e -> decoder_raises e.
Proof.
  intros [(H1 & _)|(e1 & _ & Hc & H2 & _)].
  - exact (json_loads_raises _ _ _ H1).
  - exact (repair_raises _ _ _ Hc H2).
Qed.

(** There is no other way. *)
Lemma interpret_paths text :
  (exists decoded, decoded_reply lim text decoded)
  \/ (exists parse_error, undecodable lim text parse_error)
  \/ (exists e, beyond_limits lim text e /\ decoder_raises e).
Proof.
  destruct (json_loads lim (clean text)) as [e1|res] eqn:E1.
  2:{ left. exists res. left. exact E1. }
  pose proof (json_loads_raises _ _ _ E1) as R1.
  destruct (is_JSONDecodeError e1) eqn:C1.
  2:{ right; right. exists e1. split; [left; split; assumption|exact R1]. }
  destruct (repair lim e1 (clean text)) as [e2|res] eqn:E2.
  2:{ left. exists res. right. exists e1. auto. }
  pose proof (repair_raises _ _ _ C1 E2) as R2.
  destruct (is_ValueError e2) eqn:C2.
  - right; left. exists e1. split; [exact E1|]. split; [exact C1|].
    exists e2. auto.
  - right; right. exists e2. split; [|exact R2].
    right. exists e1. auto.
Qed.

End Interpreter.

Lemma filter_vehicles_In l : forall kept,
  filter_vehicles l = inr kept ->
  forall v, In v kept ->
    In v l /\ exists c, get_confidence v = inr c /\ ge_threshold c = inr true.
Proof.
  induction l as [|x l IH]; simpl; intros kept H v Hv.
  - injection H as <-. destruct Hv.
  - unfold bind in H.
    destruct (get_confidence x) as [|c] eqn:Ec; [discriminate|].
    destruct (ge_threshold c) as [|keep] eqn:Eg; [discriminate|].
    destruct (filter_vehicles l) as [|filtered]; [discriminate|].
    injection H as <-. specialize (IH filtered eq_refl v).
    destruct keep.
    + destruct Hv as [<-|Hv].
      * split; [left; reflexivity|]. exists c; auto.
      * destruct (IH Hv) as [Hin Hc]. split; [right; exact Hin | exact Hc].
    + destruct (IH Hv) as [Hin Hc]. split; [right; exact Hin | exact Hc].
Qed.

(** What [normalize] returns: the decoded dictionary with its vehicles
    replaced by the filtered ones. *)
Lemma normalize_returns result r :
  normalize result = inr r ->
  exists d vehicles items kept,
    result = PDict d
    /\ (dict_get d (lit "vehicles") = Some vehicles \/
        dict_get d (lit "vehicles") = None /\ vehicles = PList [])
    /\ iterate vehicles = inr items
    /\ filter_vehicles items = inr kept
    /\ r = PDict (dict_set (if dict_has d (lit "vehicles") then d
                            else dict_set d (lit "vehicles") (PList []))
                    (lit "vehicles") (PList kept)).
Proof.
  unfold normalize, bind.
  destruct (has_vehicles result) as [|present] eqn:Ep; [discriminate|].
  destruct result as [| | | | t | l | d]; simpl in Ep; try discriminate.
  - injection Ep as <-. destruct (contains t (lit "vehicles")); simpl; discriminate.
  - injection Ep as <-.
    destruct (existsb _ l); simpl; discriminate.
  - injection Ep as <-. unfold dict_has.
    destruct (dict_get d (lit "vehicles")) as [vs|] eqn:Eg.
    + cbn [set_item get_vehicles]. rewrite Eg.
      destruct (iterate vs) as [|items] eqn:Ei; [discriminate|].
      destruct (filter_vehicles items) as [|kept] eqn:Ef; [discriminate|].
      intro H. injection H as <-.
      exists d, vs, items, kept.
      split; [reflexivity|]. split; [left; exact Eg|].
      split; [exact Ei|]. split; [exact Ef|].
      unfold dict_has; rewrite ?Eg; reflexivity.
    + cbn [set_item get_vehicles]. rewrite dict_get_set_same.
      cbn [iterate filter_vehicles].
      intro H. injection H as <-.
      exists d, (PList []), [], [].
      split; [reflexivity|]. split; [right; split; [exact Eg|reflexivity]|].
      split; [reflexivity|]. split; [reflexivity|].
      unfold dict_has; rewrite ?Eg; reflexivity.
Qed.

Lemma normalize_vehicles result r :
  normalize result = inr r ->
  exists d kept, r = PDict d /\ dict_get d (lit "vehicles") = Some (PList kept)
    /\ forall v, In v kept ->
         exists c, get_confidence v = inr c /\ ge_threshold c = inr true.
Proof.
  intro H. destruct (normalize_returns _ _ H) as (d & vs & items & kept & _ & _ & _ & Hf & ->).
  eexists _, kept. split; [reflexivity|]. split; [apply dict_get_set_same|].
  intros v Hv. apply (filter_vehicles_In _ _ Hf v Hv).
Qed.

(** What [normalize] raises is a [TypeError] or an [AttributeError] with a
    message. *)
Lemma normalize_raises result e :
  normalize result = inl e ->
  is_RuntimeError e = false /\ is_JSONDecodeError e = false /\ str_exn e <> [].
Proof.
  assert (forall l e, filter_vehicles l = inl e ->
            is_RuntimeError e = false /\ is_JSONDecodeError e = false /\ str_exn e <> []) as Hf.
  { induction l as [|x l IH]; simpl; intros e0 H0; [discriminate|].
    unfold bind in H0.
    destruct (get_confidence x) as [e1|c] eqn:Ec.
    - injection H0 as <-. destruct x; simpl in Ec; try discriminate;
        try (injection Ec as <-; repeat split; discriminate).
      destruct (dict_get d (lit "confidence")); discriminate.
    - destruct (ge_threshold c) as [e1|keep] eqn:Eg.
      + injection H0 as <-. destruct c; simpl in Eg; try discriminate;
          injection Eg as <-; repeat split; discriminate.
      + destruct (filter_vehicles l) as [e1|filtered]; [|discriminate].
        injection H0 as <-. apply IH. reflexivity. }
  unfold normalize, bind.
  destruct (has_vehicles result) as [e1|present] eqn:Ep.
  { intro H. injection H as <-.
    destruct result; simpl in Ep; try discriminate;
      injection Ep as <-; repeat split; discriminate. }
  destruct result as [| | | | t | l | d]; simpl in Ep; try discriminate.
  - destruct present; simpl; intro H; injection H as <-; repeat split; discriminate.
  - destruct present; simpl; intro H; injection H as <-; repeat split; discriminate.
  - injection Ep as <-. unfold dict_has.
    destruct (dict_get d (lit "vehicles")) as [vs|] eqn:Eg.
    + cbn [set_item get_vehicles]. rewrite Eg.
      destruct (iterate vs) as [e1|items] eqn:Ei.
      { intro H. injection H as <-.
        destruct vs; simpl in Ei; try discriminate;
          injection Ei as <-; repeat split; discriminate. }
      destruct (filter_vehicles items) as [e1|kept] eqn:Ef; [|discriminate].
      intro H. injection H as <-. apply (Hf _ _ Ef).
    + cbn [set_item get_vehicles]. rewrite dict_get_set_same.
      cbn [iterate filter_vehicles]. discriminate.
Qed.

Lemma float_ge_threshold c :
  float_ge c CONFIDENCE_THRESHOLD = true <-> at_least_threshold (PFloat c).
Proof.
  destruct (ge_threshold_number (PFloat c) eq_refl) as (b & Hb & Hiff).
  simpl in Hb. injection Hb as <-. exact Hiff.
Qed.

Lemma salvage_loop_In ms : forall acc r,
  In r (salvage_loop ms acc) <->
  In r acc \/ exists plate group2 c,
    In (plate, group2) ms /\ float_of_text group2 = inr c
    /\ at_least_threshold (PFloat c) /\ r = salvaged_record plate c.
Proof.
  induction ms as [|[plate g2] ms IH]; intros acc r; cbn [salvage_loop In].
  - split; [auto|]. intros [H|(p & g & c & [] & _)]. exact H.
  - destruct (float_of_text g2) as [e|c] eqn:Ef.
    + rewrite IH. split.
      * intros [H|(p & g & c & Hin & H)]; [auto|]. right. exists p, g, c. tauto.
      * intros [H|(p & g & c & [Heq|Hin] & Hf & H)]; [auto| |].
        -- injection Heq as <- <-. congruence.
        -- right. exists p, g, c. tauto.
    + destruct (float_ge c CONFIDENCE_THRESHOLD) eqn:Eg.
      * rewrite IH, in_app_iff. cbn [In]. split.
        -- intros [[H|[<-|[]]]|(p & g & c' & Hin & H)].
           ++ auto.
           ++ right. exists plate, g2, c. rewrite <- float_ge_threshold. tauto.
           ++ right. exists p, g, c'. tauto.
        -- intros [H|(p & g & c' & [Heq|Hin] & Hf & Hat & ->)].
           ++ auto.
           ++ injection Heq as <- <-. rewrite Ef in Hf. injection Hf as <-. auto.
           ++ right. exists p, g, c'. tauto.
      * rewrite IH. split.
        -- intros [H|(p & g & c' & Hin & H)]; [auto|]. right. exists p, g, c'. tauto.
        -- intros [H|(p & g & c' & [Heq|Hin] & Hf & Hat & ->)]; [auto| |].
           ++ injection Heq as <- <-. rewrite Ef in Hf. injection Hf as <-.
              apply float_ge_threshold in Hat. congruence.
           ++ right. exists p, g, c'. tauto.
Qed.

Lemma vehicles_of_salvage e rt :
  vehicles_of (salvage e rt) = salvage_loop (finditer rt) [].
Proof.
  unfold salvage. destruct (salvage_loop (finditer rt) []); reflexivity.
Qed.

Lemma interpret_vehicles lim text result :
  interpret lim text = inr result ->
  forall v, In v (vehicles_of result) ->
    exists c, get_confidence v = inr c /\ ge_threshold c = inr true.
Proof.
  intros H v Hv.
  destruct (interpret_paths lim text) as [(res & Hd)|[(e1 & Hu)|(e & Hb & _)]].
  - rewrite (interpret_decoded _ _ _ Hd) in H.
    destruct (normalize_vehicles _ _ H) as (d & kept & -> & Hg & Hk).
    apply Hk. simpl in Hv. rewrite Hg in Hv. exact Hv.
  - rewrite (interpret_undecodable _ _ _ Hu) in H.
    injection H as <-. rewrite vehicles_of_salvage in Hv.
    apply salvage_loop_In in Hv. destruct Hv as [[]|(p & g & c & _ & _ & Hat & ->)].
    exists (PFloat c). split; [reflexivity|]. simpl. f_equal.
    apply float_ge_threshold. exact Hat.
  - rewrite (interpret_beyond_limits _ _ _ Hb) in H. discriminate.
Qed.

Lemma outer_handlers_vehicles e bound result :
  outer_handlers e bound = inr result -> vehicles_of result = [].
Proof.
  unfold outer_handlers.
  repeat match goal with
  | |- context [if ?x then _ else _] => destruct x
  end; intro H; try discriminate; injection H as <-; reflexivity.
Qed.

Lemma analyze_vehicles w img result :
  analyze_image_with_gemini w img = inr result ->
  forall v, In v (vehicles_of result) ->
    exists c, get_confidence v = inr c /\ ge_threshold c = inr true.
Proof.
  unfold analyze_image_with_gemini. intros H v Hv.
  destruct (get_gemini_model w) as [e|_].
  { rewrite (outer_handlers_vehicles _ _ _ H) in Hv. destruct Hv. }
  destruct (generate_content w img) as [e|text].
  { rewrite (outer_handlers_vehicles _ _ _ H) in Hv. destruct Hv. }
  destruct (interpret (limits w) text) as [e|res] eqn:Ei.
  { rewrite (outer_handlers_vehicles _ _ _ H) in Hv. destruct Hv. }
  injection H as <-. exact (interpret_vehicles _ _ _ Ei v Hv).
Qed.

(** With a model and a reply from it, what the interpreter returns for the
    reply is what [analyze_image_with_gemini] returns. *)
Lemma analyze_reply w image text result :
  get_gemini_model w = inr tt ->
  generate_content w image = inr text ->
  interpret (limits w) text = inr result ->
  analyze_image_with_gemini w image = inr result.
Proof.
  unfold analyze_image_with_gemini. intros -> -> ->. reflexivity.
Qed.

(** A result of [analyze_image_with_gemini] that lists a vehicle is the
    interpreter's result for the model's reply. *)
Lemma analyze_of_reply w image text result :
  generate_content w image = inr text ->
  analyze_image_with_gemini w image = inr result ->
  vehicles_of result <> [] ->
  interpret (limits w) text = inr result.
Proof.
  unfold analyze_image_with_gemini. intros Hg H Hv.
  destruct (get_gemini_model w).
  { apply outer_handlers_vehicles in H. contradiction. }
  rewrite Hg in H. destruct (interpret (limits w) text) as [e|res].
  - apply outer_handlers_vehicles in H. contradiction.
  - exact H.
Qed.

(** C10.  A record without a confidence field is given the confidence 0.0,
    fails the test against the threshold, and so is in no list the filter
    returns and in no vehicle list that [analyze_image_with_gemini] returns,
    whatever its other fields. *)
Theorem missing_confidence_dropped (d : dict) :
  dict_get d (lit "confidence") = None ->
  get_confidence (PDict d) = inr (PFloat (FFin 0))
  /\ ge_threshold (PFloat (FFin 0)) = inr false
  /\ (forall l kept, filter_vehicles l = inr kept -> ~ In (PDict d) kept)
  /\ (forall w img result,
        analyze_image_with_gemini w img = inr result ->
        ~ In (PDict d) (vehicles_of result)).
Proof.
  intro Hd.
  assert (get_confidence (PDict d) = inr (PFloat (FFin 0))) as Hg.
  { simpl. rewrite Hd. reflexivity. }
  assert (forall c, get_confidence (PDict d) = inr c -> ge_threshold c <> inr true) as Hno.
  { intros c Hc. rewrite Hg in Hc. injection Hc as <-.
    rewrite ge_threshold_default. discriminate. }
  split; [exact Hg|]. split; [exact ge_threshold_default|]. split.
  - intros l kept Hf Hin.
    destruct (filter_vehicles_In _ _ Hf _ Hin) as (_ & c & Hc & Hge).
    exact (Hno c Hc Hge).
  - intros w img result Ha Hin.
    destruct (analyze_vehicles _ _ _ Ha _ Hin) as (c & Hc & Hge).
    exact (Hno c Hc Hge).
Qed.

(** ** The plate-visibility flag *)

Lemma salvaged_plate_visible plate c :
  exists pv,
    field (salvaged_record plate c) (lit "plateNumber") = Some (PStr plate)
    /\ field (salvaged_record plate c) (lit "plateVisible") = Some (PBool pv)
    /\ (upper plate = lit "NONE" -> pv = false)
    /\ (upper plate <> lit "NONE" -> upper plate <> lit "BLUR" -> pv = true).
Proof.
  eexists. split; [reflexivity|]. split; [reflexivity|]. cbn [existsb]. split.
  - intros ->. reflexivity.
  - intros H1 H2. rewrite (str_eqb_neq _ _ H1), (str_eqb_neq _ _ H2). reflexivity.
Qed.

Lemma normalize_passes_records decoded result r :
  normalize decoded = inr result ->
  In r (vehicles_of result) -> In r (vehicles_of decoded).
Proof.
  intros H Hr.
  destruct (normalize_returns _ _ H) as (d & vs & items & kept & -> & Hvs & Hi & Hf & ->).
  cbn [vehicles_of] in Hr. rewrite dict_get_set_same in Hr.
  destruct (filter_vehicles_In _ _ Hf _ Hr) as (Hin & c & Hc & _).
  cbn [vehicles_of]. destruct Hvs as [Hvs|[Hvs ->]].
  - rewrite Hvs. destruct vs; simpl in Hi; try discriminate; injection Hi as <-.
    + apply in_map_iff in Hin. destruct Hin as (x & <- & _). discriminate.
    + exact Hin.
    + apply in_map_iff in Hin. destruct Hin as (x & <- & _). discriminate.
  - simpl in Hi. injection Hi as <-. destruct Hin.
Qed.

(** C1, as the code has it.  A record of the vehicle list that
    [analyze_image_with_gemini] returns comes from a reply that was decoded
    (strictly or after repair) or from one that neither attempt parsed (the
    regex-salvage path).  On the salvage path the record has [plateVisible]
    false if its [plateNumber] is "NONE" in any letter case, and true if its
    [plateNumber] is, in any letter case, neither "NONE" nor "BLUR"; when the
    reply was decoded, the record is one of the decoded reply's own records,
    returned as it was decoded. *)
Theorem plate_visible_by_path
    (w : World) (image : Image) (text : str) (result r : pyval) :
  generate_content w image = inr text ->
  analyze_image_with_gemini w image = inr result ->
  In r (vehicles_of result) ->
  ((exists decoded, decoded_reply (limits w) text decoded)
   \/ (exists parse_error, undecodable (limits w) text parse_error))
  /\ (forall parse_error, undecodable (limits w) text parse_error ->
     exists plate pv,
       field r (lit "plateNumber") = Some (PStr plate)
       /\ field r (lit "plateVisible") = Some (PBool pv)
       /\ (upper plate = lit "NONE" -> pv = false)
       /\ (upper plate <> lit "NONE" -> upper plate <> lit "BLUR" -> pv = true))
  /\ (forall decoded, decoded_reply (limits w) text decoded ->
        In r (vehicles_of decoded)).
Proof.
  intros Hg H Hr. apply analyze_of_reply with (text := text) in H; [|exact Hg|].
  2:{ intro K. rewrite K in Hr. destruct Hr. }
  split; [|split].
  - destruct (interpret_paths (limits w) text) as [Hd|[Hu|(e & Hb & _)]]; auto.
    rewrite (interpret_beyond_limits _ _ _ Hb) in H. discriminate.
  - intros e1 Hu. rewrite (interpret_undecodable _ _ _ Hu) in H. injection H as <-.
    rewrite vehicles_of_salvage in Hr. apply salvage_loop_In in Hr.
    destruct Hr as [[]|(plate & g2 & c & _ & _ & _ & ->)].
    destruct (salvaged_plate_visible plate c) as (pv & K).
    exists plate, pv. exact K.
  - intros decoded Hd. rewrite (interpret_decoded _ _ _ Hd) in H.
    exact (normalize_passes_records _ _ _ H Hr).
Qed.

(** The claim C1 fails on a decoded reply: the record comes back with
    [plateNumber] "NONE" and [plateVisible] true. *)
Lemma plate_visible_counterexample :
  analyze_image_with_gemini
    (sample_world (lit "key")
       (inr (dq "{'vehicles':[{'plateNumber':'NONE','confidence':0.9,'plateVisible':true}]}"))
       (inr (ImageOf [])) None)
    (ImageOf [])
    = inr (PDict [ (lit "vehicles", PList [none_but_visible]) ])
  /\ ~ plate_visible_invariant none_but_visible.
Proof.
  split; [vm_compute; reflexivity|].
  intros (plate & pv & H1 & H2 & H3).
  vm_compute in H1. vm_compute in H2.
  injection H1 as <-. injection H2 as <-.
  destruct H3 as [H3 _]. apply H3; reflexivity.
Qed.

(** On the salvage path a "BLUR" plate gets [plateVisible] false, against the
    instruction the service itself sends to the model (line 203 of the
    prompt). *)
Example salvage_blur_not_visible :
  interpret default_limits (dq "{'vehicles':[{'plateNumber':'BLUR','confidence':0.9,'bbox':[0,0,")
    = inr (PDict
             [ (lit "vehicles",
                 PList [ PDict [ (lit "plateNumber", PStr (lit "BLUR"));
                                 (lit "confidence", PFloat (float_of_decimal false 9 (-1)));
                                 (lit "bbox", zero_bbox);
                                 (lit "class_name", PStr (lit "car"));
                                 (lit "plateVisible", PBool false) ] ]);
               (lit "error",
                 PStr (lit "Partial parse: Expecting value: line 1 column 65 (char 64)")) ]).
Proof. vm_compute. reflexivity. Qed.

(** ** The envelope of [process_image] *)

Lemma load_image_raises w image_input is_base64 e :
  load_image w image_input is_base64 = inl e ->
  exists msg, e = ValueError msg /\ msg <> [].
Proof.
  unfold load_image, load_image_from_base64, load_image_from_file.
  destruct is_base64.
  - match goal with |- context [match ?a with inl _ => _ | inr _ => _ end] =>
      destruct a end; intro H; [|discriminate].
    injection H as <-. eexists. split; [reflexivity|discriminate].
  - destruct (open_image w image_input); intro H; [|discriminate].
    injection H as <-. eexists. split; [reflexivity|discriminate].
Qed.

Lemma JSONDecodeError_speaks msg doc pos : str_exn (JSONDecodeError msg doc pos) <> [].
Proof. simpl. destruct msg; discriminate. Qed.

(** The outer handlers either build an error result, or (only for a
    [JSONDecodeError] raised before [response_text] was bound) raise. *)
Lemma outer_handlers_cases e bound :
  (exists msg, outer_handlers e bound = inr (error_result msg)
               /\ (str_exn e <> [] -> msg <> []))
  \/ (exists msg, outer_handlers e bound = inl (OtherError msg) /\ msg <> []
                  /\ bound = false).
Proof.
  unfold outer_handlers.
  destruct (is_RuntimeError e).
  { left. eexists. split; [reflexivity|auto]. }
  destruct (is_JSONDecodeError e).
  { destruct bound.
    - left. eexists. split; [reflexivity|]. intros _. discriminate.
    - right. eexists. split; [reflexivity|]. split; [discriminate|reflexivity]. }
  destruct (contains (lower (str_exn e)) (lit "quota") || contains (str_exn e) (lit "429")).
  - left. eexists. split; [reflexivity|]. intros _. discriminate.
  - left. eexists. split; [reflexivity|auto].
Qed.

(** The interpreter gives a dictionary with a vehicle list, or raises an
    exception that has a message and is not a decode error. *)
Lemma interpret_cases lim text :
  (exists d vs, interpret lim text = inr (PDict d)
                /\ dict_get d (lit "vehicles") = Some (PList vs))
  \/ (exists e, interpret lim text = inl e
                /\ is_JSONDecodeError e = false /\ str_exn e <> []).
Proof.
  destruct (interpret_paths lim text) as [(res & Hd)|[(e1 & Hu)|(e & Hb & Hr)]].
  - rewrite (interpret_decoded _ _ _ Hd).
    destruct (normalize res) as [e|r] eqn:E.
    + right. exists e. split; [reflexivity|].
      exact (proj2 (normalize_raises _ _ E)).
    + left. destruct (normalize_vehicles _ _ E) as (d & kept & -> & Hg & _).
      exists d, kept. split; [reflexivity|exact Hg].
  - rewrite (interpret_undecodable _ _ _ Hu). left. unfold salvage.
    destruct (salvage_loop (finditer (clean text)) []); eexists _, _;
      (split; reflexivity).
  - rewrite (interpret_beyond_limits _ _ _ Hb). right. exists e.
    split; [reflexivity|]. split; [|exact (decoder_raises_message _ Hr)].
    destruct Hb as [(_ & Hc)|(e1 & _ & _ & _ & Hv)]; [exact Hc|].
    destruct (is_JSONDecodeError e) eqn:C; [|reflexivity].
    rewrite (is_JSONDecodeError_ValueError _ C) in Hv. discriminate.
Qed.

(** What [analyze_image_with_gemini] gives: a dictionary with a vehicle
    list, or a raise out of the handler for [JSONDecodeError]. *)
Lemma analyze_cases w img :
  (exists d vs, analyze_image_with_gemini w img = inr (PDict d)
                /\ dict_get d (lit "vehicles") = Some (PList vs))
  \/ (exists msg, analyze_image_with_gemini w img = inl (OtherError msg)
                  /\ msg <> []).
Proof.
  assert (forall e bound,
    (exists d vs, outer_handlers e bound = inr (PDict d)
                  /\ dict_get d (lit "vehicles") = Some (PList vs))
    \/ (exists msg, outer_handlers e bound = inl (OtherError msg) /\ msg <> [])) as Ho.
  { intros e bound.
    destruct (outer_handlers_cases e bound) as [(msg & -> & _)|(msg & -> & Hm & _)].
    - left. eexists _, _. split; reflexivity.
    - right. exists msg. auto. }
  unfold analyze_image_with_gemini.
  destruct (get_gemini_model w) as [e|_]; [apply Ho|].
  destruct (generate_content w img) as [e|text]; [apply Ho|].
  destruct (interpret_cases (limits w) text) as [(d & vs & -> & Hg)|(e & -> & _)];
    [|apply Ho].
  left. exists d, vs. auto.
Qed.

Lemma get_gemini_model_raises w e :
  get_gemini_model w = inl e -> is_RuntimeError e = true /\ str_exn e <> [].
Proof.
  unfold get_gemini_model. destruct (GEMINI_API_KEY w).
  - intro H; injection H as <-. split; [reflexivity|discriminate].
  - destruct (configure w); intro H; [|discriminate].
    injection H as <-. split; [reflexivity|discriminate].
Qed.

(** In each failure mode past the image loader the analysis gives an error
    result, or raises out of its handler. *)
Lemma analyze_failure w img :
  ((exists e, get_gemini_model w = inl e)
   \/ (exists e, generate_content w img = inl e)
   \/ (exists text parse_error,
         generate_content w img = inr text
         /\ undecodable (limits w) text parse_error
         /\ salvage_loop (finditer (clean text)) [] = [])
   \/ (exists text e,
         generate_content w img = inr text /\ beyond_limits (limits w) text e)) ->
  (exists msg, analyze_image_with_gemini w img = inr (error_result msg)
               /\ (upstream_speaks w -> msg <> []))
  \/ (exists msg, analyze_image_with_gemini w img = inl (OtherError msg)
                  /\ msg <> []).
Proof.
  assert (forall e bound, str_exn e <> [] \/ (upstream_speaks w -> str_exn e <> []) ->
    (exists msg, outer_handlers e bound = inr (error_result msg)
                 /\ (upstream_speaks w -> msg <> []))
    \/ (exists msg, outer_handlers e bound = inl (OtherError msg) /\ msg <> [])) as Ho.
  { intros e bound He.
    destruct (outer_handlers_cases e bound) as [(msg & -> & Hm)|(msg & -> & Hm & _)].
    - left. exists msg. split; [reflexivity|]. intro Hs. apply Hm.
      destruct He as [He|He]; auto.
    - right. exists msg. auto. }
  unfold analyze_image_with_gemini. intro Hfail.
  destruct (get_gemini_model w) as [e|u] eqn:Em.
  { apply Ho. left. exact (proj2 (get_gemini_model_raises _ _ Em)). }
  destruct (generate_content w img) as [e|text] eqn:Eg.
  { apply Ho. right. intro Hs. exact (Hs img e Eg). }
  destruct Hfail as [(e & He)|[(e & He)|[(text' & pe & Ht & Hu & Hs)
                                          |(text' & e & Ht & Hb)]]];
    try discriminate.
  - injection Ht as <-. rewrite (interpret_undecodable _ _ _ Hu).
    unfold salvage. rewrite Hs.
    left. eexists. split; [reflexivity|]. intros _. discriminate.
  - injection Ht as <-. rewrite (interpret_beyond_limits _ _ _ Hb).
    apply Ho. left.
    exact (decoder_raises_message _ (beyond_limits_raises _ _ _ Hb)).
Qed.

Lemma timestamp_not_vehicles : lit "timestamp" <> lit "vehicles".
Proof. intro H. vm_compute in H. discriminate. Qed.

(** C2, as the code has it.  [process_image] never raises: for every input
    it returns a dictionary with a vehicle list and a timestamp.  In each
    failure mode (missing credential, image that cannot be loaded, upstream
    error, reply that neither decode attempt parses and from which nothing is
    salvaged, reply beyond the limits of the interpreter) the vehicle list is
    empty and there is an error string, which is not empty provided the
    exceptions of the upstream call have a message. *)
Theorem process_image_envelope (w : World) (image_input : str) (is_base64 : bool) :
  exists d vehicles timestamp,
    process_image w image_input is_base64 = inr (PDict d)
    /\ dict_get d (lit "vehicles") = Some (PList vehicles)
    /\ dict_get d (lit "timestamp") = Some (PStr timestamp)
    /\ (failure w image_input is_base64 ->
        vehicles = []
        /\ exists msg, dict_get d (lit "error") = Some (PStr msg)
                       /\ (upstream_speaks w -> msg <> [])).
Proof.
  unfold process_image. fold (load_image w image_input is_base64).
  destruct (GEMINI_API_KEY w) as [|k key] eqn:Ek.
  { eexists _, _, _. split; [reflexivity|]. split; [reflexivity|].
    split; [reflexivity|]. intros _. split; [reflexivity|].
    eexists. split; [reflexivity|]. intros _. discriminate. }
  destruct (load_image w image_input is_base64) as [e|img] eqn:El.
  { destruct (load_image_raises _ _ _ _ El) as (msg & -> & Hm).
    cbn [bind is_ValueError].
    eexists _, _, _. split; [reflexivity|]. split; [reflexivity|].
    split; [reflexivity|]. intros _. split; [reflexivity|].
    eexists. split; [reflexivity|]. intros _. discriminate. }
  cbn [bind].
  destruct (analyze_cases w img) as [(d & vs & Ha & Hg)|(msg & Ha & Hm)].
  - rewrite Ha. cbn [set_item].
    exists (dict_set d (lit "timestamp") (PStr (utcnow_z w))), vs, (utcnow_z w).
    split; [reflexivity|]. split.
    { rewrite dict_get_set_other; [exact Hg|exact timestamp_not_vehicles]. }
    split; [apply dict_get_set_same|].
    intro Hfail.
    assert ((exists msg, analyze_image_with_gemini w img = inr (error_result msg)
               /\ (upstream_speaks w -> msg <> []))
            \/ (exists msg, analyze_image_with_gemini w img = inl (OtherError msg)
                  /\ msg <> [])) as Hf.
    { apply analyze_failure.
      destruct Hfail as [Hc|e He|img' e Hl Hu|img' text pe Hl Ht Hu Hs
                        |img' text e Hl Ht Hb].
      - congruence.
      - congruence.
      - rewrite El in Hl. injection Hl as <-.
        destruct Hu as [Hu|Hu]; [left|right; left]; exists e; exact Hu.
      - rewrite El in Hl. injection Hl as <-.
        right; right; left. exists text, pe. auto.
      - rewrite El in Hl. injection Hl as <-.
        right; right; right. exists text, e. auto. }
    destruct Hf as [(msg & Ha' & Hm)|(msg & Ha' & _)]; [|congruence].
    rewrite Ha in Ha'. injection Ha' as ->.
    injection Hg as <-. split; [reflexivity|].
    exists msg. split; [reflexivity|exact Hm].
  - rewrite Ha. cbn [is_ValueError str_exn].
    eexists _, _, _. split; [reflexivity|]. split; [reflexivity|].
    split; [reflexivity|]. intros _. split; [reflexivity|].
    eexists. split; [reflexivity|]. intros _. exact Hm.
Qed.

(** The claim C2 fails when the upstream call raises an exception without a
    message: the run is a failure, and the error string is empty. *)
Lemma process_image_counterexample :
  failure (sample_world (lit "key") (inl (OtherError [])) (inl (OtherError [])) None)
    (lit "aGk=") true
  /\ process_image (sample_world (lit "key") (inl (OtherError [])) (inl (OtherError [])) None)
       (lit "aGk=") true
     = inr (envelope [] [] (lit "2025-03-09T14:05:07.001500Z")).
Proof.
  split.
  - apply (upstream_error _ _ _ (ImageOf (lit "aGk=")) (OtherError [])).
    + reflexivity.
    + right. reflexivity.
  - vm_compute. reflexivity.
Qed.

(** ** The timestamp *)

Lemma endswith_app s p q :
  List.length p = List.length q -> endswith (s ++ p) q = str_eqb p q.
Proof.
  unfold endswith. rewrite rev_app_distr. intro Hl.
  assert (forall a b t, List.length a = List.length b ->
            startswith (a ++ t) b = str_eqb a b) as K.
  { induction a as [|x a IH]; intros [|y b] t L; simpl in *; try discriminate.
    - reflexivity.
    - injection L as L. rewrite (IH b t L). rewrite N.eqb_sym. reflexivity. }
  rewrite K by (rewrite !length_rev; exact Hl).
  destruct (str_eqb p q) eqn:E.
  - apply str_eqb_eq in E. subst. apply str_eqb_refl.
  - apply str_eqb_neq. intro H. apply (f_equal (@rev _)) in H.
    rewrite !rev_involutive in H. subst. rewrite str_eqb_refl in E. discriminate.
Qed.

Lemma utcnow_z_suffix w : endswith (utcnow_z w) (lit "Z") = true.
Proof. unfold utcnow_z. rewrite endswith_app; reflexivity. Qed.

Lemma now_utc_isoformat_suffix w :
  endswith (now_utc_isoformat w) (lit "Z") = false
  /\ endswith (now_utc_isoformat w) (lit "+00:00") = true.
Proof.
  unfold now_utc_isoformat. split.
  - unfold endswith. rewrite rev_app_distr. reflexivity.
  - rewrite endswith_app; reflexivity.
Qed.

(** C4 at the failing input.  Without a credential the envelope carries the
    clock reading printed by [datetime.now(timezone.utc).isoformat()]: it ends
    with the offset "+00:00" and has no "Z" suffix. *)
Theorem missing_credential_timestamp (w : World) (image_input : str) (is_base64 : bool) :
  GEMINI_API_KEY w = [] ->
  process_image w image_input is_base64
    = inr (envelope [] (lit "GEMINI_API_KEY is not set in environment")
             (isoformat (clock w) ++ lit "+00:00"))
  /\ endswith (isoformat (clock w) ++ lit "+00:00") (lit "Z") = false.
Proof.
  intro Hk. split.
  - unfold process_image. rewrite Hk. reflexivity.
  - exact (proj1 (now_utc_isoformat_suffix w)).
Qed.

(** On every other path the timestamp is the clock reading followed by "Z". *)
Lemma credential_timestamp (w : World) (image_input : str) (is_base64 : bool) :
  GEMINI_API_KEY w <> [] ->
  exists d, process_image w image_input is_base64 = inr (PDict d)
            /\ dict_get d (lit "timestamp") = Some (PStr (isoformat (clock w) ++ lit "Z")).
Proof.
  intro Hk. unfold process_image. fold (load_image w image_input is_base64).
  destruct (GEMINI_API_KEY w) as [|k key]; [congruence|].
  destruct (load_image w image_input is_base64) as [e|img] eqn:El.
  { destruct (load_image_raises _ _ _ _ El) as (msg & -> & Hm).
    eexists. split; reflexivity. }
  cbn [bind].
  destruct (analyze_cases w img) as [(d & vs & -> & Hg)|(msg & -> & Hm)].
  - cbn [set_item]. eexists. split; [reflexivity|]. apply dict_get_set_same.
  - eexists. split; reflexivity.
Qed.

(** ** The command line *)

Lemma process_image_total w image_input is_base64 :
  exists result, process_image w image_input is_base64 = inr result.
Proof.
  unfold process_image.
  destruct (GEMINI_API_KEY w); [eexists; reflexivity|].
  match goal with
  | |- context [match ?body with inr _ => _ | inl _ => _ end] =>
      destruct body as [e|result]
  end.
  - destruct (is_ValueError e); eexists; reflexivity.
  - eexists; reflexivity.
Qed.

Lemma exit_status_emit w args result :
  exit_status (emit w args result) <> 0%Z <-> cannot_emit w args result.
Proof.
  unfold emit, cannot_emit.
  destruct (json_dumps (limits w) result) as [e|].
  { simpl. split; [|discriminate]. intros _. left. exists e. reflexivity. }
  destruct (truthy (output args)).
  - destruct (write_text w (arg (output args))) as [e|].
    { simpl. split; [|discriminate]. intros _. right; left.
      split; [reflexivity|]. exists e. reflexivity. }
    destruct (print_stdout w) as [e|]; simpl; split.
    + intros _. right; right. exists e. reflexivity.
    + discriminate.
    + congruence.
    + intros [(e & H)|[(_ & e & H)|(e & H)]]; discriminate.
  - destruct (print_stdout w) as [e|]; simpl; split.
    + intros _. right; right. exists e. reflexivity.
    + discriminate.
    + congruence.
    + intros [(e & H)|[(H & _)|(e & H)]]; discriminate.
Qed.

Lemma emit_outcome w args result :
  exit_status (emit w args result) = 0%Z ->
  emit w args result = Printed result
  \/ emit w args result = Saved (arg (output args)) result.
Proof.
  unfold emit.
  destruct (json_dumps (limits w) result); [discriminate|].
  destruct (truthy (output args)).
  - destruct (write_text w (arg (output args))); [discriminate|].
    destruct (print_stdout w); [discriminate|]. right. reflexivity.
  - destruct (print_stdout w); [discriminate|]. left. reflexivity.
Qed.

(** C9, as the code has it.  [main] exits with a non-zero status exactly
    when none of [--image], [--base64], [--base64-file] has a non-empty
    value, or more than one has, or the file of [--base64-file] cannot be
    read, or the envelope that [process_image] returned for the input given
    cannot be written out; in every other case it exits with status zero
    after emitting that envelope. *)
Theorem main_exit_status (w : World) (args : Args) :
  (exit_status (main w args) <> 0%Z <->
     (truthy (image args) = false /\ truthy (base64 args) = false
      /\ truthy (base64_file args) = false)
     \/ 1 < Nat.b2n (truthy (image args)) + Nat.b2n (truthy (base64 args))
            + Nat.b2n (truthy (base64_file args))
     \/ (truthy (base64_file args) = true
         /\ exists e, read_text w (arg (base64_file args)) = inl e)
     \/ (exists image_input is_base64 result,
           given w args image_input is_base64
           /\ process_image w image_input is_base64 = inr result
           /\ cannot_emit w args result))
  /\ (exit_status (main w args) = 0%Z ->
      exists image_input is_base64 result,
        given w args image_input is_base64
        /\ process_image w image_input is_base64 = inr result
        /\ (main w args = Printed result
            \/ main w args = Saved (arg (output args)) result)).
Proof.
  unfold main.
  destruct (truthy (image args)) eqn:Ei, (truthy (base64 args)) eqn:Eb,
    (truthy (base64_file args)) eqn:Ef; cbn [negb andb Nat.b2n Nat.add Nat.ltb Nat.leb].
  all: try (split; [split; [intros _; right; left; lia | intros _; discriminate]
                   | simpl; discriminate]).
  - (* --image *)
    destruct (process_image_total w (arg (image args)) false) as (result & Hp).
    rewrite Hp. split.
    + rewrite exit_status_emit. split.
      * intro H. do 3 right. exists (arg (image args)), false, result.
        split; [apply given_image; exact Ei|]. split; [exact Hp|exact H].
      * intros [(H & _)|[H|[(H & _)|(i & b & r & Hg & Hr & Hc)]]];
          try discriminate; [lia|].
        destruct Hg as [_|Hg|data Hg _]; congruence.
    + intro H0. exists (arg (image args)), false, result.
      split; [apply given_image; exact Ei|]. split; [exact Hp|].
      exact (emit_outcome _ _ _ H0).
  - (* --base64 *)
    destruct (process_image_total w (arg (base64 args)) true) as (result & Hp).
    rewrite Hp. split.
    + rewrite exit_status_emit. split.
      * intro H. do 3 right. exists (arg (base64 args)), true, result.
        split; [apply given_base64; exact Eb|]. split; [exact Hp|exact H].
      * intros [(_ & H & _)|[H|[(H & _)|(i & b & r & Hg & Hr & Hc)]]];
          try discriminate; [lia|].
        destruct Hg as [Hg|_|data Hg _]; congruence.
    + intro H0. exists (arg (base64 args)), true, result.
      split; [apply given_base64; exact Eb|]. split; [exact Hp|].
      exact (emit_outcome _ _ _ H0).
  - (* --base64-file *)
    destruct (read_text w (arg (base64_file args))) as [e|data] eqn:Er; cbn [bind].
    + split.
      * split; [|intros _; discriminate].
        intros _. right; right; left. split; [reflexivity|]. exists e; reflexivity.
      * simpl. discriminate.
    + destruct (process_image_total w (strip data) true) as (result & Hp).
      rewrite Hp. split.
      * rewrite exit_status_emit. split.
        -- intro H. do 3 right. exists (strip data), true, result.
           split; [apply (given_base64_file _ _ data); [exact Ef|exact Er]|].
           split; [exact Hp|exact H].
        -- intros [(_ & _ & H)|[H|[(_ & e & H)|(i & b & r & Hg & Hr & Hc)]]];
             try discriminate; [lia|].
           destruct Hg as [Hg|Hg|data' _ Hg]; congruence.
      * intro H0. exists (strip data), true, result.
        split; [apply (given_base64_file _ _ data); [exact Ef|exact Er]|].
        split; [exact Hp|]. exact (emit_outcome _ _ _ H0).
  - (* none *)
    split; [|simpl; discriminate].
    split; [intros _; left; auto | intros _; discriminate].
Qed.

(** The claim C9 fails for an image file that cannot be read: [--image] with
    such a path is a specified input file that cannot be read, and [main]
    exits with status zero, having printed an error-carrying envelope. *)
Lemma main_exit_counterexample :
  let w := sample_world (lit "key") (inr []) (inl (OtherError (lit "No such file"))) None in
  let args := {| image := Some (lit "missing.jpg"); base64 := None;
                 base64_file := None; output := None |} in
  open_image w (arg (image args)) = inl (OtherError (lit "No such file"))
  /\ main w args
     = Printed (envelope []
                  (lit "Failed to load image: Failed to load image from file: No such file")
                  (lit "2025-03-09T14:05:07.001500Z"))
  /\ exit_status (main w args) = 0%Z.
Proof. vm_compute. repeat split. Qed.

(** ** The embedded object *)

Lemma has_char_In s c : has_char s c = true <-> In c s.
Proof.
  unfold has_char. rewrite existsb_exists. split.
  - intros (x & Hx & E). apply N.eqb_eq in E. subst. exact Hx.
  - intro H. exists c. split; [exact H|apply N.eqb_refl].
Qed.

Lemma find_from_first c pre rest i :
  ~ In c pre -> find_from c (pre ++ c :: rest) i = (i + Z.of_nat (List.length pre))%Z.
Proof.
  revert i. induction pre as [|x pre IH]; intros i Hn; simpl.
  - rewrite N.eqb_refl. lia.
  - destruct (x =? c)%N eqn:E.
    + apply N.eqb_eq in E. subst. exfalso. apply Hn. left. reflexivity.
    + rewrite IH; [lia|]. intro H. apply Hn. right. exact H.
Qed.

Lemma rfind_from_app c a b i last :
  rfind_from c (a ++ b) i last
  = rfind_from c b (i + Z.of_nat (List.length a))%Z (rfind_from c a i last).
Proof.
  revert i last. induction a as [|x a IH]; intros i last; simpl.
  - f_equal. lia.
  - rewrite IH. f_equal. lia.
Qed.

Lemma rfind_from_absent c s i last : ~ In c s -> rfind_from c s i last = last.
Proof.
  revert i last. induction s as [|x s IH]; intros i last Hn; simpl; [reflexivity|].
  destruct (x =? c)%N eqn:E.
  - apply N.eqb_eq in E. subst. exfalso. apply Hn. left. reflexivity.
  - apply IH. intro H. apply Hn. right. exact H.
Qed.

Lemma rfind_from_last c a post i last :
  ~ In c post ->
  rfind_from c (a ++ c :: post) i last = (i + Z.of_nat (List.length a))%Z.
Proof.
  intro Hn. rewrite rfind_from_app. simpl. rewrite N.eqb_refl.
  apply rfind_from_absent. exact Hn.
Qed.

Lemma slice_middle (pre mid post : str) :
  slice (pre ++ mid ++ post) (Z.of_nat (List.length pre))
    (Z.of_nat (List.length pre) + Z.of_nat (List.length mid))%Z = mid.
Proof.
  unfold slice. rewrite Nat2Z.id.
  replace (Z.to_nat (Z.of_nat (List.length pre) + Z.of_nat (List.length mid)
                     - Z.of_nat (List.length pre))) with (List.length mid) by lia.
  rewrite skipn_app, skipn_all, Nat.sub_diag. simpl.
  rewrite firstn_app, firstn_all, Nat.sub_diag. simpl. apply app_nil_r.
Qed.

(** A text with an opening brace before a closing brace: what is before the
    first opening brace, what is between it and the last closing brace, what
    is after. *)
Lemma extract_object_span (pre mid post : str) :
  ~ In LBRACE pre -> ~ In RBRACE post ->
  extract_object (pre ++ LBRACE :: mid ++ RBRACE :: post) = LBRACE :: mid ++ [RBRACE].
Proof.
  intros Hpre Hpost. unfold extract_object.
  set (t := pre ++ LBRACE :: mid ++ RBRACE :: post).
  assert (has_char t LBRACE = true) as H1.
  { apply has_char_In. subst t. apply in_or_app. right. left. reflexivity. }
  assert (has_char t RBRACE = true) as H2.
  { apply has_char_In. subst t. apply in_or_app. right. right.
    apply in_or_app. right. left. reflexivity. }
  rewrite H1, H2. cbn [andb].
  assert (find t LBRACE = Z.of_nat (List.length pre)) as Hf.
  { unfold find. subst t. rewrite find_from_first by exact Hpre. lia. }
  assert (rfind t RBRACE = Z.of_nat (List.length pre) + Z.of_nat (List.length mid) + 1)%Z as Hr.
  { unfold rfind. subst t.
    replace (pre ++ LBRACE :: mid ++ RBRACE :: post)
      with ((pre ++ LBRACE :: mid) ++ RBRACE :: post)
      by (rewrite <- app_assoc; reflexivity).
    rewrite rfind_from_last by exact Hpost.
    rewrite length_app. simpl. lia. }
  rewrite Hf, Hr.
  destruct (Z.ltb_spec (Z.of_nat (List.length pre))
              (Z.of_nat (List.length pre) + Z.of_nat (List.length mid) + 1 + 1)%Z); [|lia].
  subst t.
  replace (pre ++ LBRACE :: mid ++ RBRACE :: post)
    with (pre ++ (LBRACE :: mid ++ [RBRACE]) ++ post)
    by (simpl; rewrite <- app_assoc; reflexivity).
  replace (Z.of_nat (List.length pre) + Z.of_nat (List.length mid) + 1 + 1)%Z
    with (Z.of_nat (List.length pre) + Z.of_nat (List.length (LBRACE :: mid ++ [RBRACE])))%Z
    by (simpl; rewrite length_app; simpl; lia).
  apply slice_middle.
Qed.

(** C6, as the code has it.  When the cleaned text has its first opening
    brace at or before its last closing brace, it is replaced by the slice from
    the one to the other, both included; otherwise it is left as it is.  In
    particular a span that starts with an opening brace and ends with a closing
    brace, such as a JSON object, comes out unchanged when the prose before
    it has no opening brace and the prose after it has no closing brace. *)
Theorem extract_object_spec (t : str) :
  (has_char t LBRACE = true -> has_char t RBRACE = true ->
   (find t LBRACE <= rfind t RBRACE)%Z ->
   extract_object t = slice t (find t LBRACE) (rfind t RBRACE + 1)%Z)
  /\ (has_char t LBRACE = false \/ has_char t RBRACE = false
      \/ (rfind t RBRACE < find t LBRACE)%Z ->
      extract_object t = t)
  /\ (forall pre mid post,
        t = pre ++ (LBRACE :: mid ++ [RBRACE]) ++ post ->
        ~ In LBRACE pre -> ~ In RBRACE post ->
        extract_object t = LBRACE :: mid ++ [RBRACE]).
Proof.
  split; [|split].
  - intros H1 H2 Hle. unfold extract_object. rewrite H1, H2. cbn [andb].
    destruct (Z.ltb_spec (find t LBRACE) (rfind t RBRACE + 1)%Z); [reflexivity|lia].
  - intros H. unfold extract_object.
    destruct (has_char t LBRACE) eqn:H1; [|reflexivity].
    destruct (has_char t RBRACE) eqn:H2; [|reflexivity].
    destruct H as [H|[H|H]]; try discriminate. cbn [andb].
    destruct (Z.ltb_spec (find t LBRACE) (rfind t RBRACE + 1)%Z); [lia|reflexivity].
  - intros pre mid post -> Hpre Hpost.
    replace (pre ++ (LBRACE :: mid ++ [RBRACE]) ++ post)
      with (pre ++ LBRACE :: mid ++ RBRACE :: post)
      by (simpl; rewrite <- app_assoc; reflexivity).
    apply extract_object_span; assumption.
Qed.

(** The claim C6 fails in both its parts: a text with both braces that is
    not sliced, and a JSON object after prose with braces that does not come
    out as it went in. *)
Lemma extract_object_counterexample :
  (has_char (lit "}{") LBRACE = true /\ has_char (lit "}{") RBRACE = true
   /\ extract_object (lit "}{") = lit "}{"
   /\ slice (lit "}{") (find (lit "}{") LBRACE) (rfind (lit "}{") RBRACE + 1)%Z = [])
  /\ (json_loads default_limits (dq "{'vehicles':[]}")
        = inr (PDict [(lit "vehicles", PList [])])
      /\ extract_object (dq "Note {draft}: {'vehicles':[]}")
         = dq "{draft}: {'vehicles':[]}"
      /\ extract_object (dq "Note {draft}: {'vehicles':[]}")
         <> dq "{'vehicles':[]}").
Proof.
  split; [vm_compute; repeat split|].
  split; [vm_compute; reflexivity|]. split; [vm_compute; reflexivity|].
  intro H. vm_compute in H. discriminate.
Qed.

(** ** Code fences *)

Lemma lstrip_app_nonspace (a : str) c r :
  is_space c = false -> lstrip (a ++ c :: r) = lstrip a ++ c :: r.
Proof.
  intro Hc. induction a as [|x a IH]; simpl.
  - rewrite Hc. reflexivity.
  - destruct (is_space x); [exact IH|reflexivity].
Qed.

Lemma rstrip_app_nonspace (a : str) c r :
  is_space c = false -> rstrip (a ++ c :: r) = a ++ c :: rstrip r.
Proof.
  intro Hc. unfold rstrip. rewrite rev_app_distr. simpl. rewrite <- app_assoc. simpl.
  rewrite lstrip_app_nonspace by exact Hc.
  rewrite rev_app_distr. simpl. rewrite rev_involutive, <- app_assoc. reflexivity.
Qed.

Lemma In_lstrip x s : In x (lstrip s) -> In x s.
Proof.
  induction s as [|c s IH]; simpl; [auto|].
  destruct (is_space c); [auto|]. simpl. auto.
Qed.

Lemma In_rstrip x s : In x (rstrip s) -> In x s.
Proof.
  unfold rstrip. intro H. apply in_rev in H. apply In_lstrip in H.
  apply in_rev. exact H.
Qed.

Lemma In_strip x s : In x (strip s) -> In x s.
Proof. unfold strip. intro H. apply In_lstrip, In_rstrip. exact H. Qed.

Lemma lstrip_head s :
  lstrip s = [] \/ exists c r, lstrip s = c :: r /\ is_space c = false.
Proof.
  induction s as [|c s IH]; simpl; [left; reflexivity|].
  destruct (is_space c) eqn:E; [exact IH|]. right. exists c, s. auto.
Qed.

Lemma lstrip_fixed c r : is_space c = false -> lstrip (c :: r) = c :: r.
Proof. intro H. simpl. rewrite H. reflexivity. Qed.

Lemma rstrip_idem s : rstrip (rstrip s) = rstrip s.
Proof.
  unfold rstrip. rewrite rev_involutive. f_equal.
  destruct (lstrip_head (rev s)) as [->|(c & r & -> & Hc)]; [reflexivity|].
  apply lstrip_fixed. exact Hc.
Qed.

Lemma rstrip_cons_nonspace c r :
  is_space c = false -> rstrip (c :: r) = c :: rstrip r.
Proof. exact (rstrip_app_nonspace [] c r). Qed.

Lemma strip_idem s : strip (strip s) = strip s.
Proof.
  unfold strip.
  destruct (lstrip_head s) as [->|(c & r & -> & Hc)]; [reflexivity|].
  rewrite (rstrip_cons_nonspace c r Hc), (lstrip_fixed c _ Hc).
  rewrite (rstrip_cons_nonspace c _ Hc), rstrip_idem. reflexivity.
Qed.

Lemma BACKTICK_not_space : is_space BACKTICK = false.
Proof. reflexivity. Qed.

Lemma startswith_absent (s p : str) c :
  ~ In c s -> startswith s (c :: p) = false.
Proof.
  destruct s as [|x s]; simpl; intro H; [reflexivity|].
  destruct (x =? c)%N eqn:E; [|reflexivity].
  apply N.eqb_eq in E. subst. exfalso. apply H. left. reflexivity.
Qed.

Lemma endswith_absent (s p : str) c :
  ~ In c s -> endswith s (p ++ [c]) = false.
Proof.
  intro H. unfold endswith. rewrite rev_app_distr. simpl.
  apply startswith_absent. intro K. apply H. apply in_rev. exact K.
Qed.

(** A text without backtick goes through the additional cleanup and through
    the whole fence removal untouched, save for the final [strip]. *)
Lemma additional_cleanup_plain s : ~ In BACKTICK s -> additional_cleanup s = strip s.
Proof.
  intro H. unfold additional_cleanup.
  change (lit "```") with (BACKTICK :: [BACKTICK; BACKTICK]).
  change (lit "```json") with (BACKTICK :: lit "``json").
  rewrite !(startswith_absent s _ BACKTICK H).
  change (BACKTICK :: [BACKTICK; BACKTICK]) with ([BACKTICK; BACKTICK] ++ [BACKTICK]).
  rewrite (endswith_absent s _ BACKTICK H). reflexivity.
Qed.

Lemma strip_fences_plain s : ~ In BACKTICK s -> strip_fences s = strip s.
Proof.
  intro H. unfold strip_fences, fenced_part.
  change (lit "```") with (BACKTICK :: [BACKTICK; BACKTICK]).
  rewrite (startswith_absent s _ BACKTICK H).
  apply additional_cleanup_plain. exact H.
Qed.

Lemma startswith_head (s p : str) x c :
  x <> c -> startswith (x :: s) (c :: p) = false.
Proof.
  intro H. simpl. destruct (x =? c)%N eqn:E; [|reflexivity].
  apply N.eqb_eq in E. contradiction.
Qed.

(** Up to the closing fence: a body without backtick is one piece. *)
Lemma split_go_plain (x : str) : forall cur,
  ~ In BACKTICK x ->
  split_go (lit "```") (x ++ lit "```") 0 cur = [rev cur ++ x; []].
Proof.
  change (lit "```") with [BACKTICK; BACKTICK; BACKTICK].
  induction x as [|c x IH]; intros cur H.
  - rewrite app_nil_r. reflexivity.
  - cbn [app split_go]. rewrite startswith_head.
    + rewrite IH.
      * simpl. rewrite <- app_assoc. reflexivity.
      * intro K. apply H. right. exact K.
    + intro K. apply H. left. exact K.
Qed.

Lemma split_fenced (x : str) :
  ~ In BACKTICK x ->
  split (lit "```" ++ x ++ lit "```") (lit "```") = [[]; x; []].
Proof.
  intro H. pose proof (split_go_plain x [] H) as K. revert K.
  unfold split. change (lit "```") with [BACKTICK; BACKTICK; BACKTICK].
  intro K. cbn [app split_go startswith N.eqb Pos.eqb BACKTICK andb List.length Nat.sub rev].
  rewrite K. reflexivity.
Qed.

Lemma strip_fenced (x : str) :
  strip (lit "```" ++ x ++ lit "```") = lit "```" ++ x ++ lit "```".
Proof.
  unfold strip.
  change (lit "```" ++ x ++ lit "```")
    with (BACKTICK :: ([BACKTICK; BACKTICK] ++ x ++ [BACKTICK; BACKTICK] ++ [BACKTICK])).
  rewrite (lstrip_fixed BACKTICK _ BACKTICK_not_space).
  rewrite (rstrip_cons_nonspace BACKTICK _ BACKTICK_not_space). f_equal.
  rewrite !app_assoc.
  rewrite (rstrip_app_nonspace _ BACKTICK [] BACKTICK_not_space). reflexivity.
Qed.

Lemma fenced_part_fenced (x : str) :
  ~ In BACKTICK x ->
  fenced_part (lit "```" ++ x ++ lit "```")
  = if startswith x (lit "json") then drop 4 x else x.
Proof.
  intro H. unfold fenced_part.
  change (startswith (lit "```" ++ x ++ lit "```") (lit "```")) with true.
  cbn match. rewrite (split_fenced x H). reflexivity.
Qed.

Lemma In_drop (x : char) n (s : str) : In x (drop n s) -> In x s.
Proof.
  unfold drop. intro K. rewrite <- (firstn_skipn n s). apply in_or_app. right. exact K.
Qed.

(** The fence removal on a fenced text whose inside [x] has no backtick. *)
Lemma strip_fences_fenced (x : str) :
  ~ In BACKTICK x ->
  strip_fences (lit "```" ++ x ++ lit "```")
  = strip (if startswith x (lit "json") then drop 4 x else x).
Proof.
  intro H. unfold strip_fences. rewrite (fenced_part_fenced x H).
  apply additional_cleanup_plain.
  destruct (startswith x (lit "json")); [|exact H].
  intro K. apply H. exact (In_drop _ _ _ K).
Qed.

Lemma clean_plain (body : str) :
  ~ In BACKTICK body -> clean body = extract_object (strip body).
Proof.
  intro H. unfold clean. rewrite strip_fences_plain.
  - rewrite strip_idem. reflexivity.
  - intro K. apply H. exact (In_strip _ _ K).
Qed.

Lemma clean_fenced (x : str) :
  ~ In BACKTICK x ->
  clean (lit "```" ++ x ++ lit "```")
  = extract_object (strip (if startswith x (lit "json") then drop 4 x else x)).
Proof.
  intro H. unfold clean. rewrite strip_fenced, (strip_fences_fenced x H). reflexivity.
Qed.

Lemma interpret_clean lim a b :
  clean a = clean b -> interpret lim a = interpret lim b.
Proof. intro H. unfold interpret. rewrite H. reflexivity. Qed.

(** The object span survives [strip]. *)
Lemma extract_object_strip (pre mid post : str) :
  ~ In LBRACE pre -> ~ In RBRACE post ->
  extract_object (strip (pre ++ LBRACE :: mid ++ RBRACE :: post))
  = LBRACE :: mid ++ [RBRACE].
Proof.
  intros Hpre Hpost. unfold strip.
  rewrite (lstrip_app_nonspace pre LBRACE _ eq_refl).
  replace (lstrip pre ++ LBRACE :: mid ++ RBRACE :: post)
    with ((lstrip pre ++ LBRACE :: mid) ++ RBRACE :: post)
    by (rewrite <- app_assoc; reflexivity).
  rewrite (rstrip_app_nonspace _ RBRACE post eq_refl).
  rewrite <- app_assoc. cbn [app].
  apply extract_object_span.
  - intro K. apply Hpre. exact (In_lstrip _ _ K).
  - intro K. apply Hpost. exact (In_rstrip _ _ K).
Qed.

(** Dropping a leading "json" from a text whose first opening brace comes
    after it keeps the brace and what follows. *)
Lemma drop_json_prefix (a rest : str) :
  ~ In LBRACE a ->
  startswith (a ++ LBRACE :: rest) (lit "json") = true ->
  exists a', drop 4 (a ++ LBRACE :: rest) = a' ++ LBRACE :: rest /\ ~ In LBRACE a'.
Proof.
  intros Ha Hs.
  destruct a as [|a1 [|a2 [|a3 [|a4 a']]]].
  - vm_compute in Hs. discriminate.
  - cbn in Hs. destruct (a1 =? 106)%N; [|discriminate]. vm_compute in Hs. discriminate.
  - cbn in Hs. destruct (a1 =? 106)%N; [|discriminate].
    destruct (a2 =? 115)%N; [|discriminate]. vm_compute in Hs. discriminate.
  - cbn in Hs. destruct (a1 =? 106)%N; [|discriminate].
    destruct (a2 =? 115)%N; [|discriminate].
    destruct (a3 =? 111)%N; [|discriminate]. vm_compute in Hs. discriminate.
  - exists a'. split; [reflexivity|].
    intro K. apply Ha. do 4 right. exact K.
Qed.

(** C5, as the code has it.  For a body without backtick: the body fenced
    with the tag [json], and the body fenced without a tag (when it does not
    itself begin with "json"), are interpreted as the body alone is; so is
    the body fenced with any tag that has no backtick and no opening brace,
    when the body has an opening brace before a closing brace. *)
Theorem fenced_reply (lim : Limits) (body : str) :
  ~ In BACKTICK body ->
  interpret lim (lit "```json" ++ body ++ lit "```") = interpret lim body
  /\ (startswith body (lit "json") = false ->
      interpret lim (lit "```" ++ body ++ lit "```") = interpret lim body)
  /\ (forall tag pre mid post,
        ~ In BACKTICK tag -> ~ In LBRACE tag ->
        body = pre ++ (LBRACE :: mid ++ [RBRACE]) ++ post ->
        ~ In LBRACE pre -> ~ In RBRACE post ->
        interpret lim (lit "```" ++ tag ++ body ++ lit "```") = interpret lim body).
Proof.
  intro Hb. split; [|split].
  - apply interpret_clean.
    change (lit "```json" ++ body ++ lit "```")
      with (lit "```" ++ (lit "json" ++ body) ++ lit "```").
    assert (~ In BACKTICK (lit "json" ++ body)) as Hjb.
    { intro K. apply in_app_or in K. destruct K as [K|K]; [|exact (Hb K)].
      vm_compute in K. intuition discriminate. }
    rewrite (clean_fenced _ Hjb), (clean_plain _ Hb). reflexivity.
  - intro Hj. apply interpret_clean.
    rewrite clean_fenced, clean_plain by exact Hb. rewrite Hj. reflexivity.
  - intros tag pre mid post Ht1 Ht2 -> Hpre Hpost. apply interpret_clean.
    replace (lit "```" ++ tag ++ (pre ++ (LBRACE :: mid ++ [RBRACE]) ++ post) ++ lit "```")
      with (lit "```" ++ (tag ++ pre ++ (LBRACE :: mid ++ [RBRACE]) ++ post) ++ lit "```")
      by (rewrite <- !app_assoc; reflexivity).
    rewrite clean_fenced, clean_plain.
    + replace (pre ++ (LBRACE :: mid ++ [RBRACE]) ++ post)
        with (pre ++ LBRACE :: mid ++ RBRACE :: post)
        by (simpl; rewrite <- app_assoc; reflexivity).
      rewrite (extract_object_strip pre mid post Hpre Hpost).
      replace (tag ++ pre ++ LBRACE :: mid ++ RBRACE :: post)
        with ((tag ++ pre) ++ LBRACE :: mid ++ RBRACE :: post)
        by (rewrite <- app_assoc; reflexivity).
      assert (~ In LBRACE (tag ++ pre)) as Htp.
      { intro K. apply in_app_or in K. tauto. }
      destruct (startswith ((tag ++ pre) ++ LBRACE :: mid ++ RBRACE :: post) (lit "json")) eqn:Ej.
      * destruct (drop_json_prefix _ _ Htp Ej) as (a' & -> & Ha').
        apply extract_object_strip; assumption.
      * apply extract_object_strip; assumption.
    + exact Hb.
    + intro K. apply in_app_or in K. destruct K as [K|K]; [exact (Ht1 K)|exact (Hb K)].
Qed.

(** The claim C5 fails for a body that holds a fence of its own, and for a
    tag other than [json] on a body without braces. *)
Lemma fenced_reply_counterexample :
  (interpret default_limits (dq "{'vehicles':[],'note':'```'}")
   = inr (PDict [ (lit "vehicles", PList []); (lit "note", PStr (lit "```")) ])
   /\ interpret default_limits (lit "```json" ++ dq "{'vehicles':[],'note':'```'}" ++ lit "```")
      = inr (error_result
               (lit "Failed to parse AI response: Unterminated string starting at: line 1 column 23 (char 22)")))
  /\ (interpret default_limits (lit "[]") = inl list_index_error
      /\ interpret default_limits (lit "```" ++ lit "python " ++ lit "[]" ++ lit "```")
         = inr (error_result
                  (lit "Failed to parse AI response: Expecting value: line 1 column 1 (char 0)"))).
Proof. vm_compute. repeat split. Qed.

(** ** The repair *)

Lemma scan_back_balanced mid :
  balanced mid ->
  forall rest i count start,
    (0 < count)%Z ->
    scan_back (rev mid ++ rest) i count start
    = scan_back rest (i - Z.of_nat (List.length mid))%Z count start.
Proof.
  induction 1 as [|c s Hl Hr Hs IH|a b Ha IHa Hb IHb]; intros rest i count start Hc.
  - simpl. f_equal. lia.
  - cbn [rev]. rewrite <- app_assoc. cbn [app]. rewrite IH by exact Hc.
    cbn [scan_back].
    destruct (c =? RBRACE)%N eqn:E1; [apply N.eqb_eq in E1; contradiction|].
    destruct (c =? LBRACE)%N eqn:E2; [apply N.eqb_eq in E2; contradiction|].
    f_equal. cbn [List.length]. lia.
  - cbn [rev]. rewrite rev_app_distr. cbn [rev]. rewrite <- !app_assoc. cbn [app].
    rewrite IHb by exact Hc. cbn [scan_back]. rewrite N.eqb_refl.
    rewrite IHa by lia. cbn [scan_back].
    change (LBRACE =? RBRACE)%N with false. rewrite N.eqb_refl. cbn match.
    destruct (Z.eqb_spec (count + 1 - 1) 0); [lia|].
    replace (count + 1 - 1)%Z with count by lia.
    f_equal. cbn [List.length]. rewrite length_app. cbn [List.length]. lia.
Qed.

(** The scan finds the opening brace that matches the last closing brace. *)
Lemma scan_back_match pre mid :
  balanced mid ->
  let last_brace := Z.of_nat (List.length pre + List.length mid + 1) in
  scan_back (rev (pre ++ LBRACE :: mid ++ [RBRACE])) last_brace 0 last_brace
  = Z.of_nat (List.length pre).
Proof.
  intros Hb last_brace.
  replace (pre ++ LBRACE :: mid ++ [RBRACE]) with ((pre ++ LBRACE :: mid) ++ [RBRACE])
    by (rewrite <- app_assoc; reflexivity).
  rewrite rev_app_distr. cbn [rev app]. rewrite rev_app_distr. cbn [rev].
  rewrite <- app_assoc. cbn [app scan_back]. rewrite N.eqb_refl.
  rewrite (scan_back_balanced mid Hb) by lia. cbn [scan_back].
  change (LBRACE =? RBRACE)%N with false. rewrite N.eqb_refl. cbn match.
  subst last_brace. cbn [Z.add Z.sub Z.eqb Z.opp Z.pos_sub]. lia.
Qed.

(** A text without braces may come before a balanced one. *)
Lemma balanced_plain (s t : str) :
  forallb (fun c => negb (c =? LBRACE)%N && negb (c =? RBRACE)%N) s = true ->
  balanced t -> balanced (s ++ t).
Proof.
  intros Hs Ht. induction s as [|c s IH]; [exact Ht|].
  cbn [forallb] in Hs. apply andb_true_iff in Hs. destruct Hs as [Hc Hs].
  apply andb_true_iff in Hc. destruct Hc as [Hl Hr].
  apply negb_true_iff in Hl, Hr. apply N.eqb_neq in Hl, Hr.
  apply balanced_char; auto.
Qed.

Lemma balanced_braceless (s : str) :
  forallb (fun c => negb (c =? LBRACE)%N && negb (c =? RBRACE)%N) s = true ->
  balanced s.
Proof.
  intro Hs. rewrite <- (app_nil_r s). apply balanced_plain; [exact Hs|constructor].
Qed.

(** What the repair decodes: when the text, after the two substitutions,
    ends with a brace span (an opening brace, a middle whose braces pair up as
    characters, a closing brace), it is exactly that span. *)
Lemma repair_decodes_span (lim : Limits) (parse_error : exn) (text pre mid : str) :
  fix_trailing_commas text = pre ++ LBRACE :: mid ++ [RBRACE] ->
  balanced mid ->
  repair lim parse_error text = json_loads lim (LBRACE :: mid ++ [RBRACE])
  /\ (forall v, json_loads lim (LBRACE :: mid ++ [RBRACE]) = inr v ->
                repair lim parse_error text = inr v).
Proof.
  intros Hfix Hb.
  assert (repair lim parse_error text = json_loads lim (LBRACE :: mid ++ [RBRACE])) as H.
  { unfold repair. rewrite Hfix.
    assert (rfind (pre ++ LBRACE :: mid ++ [RBRACE]) RBRACE
            = Z.of_nat (List.length pre + List.length mid + 1)) as Hr.
    { unfold rfind.
      replace (pre ++ LBRACE :: mid ++ [RBRACE]) with ((pre ++ LBRACE :: mid) ++ RBRACE :: [])
        by (rewrite <- app_assoc; reflexivity).
      rewrite rfind_from_last by (intros []).
      rewrite length_app. cbn [List.length]. lia. }
    rewrite Hr.
    destruct (Z.ltb_spec 0 (Z.of_nat (List.length pre + List.length mid + 1))); [|lia].
    rewrite firstn_all2
      by (rewrite length_app; cbn [List.length]; rewrite length_app; cbn [List.length]; lia).
    rewrite (scan_back_match pre mid Hb).
    f_equal.
    replace (pre ++ LBRACE :: mid ++ [RBRACE]) with (pre ++ (LBRACE :: mid ++ [RBRACE]) ++ [])
      by (rewrite app_nil_r; reflexivity).
    replace (Z.of_nat (List.length pre + List.length mid + 1) + 1)%Z
      with (Z.of_nat (List.length pre) + Z.of_nat (List.length (LBRACE :: mid ++ [RBRACE])))%Z
      by (cbn [List.length]; rewrite length_app; cbn [List.length]; lia).
    apply slice_middle. }
  split; [exact H|]. intros v Hv. rewrite H. exact Hv.
Qed.

(** ** The removal of trailing separators *)

Lemma ws_then_run close (ws rest : str) :
  is_space close = false ->
  Forall (fun c => is_space c = true) ws ->
  ws_then close (ws ++ close :: rest) = Some (List.length ws).
Proof.
  intros Hc. induction 1 as [|c ws Hs _ IH]; simpl.
  - rewrite N.eqb_refl. reflexivity.
  - destruct (c =? close)%N eqn:E.
    + apply N.eqb_eq in E. subst. congruence.
    + rewrite Hs, IH. reflexivity.
Qed.

Lemma re_sub_go_skip close (ws rest : str) :
  re_sub_go close (ws ++ rest) (List.length ws) = re_sub_go close rest 0.
Proof. induction ws as [|c ws IH]; simpl; [reflexivity|exact IH]. Qed.

(** A comma that had no delimiter after it has none after the insertion. *)
Lemma ws_then_inserted_none close j t :
  inserted close j t -> ws_then close j = None -> ws_then close t = None.
Proof.
  induction 1 as [|c j t H IH|ws j t Hws H IH]; simpl; intro Hn.
  - reflexivity.
  - destruct (c =? close)%N; [discriminate|].
    destruct (is_space c); [|reflexivity].
    destruct (ws_then close j); [discriminate|]. rewrite IH; reflexivity.
  - rewrite N.eqb_refl in Hn. discriminate.
Qed.

(** The substitution takes the inserted separators out again. *)
Lemma re_sub_inserted close j t :
  is_space close = false -> close <> COMMA ->
  inserted close j t -> has_trailing close j = false ->
  re_sub_trailing close t = j.
Proof.
  intros Hsp Hne. unfold re_sub_trailing.
  induction 1 as [|c j t H IH|ws j t Hws H IH]; intro Hj.
  - reflexivity.
  - simpl in Hj. apply orb_false_iff in Hj. destruct Hj as [Hc Hj].
    cbn [re_sub_go]. destruct (c =? COMMA)%N.
    + destruct (ws_then close j) eqn:E; [discriminate|].
      rewrite (ws_then_inserted_none close j t H E), (IH Hj). reflexivity.
    + rewrite (IH Hj). reflexivity.
  - simpl in Hj. apply orb_false_iff in Hj. destruct Hj as [_ Hj].
    cbn [re_sub_go]. rewrite N.eqb_refl.
    rewrite (ws_then_run close ws t Hsp Hws), re_sub_go_skip.
    cbn [re_sub_go]. destruct (close =? COMMA)%N eqn:E.
    + apply N.eqb_eq in E. contradiction.
    + rewrite (IH Hj). reflexivity.
Qed.

(** Separators put before another delimiter change nothing for [close]. *)
Lemma ws_then_inserted_other close other j t :
  other <> close -> is_space other = false -> close <> COMMA ->
  inserted other j t -> ws_then close t = ws_then close j.
Proof.
  intros Hne Hsp Hc. induction 1 as [|c j t H IH|ws j t Hws H IH]; cbn [ws_then].
  - reflexivity.
  - rewrite IH. reflexivity.
  - destruct (COMMA =? close)%N eqn:E1.
    { apply N.eqb_eq in E1. congruence. }
    destruct (other =? close)%N eqn:E2.
    { apply N.eqb_eq in E2. contradiction. }
    rewrite Hsp. reflexivity.
Qed.

Lemma ws_then_blocked close other (ws rest : str) :
  other <> close -> is_space other = false -> is_space close = false ->
  Forall (fun c => is_space c = true) ws ->
  ws_then close (ws ++ other :: rest) = None.
Proof.
  intros Hne Hsp Hcl. induction 1 as [|c ws Hs _ IH]; simpl.
  - destruct (other =? close)%N eqn:E; [apply N.eqb_eq in E; contradiction|].
    rewrite Hsp. reflexivity.
  - destruct (c =? close)%N eqn:E.
    + apply N.eqb_eq in E. subst. congruence.
    + rewrite Hs, IH. reflexivity.
Qed.

Lemma has_trailing_spaces close (ws rest : str) :
  Forall (fun c => is_space c = true) ws ->
  has_trailing close (ws ++ rest) = has_trailing close rest.
Proof.
  induction 1 as [|c ws Hs _ IH]; simpl; [reflexivity|].
  destruct (c =? COMMA)%N eqn:E.
  - apply N.eqb_eq in E. subst. discriminate.
  - exact IH.
Qed.

Lemma has_trailing_inserted_other close other j t :
  other <> close -> is_space other = false -> is_space close = false ->
  close <> COMMA ->
  inserted other j t -> has_trailing close t = has_trailing close j.
Proof.
  intros Hne Hsp Hcl Hc. induction 1 as [|c j t H IH|ws j t Hws H IH].
  - reflexivity.
  - simpl. rewrite IH, (ws_then_inserted_other close other j t Hne Hsp Hc H).
    reflexivity.
  - cbn [has_trailing]. rewrite N.eqb_refl.
    rewrite (ws_then_blocked close other ws t Hne Hsp Hcl Hws).
    rewrite (has_trailing_spaces close ws _ Hws). cbn [has_trailing andb orb].
    rewrite IH, (ws_then_inserted_other close other j t Hne Hsp Hc H).
    reflexivity.
Qed.

(** Both substitutions of lines 285-286 on a text with separators put before
    closing brackets and closing braces. *)
Lemma fix_trailing_commas_inserted (j m text : str) :
  inserted RBRACKET j m -> inserted RBRACE m text ->
  has_trailing RBRACE j = false -> has_trailing RBRACKET j = false ->
  fix_trailing_commas text = j.
Proof.
  intros Hjm Hmt H1 H2. unfold fix_trailing_commas.
  assert (RBRACKET <> RBRACE) as Hne by discriminate.
  assert (has_trailing RBRACE m = false) as Hm.
  { rewrite (has_trailing_inserted_other RBRACE RBRACKET j m); auto; discriminate. }
  rewrite (re_sub_inserted RBRACE m text); auto; try discriminate.
  apply (re_sub_inserted RBRACKET j m); auto; discriminate.
Qed.

(** C7, as the code has it.  Take a JSON object text: an opening brace, a
    middle whose braces pair up as characters, a closing brace, with no comma
    followed by optional white space and a closing brace or bracket, and that
    decodes.  Put a comma, with optional white space after it, before any of
    its closing brackets and closing braces.  On the resulting text the repair
    step takes these separators out again and decodes the object. *)
Theorem repair_removes_separators
    (lim : Limits) (parse_error : exn) (j m text mid : str) (v : pyval) :
  inserted RBRACKET j m -> inserted RBRACE m text ->
  has_trailing RBRACE j = false -> has_trailing RBRACKET j = false ->
  j = LBRACE :: mid ++ [RBRACE] -> balanced mid ->
  json_loads lim j = inr v ->
  fix_trailing_commas text = j /\ repair lim parse_error text = inr v.
Proof.
  intros Hjm Hmt H1 H2 Hj Hb Hv.
  pose proof (fix_trailing_commas_inserted j m text Hjm Hmt H1 H2) as Hfix.
  split; [exact Hfix|].
  assert (fix_trailing_commas text = [] ++ LBRACE :: mid ++ [RBRACE]) as Hfix'
    by (rewrite Hfix; exact Hj).
  destruct (repair_decodes_span lim parse_error text [] mid Hfix' Hb) as [_ K].
  apply K. rewrite <- Hj. exact Hv.
Qed.

(** The claim C7 fails for a doubled separator, for a brace inside a string
    literal, and for an array that is not inside an object: each text is valid
    JSON once its trailing separators are taken out, and the repair step does
    not decode it. *)
Lemma repair_counterexample :
  let lim := default_limits in
  let no_name := lit "Expecting property name enclosed in double quotes" in
  (json_loads lim (dq "{'vehicles':[]}") = inr (PDict [(lit "vehicles", PList [])])
   /\ json_loads lim (dq "{'vehicles':[],,}")
      = inl (JSONDecodeError no_name (dq "{'vehicles':[],,}") 15)
   /\ repair lim (JSONDecodeError no_name (dq "{'vehicles':[],,}") 15)
        (dq "{'vehicles':[],,}")
      = inl (JSONDecodeError no_name (dq "{'vehicles':[],}") 15))
  /\ (json_loads lim (dq "{'vehicles':[],'note':'}'}")
      = inr (PDict [(lit "vehicles", PList []); (lit "note", PStr (lit "}"))])
      /\ json_loads lim (dq "{'vehicles':[],'note':'}',}")
         = inl (JSONDecodeError no_name (dq "{'vehicles':[],'note':'}',}") 26)
      /\ repair lim (JSONDecodeError no_name (dq "{'vehicles':[],'note':'}',}") 26)
           (dq "{'vehicles':[],'note':'}',}")
         = inl (JSONDecodeError (lit "Expecting value") (lit "}") 0))
  /\ (json_loads lim (lit "[1,2]") = inr (PList [PInt 1; PInt 2])
      /\ json_loads lim (lit "[1,2,]")
         = inl (JSONDecodeError (lit "Expecting value") (lit "[1,2,]") 5)
      /\ repair lim (JSONDecodeError (lit "Expecting value") (lit "[1,2,]") 5)
           (lit "[1,2,]")
         = inl (JSONDecodeError (lit "Expecting value") (lit "[1,2,]") 5)).
Proof. vm_compute. repeat split. Qed.

(** ** The vehicle pattern *)

Lemma startswith_app (p r : str) : startswith (p ++ r) p = true.
Proof.
  induction p as [|a p IH]; simpl; [reflexivity|].
  rewrite N.eqb_refl. exact IH.
Qed.

Lemma startswith_inv (p s : str) :
  startswith s p = true -> s = p ++ skipn (List.length p) s.
Proof.
  revert s. induction p as [|a p IH]; intros s H; simpl in *; [reflexivity|].
  destruct s as [|b s]; [discriminate|].
  apply andb_true_iff in H. destruct H as [Hb Hs].
  apply N.eqb_eq in Hb. subst b. simpl. f_equal. apply IH. exact Hs.
Qed.

Lemma expect_spec (p s r : str) : expect p s = Some r <-> s = p ++ r.
Proof.
  unfold expect. split.
  - destruct (startswith s p) eqn:E; [|discriminate].
    intro H. injection H as <-. apply startswith_inv. exact E.
  - intros ->. rewrite startswith_app.
    rewrite skipn_app, skipn_all, Nat.sub_diag. reflexivity.
Qed.

Lemma expect_app (p r : str) : expect p (p ++ r) = Some r.
Proof. apply expect_spec. reflexivity. Qed.

Lemma expect_cons c (r : str) : expect [c] (c :: r) = Some r.
Proof. exact (expect_app [c] r). Qed.

Lemma lstrip_split (s : str) : exists ws, spaces ws /\ s = ws ++ lstrip s.
Proof.
  induction s as [|c s (ws & Hws & IH)]; simpl.
  - exists []. split; [constructor|reflexivity].
  - destruct (is_space c) eqn:E.
    + exists (c :: ws). split; [constructor; assumption|]. simpl. f_equal. exact IH.
    + exists []. split; [constructor|reflexivity].
Qed.

Lemma lstrip_spaces (ws : str) c r :
  spaces ws -> is_space c = false -> lstrip (ws ++ c :: r) = c :: r.
Proof.
  intros Hws Hc. rewrite lstrip_app_nonspace by exact Hc.
  induction Hws as [|x ws Hx _ IH]; simpl; [reflexivity|].
  rewrite Hx. exact IH.
Qed.

Lemma lstrip_spaces_lit (ws p r : str) :
  spaces ws ->
  match p with
  | c :: _ => is_space c = false
  | [] => False
  end ->
  lstrip (ws ++ p ++ r) = p ++ r.
Proof.
  intros Hws Hp. destruct p as [|c p]; [destruct Hp|].
  exact (lstrip_spaces ws c (p ++ r) Hws Hp).
Qed.

Lemma span_sound (p : char -> bool) (s : str) : forall a b,
  span p s = (a, b) ->
  s = a ++ b /\ Forall (fun c => p c = true) a
  /\ match b with [] => True | c :: _ => p c = false end.
Proof.
  induction s as [|c s IH]; intros a b; simpl.
  - intro H. injection H as <- <-. repeat split. constructor.
  - destruct (p c) eqn:E.
    + destruct (span p s) as [a' b'] eqn:Es. intro H. injection H as <- <-.
      destruct (IH a' b' eq_refl) as (-> & Ha & Hb).
      repeat split; [constructor; assumption|exact Hb].
    + intro H. injection H as <- <-. repeat split; [constructor|exact E].
Qed.

Lemma span_complete (p : char -> bool) (a b : str) :
  Forall (fun c => p c = true) a ->
  match b with [] => True | c :: _ => p c = false end ->
  span p (a ++ b) = (a, b).
Proof.
  intros Ha Hb. induction Ha as [|x a Hx _ IH]; simpl.
  - destruct b as [|c b]; [reflexivity|]. simpl. rewrite Hb. reflexivity.
  - rewrite Hx, IH. reflexivity.
Qed.

Lemma conf_char_not_space c : is_conf_char c = true -> is_space c = false.
Proof.
  unfold is_conf_char, is_digit. intro H.
  apply orb_true_iff in H. destruct H as [H|H].
  - apply andb_true_iff in H. destruct H as [H1 H2].
    apply N.leb_le in H1, H2.
    assert (c = 48 \/ c = 49 \/ c = 50 \/ c = 51 \/ c = 52 \/ c = 53 \/ c = 54
            \/ c = 55 \/ c = 56 \/ c = 57)%N as K by lia.
    repeat (destruct K as [->|K]; [reflexivity|]). subst. reflexivity.
  - apply N.eqb_eq in H. subst. reflexivity.
Qed.

(** The matcher accepts exactly what the pattern describes. *)
Lemma match_vehicle_spec (s plate conf rest : str) :
  match_vehicle s = Some (plate, conf, rest) <-> vehicle_fragment s plate conf rest.
Proof.
  unfold match_vehicle, vehicle_fragment. split.
  - destruct (expect [LBRACE] s) as [s1|] eqn:E1; [|discriminate].
    destruct (expect (dq "'plateNumber'") (lstrip s1)) as [s2|] eqn:E2; [|discriminate].
    destruct (expect [COLON] (lstrip s2)) as [s3|] eqn:E3; [|discriminate].
    destruct (expect [QUOTE] (lstrip s3)) as [s4|] eqn:E4; [|discriminate].
    destruct (span (fun c => negb (c =? QUOTE)%N) s4) as [pl s5] eqn:E5.
    destruct pl as [|p0 pl]; [discriminate|].
    destruct (expect [QUOTE] s5) as [s6|] eqn:E6; [|discriminate].
    destruct (expect [COMMA] (lstrip s6)) as [s7|] eqn:E7; [|discriminate].
    destruct (expect (dq "'confidence'") (lstrip s7)) as [s8|] eqn:E8; [|discriminate].
    destruct (expect [COLON] (lstrip s8)) as [s9|] eqn:E9; [|discriminate].
    destruct (span is_conf_char (lstrip s9)) as [cf rs] eqn:E10.
    destruct cf as [|c0 cf]; [discriminate|].
    intro H. injection H as <- <- <-.
    apply expect_spec in E1, E2, E3, E4, E6, E7, E8, E9.
    apply span_sound in E5, E10.
    destruct E5 as (E5 & Hpl & _). destruct E10 as (E10 & Hcf & Hrs).
    destruct (lstrip_split s1) as (w1 & Hw1 & K1).
    destruct (lstrip_split s2) as (w2 & Hw2 & K2).
    destruct (lstrip_split s3) as (w3 & Hw3 & K3).
    destruct (lstrip_split s6) as (w4 & Hw4 & K4).
    destruct (lstrip_split s7) as (w5 & Hw5 & K5).
    destruct (lstrip_split s8) as (w6 & Hw6 & K6).
    destruct (lstrip_split s9) as (w7 & Hw7 & K7).
    exists w1, w2, w3, w4, w5, w6, w7.
    repeat (split; [assumption|]).
    split.
    { rewrite E1, K1, E2, K2, E3, K3, E4, E5, E6, K4, E7, K5, E8, K6, E9, K7, E10.
      cbn [app]. rewrite <- ?app_assoc. reflexivity. }
    split; [discriminate|]. split.
    { intro K. rewrite Forall_forall in Hpl. specialize (Hpl _ K).
      rewrite N.eqb_refl in Hpl. discriminate. }
    split; [discriminate|]. split; [exact Hcf|exact Hrs].
  - intros (w1 & w2 & w3 & w4 & w5 & w6 & w7 & Hw1 & Hw2 & Hw3 & Hw4 & Hw5 & Hw6 & Hw7
            & -> & Hp & Hq & Hc & Hcf & Hrs).
    rewrite expect_cons.
    rewrite (lstrip_spaces_lit w1 (dq "'plateNumber'") _ Hw1 eq_refl), expect_app.
    rewrite (lstrip_spaces w2 COLON _ Hw2 eq_refl), expect_cons.
    rewrite (lstrip_spaces w3 QUOTE _ Hw3 eq_refl), expect_cons.
    rewrite (span_complete (fun c => negb (c =? QUOTE)%N) plate (QUOTE :: _)).
    + destruct plate as [|p0 plate]; [congruence|].
      rewrite expect_cons.
      rewrite (lstrip_spaces w4 COMMA _ Hw4 eq_refl), expect_cons.
      rewrite (lstrip_spaces_lit w5 (dq "'confidence'") _ Hw5 eq_refl), expect_app.
      rewrite (lstrip_spaces w6 COLON _ Hw6 eq_refl), expect_cons.
      destruct conf as [|c0 conf]; [congruence|].
      assert (is_space c0 = false) as Hc0.
      { apply conf_char_not_space. inversion Hcf; assumption. }
      cbn [app]. rewrite (lstrip_spaces w7 c0 _ Hw7 Hc0).
      change (c0 :: conf ++ rest) with ((c0 :: conf) ++ rest).
      rewrite (span_complete is_conf_char (c0 :: conf) rest Hcf Hrs). reflexivity.
    + apply Forall_forall. intros c Hin.
      destruct (N.eqb_spec c QUOTE); [subst; contradiction|reflexivity].
    + cbn. reflexivity.
Qed.

(** Every match that [finditer] reports is a fragment of the text. *)
Lemma finditer_fragment (s : str) plate conf :
  In (plate, conf) (finditer s) ->
  exists before after rest,
    s = before ++ after /\ vehicle_fragment after plate conf rest.
Proof.
  unfold finditer. generalize 0 as skip.
  induction s as [|c s IH]; intros skip H; simpl in H; [destruct H|].
  assert (forall k, In (plate, conf) (finditer_go s k) ->
            exists before after rest,
              c :: s = before ++ after /\ vehicle_fragment after plate conf rest) as Hrec.
  { intros k Hk. destruct (IH k Hk) as (b & a & r & -> & Hf).
    exists (c :: b), a, r. split; [reflexivity|exact Hf]. }
  destruct skip as [|k]; [|exact (Hrec k H)].
  destruct (match_vehicle (c :: s)) as [[[p g] r]|] eqn:E; [|exact (Hrec 0 H)].
  destruct H as [H|H]; [|exact (Hrec _ H)].
  injection H as -> ->. exists [], (c :: s), r.
  split; [reflexivity|]. apply match_vehicle_spec. exact E.
Qed.













(** ** The image loader *)

Lemma has_char_false s c : ~ In c s -> has_char s c = false.
Proof.
  intro H. destruct (has_char s c) eqn:E; [|reflexivity].
  apply has_char_In in E. contradiction.
Qed.

Lemma not_In_has_char s c : has_char s c = false -> ~ In c s.
Proof. intros H K. apply has_char_In in K. congruence. Qed.

Lemma split_go_comma_free (a : str) : forall cur,
  ~ In COMMA a -> split_go [COMMA] a 0 cur = [rev cur ++ a].
Proof.
  induction a as [|c a IH]; intros cur H.
  - simpl. rewrite app_nil_r. reflexivity.
  - cbn [split_go startswith].
    destruct (c =? COMMA)%N eqn:E.
    + apply N.eqb_eq in E. exfalso. apply H. left. exact E.
    + cbn [andb]. rewrite IH by (intro K; apply H; right; exact K).
      simpl. rewrite <- app_assoc. reflexivity.
Qed.

Lemma split_go_comma (a r : str) : forall cur,
  ~ In COMMA a ->
  split_go [COMMA] (a ++ COMMA :: r) 0 cur = (rev cur ++ a) :: split_go [COMMA] r 0 [].
Proof.
  induction a as [|c a IH]; intros cur H.
  - cbn [app split_go startswith]. rewrite N.eqb_refl. cbn [andb List.length Nat.sub].
    rewrite app_nil_r. reflexivity.
  - cbn [app split_go startswith].
    destruct (c =? COMMA)%N eqn:E.
    + apply N.eqb_eq in E. exfalso. apply H. left. exact E.
    + cbn [andb]. rewrite IH by (intro K; apply H; right; exact K).
      simpl. rewrite <- app_assoc. reflexivity.
Qed.

(** The second piece of a text with a comma: what lies between the first
    comma and the next one, or the end. *)
Lemma second_piece (header payload r : str) :
  ~ In COMMA header -> ~ In COMMA payload ->
  (r = payload \/ exists rest, r = payload ++ COMMA :: rest) ->
  item (split (header ++ COMMA :: r) [COMMA]) 1 = Some payload.
Proof.
  intros Hh Hp Hr. unfold split. rewrite split_go_comma by exact Hh.
  destruct Hr as [->|(rest & ->)].
  - rewrite split_go_comma_free by exact Hp. reflexivity.
  - rewrite split_go_comma by exact Hp. reflexivity.
Qed.

(** X1.  [load_image_from_base64] hands a text without comma to the decoder
    as it is, and of a text with one comma (a data URL) it hands over what
    follows the comma; a failure of the decoder comes back as a [ValueError]
    whose message is "Failed to load image from base64: " and the cause. *)
Theorem base64_header_stripped (w : World) (header payload : str) :
  ~ In COMMA header -> ~ In COMMA payload ->
  load_image_from_base64 w payload = decoded_payload w payload
  /\ load_image_from_base64 w (header ++ COMMA :: payload) = decoded_payload w payload.
Proof.
  intros Hh Hp. unfold load_image_from_base64, decoded_payload. split.
  - rewrite (has_char_false _ _ Hp). reflexivity.
  - rewrite (proj2 (has_char_In _ _)) by (apply in_or_app; right; left; reflexivity).
    rewrite (second_piece header payload payload Hh Hp) by (left; reflexivity).
    reflexivity.
Qed.

(** X2.  Of a text with more than one comma [load_image_from_base64] decodes
    what lies between the first comma and the second: what follows the second
    comma never reaches the decoder. *)
Theorem base64_second_comma_cuts (w : World) (header payload rest : str) :
  ~ In COMMA header -> ~ In COMMA payload ->
  load_image_from_base64 w (header ++ COMMA :: payload ++ COMMA :: rest)
  = decoded_payload w payload.
Proof.
  intros Hh Hp. unfold load_image_from_base64, decoded_payload.
  rewrite (proj2 (has_char_In _ _)) by (apply in_or_app; right; left; reflexivity).
  rewrite (second_piece header payload (payload ++ COMMA :: rest) Hh Hp)
    by (right; exists rest; reflexivity).
  reflexivity.
Qed.

Lemma key_set w : GEMINI_API_KEY w <> [] -> exists k key, GEMINI_API_KEY w = k :: key.
Proof. destruct (GEMINI_API_KEY w) as [|k key]; [congruence|]. intros _. eauto. Qed.

Lemma get_gemini_model_ok w :
  GEMINI_API_KEY w <> [] -> configure w = None -> get_gemini_model w = inr tt.
Proof.
  intros Hk Hc. unfold get_gemini_model.
  destruct (key_set w Hk) as (k & key & ->). rewrite Hc. reflexivity.
Qed.

(** With a credential and an image, [process_image] stamps what the analysis
    returns, or reports what it raises. *)
Lemma process_image_analysis w image_input is_base64 image :
  GEMINI_API_KEY w <> [] ->
  load_image w image_input is_base64 = inr image ->
  process_image w image_input is_base64
  = match analyze_image_with_gemini w image with
    | inr (PDict d) => inr (PDict (dict_set d (lit "timestamp") (PStr (utcnow_z w))))
    | inr _ => inr (envelope [] (lit "'timestamp'") (utcnow_z w))
    | inl e => inr (envelope [] (str_exn e) (utcnow_z w))
    end.
Proof.
  intros Hk Hl. unfold process_image. fold (load_image w image_input is_base64).
  destruct (key_set w Hk) as (k & key & ->). rewrite Hl. cbn [bind].
  destruct (analyze_cases w image) as [(d & vs & -> & _)|(msg & -> & _)]; reflexivity.
Qed.

(** X3.  When the image cannot be loaded (the file cannot be opened, or the
    base64 text, without comma, cannot be decoded), [process_image] returns an
    envelope with no vehicle, a "Z" timestamp and the error "Failed to load
    image: " followed by the loader's own "Failed to load image from file: "
    or "... from base64: " and the cause. *)
Theorem load_failure_envelope
    (w : World) (image_input : str) (is_base64 : bool) (e : exn) :
  GEMINI_API_KEY w <> [] ->
  (if is_base64
   then ~ In COMMA image_input /\ decode_image w image_input = inl e
   else open_image w image_input = inl e) ->
  process_image w image_input is_base64
  = inr (envelope []
           (lit "Failed to load image: Failed to load image from "
              ++ (if is_base64 then lit "base64" else lit "file")
              ++ lit ": " ++ str_exn e)
           (utcnow_z w)).
Proof.
  intros Hk H. unfold process_image.
  destruct (key_set w Hk) as (k & key & ->).
  destruct is_base64.
  - destruct H as [Hc Hd]. unfold load_image_from_base64.
    rewrite (has_char_false _ _ Hc). cbn [bind]. rewrite Hd. reflexivity.
  - unfold load_image_from_file. rewrite H. reflexivity.
Qed.

(** ** The handlers of the outer [try] *)

(** X4.  When [genai.configure] or the construction of the model raises,
    [process_image] returns an envelope with no vehicle whose error is
    "Failed to initialize Gemini model: " followed by the cause, as it is: the
    handler for [RuntimeError] does not look for a quota error. *)
Theorem model_init_failure (w : World) (image_input : str) (is_base64 : bool)
    (image : Image) (e : exn) :
  GEMINI_API_KEY w <> [] ->
  load_image w image_input is_base64 = inr image ->
  configure w = Some e ->
  process_image w image_input is_base64
  = inr (envelope [] (lit "Failed to initialize Gemini model: " ++ str_exn e)
           (utcnow_z w)).
Proof.
  intros Hk Hl Hc. rewrite (process_image_analysis w _ _ image Hk Hl).
  unfold analyze_image_with_gemini, get_gemini_model.
  destruct (key_set w Hk) as (k & key & ->). rewrite Hc. reflexivity.
Qed.

Lemma contains_startswith (s p : str) : startswith s p = true -> contains s p = true.
Proof. intro H. destruct s; simpl; rewrite H; reflexivity. Qed.

Lemma contains_app (pre p post : str) : contains (pre ++ p ++ post) p = true.
Proof.
  induction pre as [|c pre IH].
  - cbn [app]. apply contains_startswith, startswith_app.
  - cbn [app contains]. rewrite IH. apply orb_true_r.
Qed.

Lemma lower_app a b : lower (a ++ b) = lower a ++ lower b.
Proof. unfold lower. apply map_app. Qed.

(** X5.  An exception of the upstream call that is no decode error: when it
    is no [RuntimeError] and its message holds the word "quota" in any letter
    case, or "429" anywhere, the error of the result is the fixed quota
    message; when it is no [RuntimeError] and holds neither, and whenever it
    is a [RuntimeError], the error is the message of the exception as it is.
    The vehicle list is empty in each case. *)
Theorem upstream_quota_message (w : World) (image : Image) (e : exn) :
  GEMINI_API_KEY w <> [] -> configure w = None ->
  generate_content w image = inl e ->
  is_JSONDecodeError e = false ->
  (is_RuntimeError e = false ->
   (exists pre word post,
      str_exn e = pre ++ word ++ post /\ lower word = lit "quota")
   \/ (exists pre post, str_exn e = pre ++ lit "429" ++ post) ->
   analyze_image_with_gemini w image = inr (error_result quota_message))
  /\ (is_RuntimeError e = false ->
      contains (lower (str_exn e)) (lit "quota") = false ->
      contains (str_exn e) (lit "429") = false ->
      analyze_image_with_gemini w image = inr (error_result (str_exn e)))
  /\ (is_RuntimeError e = true ->
      analyze_image_with_gemini w image = inr (error_result (str_exn e))).
Proof.
  intros Hk Hc Hg Hj.
  unfold analyze_image_with_gemini. rewrite (get_gemini_model_ok w Hk Hc), Hg.
  unfold outer_handlers. rewrite Hj. split; [|split]; intros ->.
  - intros [(pre & word & post & -> & Hw)|(pre & post & ->)].
    + rewrite !lower_app, Hw, contains_app. reflexivity.
    + rewrite contains_app, orb_true_r. reflexivity.
  - intros -> ->. reflexivity.
  - reflexivity.
Qed.

(** X6.  When the upstream call itself raises a [JSONDecodeError], the
    handler at line 360 raises in its turn, [response_text] not being bound
    yet: [analyze_image_with_gemini] raises, and the envelope of
    [process_image] carries the message about the unbound variable, not the
    decode error. *)
Theorem upstream_decode_error_lost (w : World) (image_input : str) (is_base64 : bool)
    (image : Image) (e : exn) :
  GEMINI_API_KEY w <> [] ->
  load_image w image_input is_base64 = inr image ->
  configure w = None ->
  generate_content w image = inl e ->
  is_JSONDecodeError e = true ->
  analyze_image_with_gemini w image = inl (OtherError unbound_response_text)
  /\ process_image w image_input is_base64
     = inr (envelope [] unbound_response_text (utcnow_z w)).
Proof.
  intros Hk Hl Hc Hg Hj.
  assert (analyze_image_with_gemini w image = inl (OtherError unbound_response_text)) as Ha.
  { unfold analyze_image_with_gemini. rewrite (get_gemini_model_ok w Hk Hc), Hg.
    unfold outer_handlers. destruct e; try discriminate. reflexivity. }
  split; [exact Ha|].
  rewrite (process_image_analysis w _ _ image Hk Hl), Ha. reflexivity.
Qed.

(** ** The text that reaches the decoder *)

Lemma first_occurrence (c : char) (s : str) :
  In c s -> exists pre rest, s = pre ++ c :: rest /\ ~ In c pre.
Proof.
  induction s as [|x s IH]; intro H; [destruct H|].
  destruct (N.eq_dec x c) as [->|Hx].
  - exists [], s. split; [reflexivity|intros []].
  - destruct H as [H|H]; [contradiction|].
    destruct (IH H) as (pre & rest & -> & Hp).
    exists (x :: pre), rest. split; [reflexivity|].
    intros [K|K]; [contradiction|exact (Hp K)].
Qed.

Lemma last_occurrence (c : char) (s : str) :
  In c s -> exists a post, s = a ++ c :: post /\ ~ In c post.
Proof.
  intro H. apply in_rev in H.
  destruct (first_occurrence c (rev s) H) as (pre & rest & E & Hp).
  exists (rev rest), (rev pre). split.
  - rewrite <- (rev_involutive s), E, rev_app_distr. simpl.
    rewrite <- app_assoc. reflexivity.
  - intro K. apply Hp. apply in_rev. exact K.
Qed.

(** The two ways through lines 272-276. *)
Lemma extract_object_cases (t : str) :
  extract_object t = t
  \/ exists pre mid post,
       t = pre ++ LBRACE :: mid ++ RBRACE :: post
       /\ ~ In LBRACE pre /\ ~ In RBRACE post
       /\ extract_object t = LBRACE :: mid ++ [RBRACE].
Proof.
  destruct (has_char t LBRACE) eqn:H1.
  2:{ left. unfold extract_object. rewrite H1. reflexivity. }
  destruct (has_char t RBRACE) eqn:H2.
  2:{ left. unfold extract_object. rewrite H1, H2. reflexivity. }
  apply has_char_In in H1, H2.
  destruct (first_occurrence _ _ H1) as (pre & rest & E1 & Hpre).
  destruct (last_occurrence _ _ H2) as (a & post & E2 & Hpost).
  assert (E := E1). rewrite E2 in E. symmetry in E.
  apply app_eq_app in E. destruct E as (l & [[Ea El]|[Ea El]]).
  - (* the last closing brace comes before the first opening brace *)
    destruct l as [|x l].
    { simpl in El. discriminate El. }
    left. simpl in El. injection El as Ex El. subst x.
    unfold extract_object.
    assert (find t LBRACE = Z.of_nat (List.length pre)) as Hf.
    { unfold find. rewrite E1, find_from_first by exact Hpre. lia. }
    assert (rfind t RBRACE = Z.of_nat (List.length a)) as Hr.
    { unfold rfind. rewrite E2, rfind_from_last by exact Hpost. lia. }
    rewrite Hf, Hr, Ea, length_app. cbn [List.length].
    destruct (Z.ltb_spec (Z.of_nat (List.length a + S (List.length l)))
                (Z.of_nat (List.length a) + 1)%Z); [lia|].
    destruct (has_char t LBRACE && has_char t RBRACE); reflexivity.
  - destruct l as [|x mid].
    { simpl in El. discriminate El. }
    simpl in El. injection El as Ex El. subst x.
    right. exists pre, mid, post.
    assert (t = pre ++ LBRACE :: mid ++ RBRACE :: post) as Et.
    { rewrite E1, El. reflexivity. }
    split; [exact Et|]. split; [exact Hpre|]. split; [exact Hpost|].
    rewrite Et. apply extract_object_span; assumption.
Qed.

Lemma strip_braced (mid : str) :
  strip (LBRACE :: mid ++ [RBRACE]) = LBRACE :: mid ++ [RBRACE].
Proof.
  unfold strip. rewrite (lstrip_fixed LBRACE _ eq_refl).
  change (LBRACE :: mid ++ [RBRACE]) with ((LBRACE :: mid) ++ RBRACE :: []).
  rewrite (rstrip_app_nonspace _ RBRACE [] eq_refl). reflexivity.
Qed.

(** X7.  The extraction of the embedded object is idempotent: it leaves the
    text as it is, or gives a text that begins with an opening brace and ends
    with a closing one, and extracting again changes nothing. *)
Theorem extract_object_idempotent (t : str) :
  extract_object (extract_object t) = extract_object t
  /\ (extract_object t = t
      \/ exists mid, extract_object t = LBRACE :: mid ++ [RBRACE]).
Proof.
  destruct (extract_object_cases t) as [E|(pre & mid & post & _ & _ & _ & E)].
  - rewrite E. split; [exact E|left; reflexivity].
  - rewrite E. split; [|right; exists mid; reflexivity].
    exact (extract_object_span [] mid [] (fun K => K) (fun K => K)).
Qed.

Lemma strip_fences_stripped s : strip (strip_fences s) = strip_fences s.
Proof. unfold strip_fences, additional_cleanup. apply strip_idem. Qed.

(** X8.  The text that lines 250-276 hand to [json.loads] has no white space
    at either end, and nothing outside its outermost braces is left to
    extract. *)
Theorem clean_is_stripped (text : str) :
  strip (clean text) = clean text
  /\ extract_object (clean text) = clean text.
Proof.
  unfold clean. set (s := strip_fences (strip text)).
  destruct (extract_object_cases s) as [E|(pre & mid & post & _ & _ & _ & E)].
  - rewrite E. split; [apply strip_fences_stripped|exact E].
  - rewrite E. split; [apply strip_braced|].
    exact (extract_object_span [] mid [] (fun K => K) (fun K => K)).
Qed.

Lemma lstrip_snoc (a : str) (c : char) :
  lstrip (a ++ [c]) = match lstrip a with
                      | [] => lstrip [c]
                      | _ :: _ => lstrip a ++ [c]
                      end.
Proof.
  induction a as [|x a IH]; [reflexivity|].
  cbn [app lstrip]. destruct (is_space x); [exact IH|reflexivity].
Qed.

Lemma rstrip_cons (c : char) (s : str) :
  rstrip (c :: s) = match rstrip s with
                    | [] => if is_space c then [] else [c]
                    | _ :: _ => c :: rstrip s
                    end.
Proof.
  unfold rstrip. cbn [rev]. rewrite lstrip_snoc.
  destruct (lstrip (rev s)) as [|y l] eqn:E.
  - simpl. destruct (is_space c); reflexivity.
  - rewrite rev_app_distr. cbn [rev app].
    destruct (rev l ++ [y]) eqn:E2; [|reflexivity].
    destruct (rev l); discriminate.
Qed.

Lemma lstrip_rstrip (s : str) : lstrip (rstrip s) = rstrip (lstrip s).
Proof.
  induction s as [|c s IH]; [reflexivity|].
  destruct (is_space c) eqn:Ec.
  - cbn [lstrip]. rewrite Ec, <- IH, rstrip_cons, Ec.
    destruct (rstrip s); [reflexivity|]. cbn [lstrip]. rewrite Ec. reflexivity.
  - rewrite (lstrip_fixed c s Ec), (rstrip_cons_nonspace c s Ec).
    apply lstrip_fixed. exact Ec.
Qed.

Lemma strip_rstrip (s : str) : strip (rstrip s) = strip s.
Proof. unfold strip. rewrite lstrip_rstrip. apply rstrip_idem. Qed.

Lemma rstrip_prefix (s : str) : exists ws, s = rstrip s ++ ws.
Proof.
  assert (forall t, exists ws, t = ws ++ lstrip t) as K.
  { induction t as [|c t (ws & IH)]; [exists []; reflexivity|].
    cbn [lstrip]. destruct (is_space c).
    - exists (c :: ws). simpl. f_equal. exact IH.
    - exists []. reflexivity. }
  destruct (K (rev s)) as (ws & E). exists (rev ws).
  unfold rstrip. rewrite <- rev_app_distr, <- E, rev_involutive. reflexivity.
Qed.

Lemma startswith_prefix (a b p : str) :
  startswith a p = true -> startswith (a ++ b) p = true.
Proof.
  revert a. induction p as [|x p IH]; intros a H; [reflexivity|].
  destruct a as [|y a]; [discriminate|]. cbn [app startswith] in *.
  apply andb_true_iff in H. destruct H as [H1 H2].
  rewrite H1, (IH a H2). reflexivity.
Qed.

Lemma split_go_no_fence (x : str) : forall cur,
  ~ In BACKTICK x -> split_go (lit "```") x 0 cur = [rev cur ++ x].
Proof.
  change (lit "```") with [BACKTICK; BACKTICK; BACKTICK].
  induction x as [|c x IH]; intros cur H.
  - simpl. rewrite app_nil_r. reflexivity.
  - cbn [split_go]. rewrite startswith_head by (intro K; apply H; left; exact K).
    rewrite IH by (intro K; apply H; right; exact K).
    simpl. rewrite <- app_assoc. reflexivity.
Qed.

(** An opening fence that is never closed. *)
Lemma fenced_part_open (x : str) :
  ~ In BACKTICK x ->
  fenced_part (lit "```" ++ x) = if startswith x (lit "json") then drop 4 x else x.
Proof.
  intro H. unfold fenced_part.
  change (startswith (lit "```" ++ x) (lit "```")) with true. cbn match.
  assert (split (lit "```" ++ x) (lit "```") = [[]; x]) as E.
  { pose proof (split_go_no_fence x [] H) as K. revert K.
    unfold split. change (lit "```") with [BACKTICK; BACKTICK; BACKTICK].
    intro K.
    cbn [app split_go startswith N.eqb Pos.eqb BACKTICK andb List.length Nat.sub rev].
    rewrite K. reflexivity. }
  rewrite E. reflexivity.
Qed.

Lemma strip_open_fence (x : str) :
  strip (lit "```" ++ x) = lit "```" ++ rstrip x.
Proof.
  unfold strip.
  change (lit "```" ++ x) with (BACKTICK :: BACKTICK :: BACKTICK :: x).
  rewrite (lstrip_fixed BACKTICK _ BACKTICK_not_space).
  rewrite !(rstrip_cons_nonspace BACKTICK _ BACKTICK_not_space). reflexivity.
Qed.

Lemma clean_open_fence (x : str) :
  ~ In BACKTICK x ->
  clean (lit "```" ++ x)
  = extract_object
      (strip (if startswith (rstrip x) (lit "json") then drop 4 (rstrip x) else rstrip x)).
Proof.
  intro H.
  assert (~ In BACKTICK (rstrip x)) as Hr by (intro K; exact (H (In_rstrip _ _ K))).
  unfold clean. rewrite strip_open_fence. unfold strip_fences.
  rewrite (fenced_part_open _ Hr). rewrite additional_cleanup_plain; [reflexivity|].
  destruct (startswith (rstrip x) (lit "json")); [|exact Hr].
  intro K. exact (Hr (In_drop _ _ _ K)).
Qed.

(** X9.  A fence that is opened and never closed, as in a reply cut short:
    for a body without backtick, the body after an opening fence with the tag
    [json], and the body after an opening fence without a tag (when it does
    not itself begin with "json"), are interpreted as the body alone is. *)
Theorem unterminated_fence (lim : Limits) (body : str) :
  ~ In BACKTICK body ->
  interpret lim (lit "```json" ++ body) = interpret lim body
  /\ (startswith body (lit "json") = false ->
      interpret lim (lit "```" ++ body) = interpret lim body).
Proof.
  intro Hb. split.
  - apply interpret_clean.
    change (lit "```json" ++ body) with (lit "```" ++ (lit "json" ++ body)).
    rewrite clean_open_fence, (clean_plain body Hb).
    2:{ intro K. apply in_app_or in K. destruct K as [K|K]; [|exact (Hb K)].
        vm_compute in K. intuition discriminate. }
    assert (rstrip (lit "json" ++ body) = lit "json" ++ rstrip body) as E.
    { change (lit "json" ++ body) with (106%N :: 115%N :: 111%N :: 110%N :: body).
      rewrite !rstrip_cons_nonspace by reflexivity. reflexivity. }
    rewrite E. change (startswith (lit "json" ++ rstrip body) (lit "json")) with true.
    cbn match. change (drop 4 (lit "json" ++ rstrip body)) with (rstrip body).
    rewrite strip_rstrip. reflexivity.
  - intro Hj. apply interpret_clean.
    rewrite (clean_open_fence body Hb), (clean_plain body Hb).
    destruct (startswith (rstrip body) (lit "json")) eqn:E.
    + exfalso. destruct (rstrip_prefix body) as (ws & Eb).
      rewrite Eb in Hj. rewrite (startswith_prefix _ ws _ E) in Hj. discriminate.
    + rewrite strip_rstrip. reflexivity.
Qed.

(** A text that does not begin with a backtick keeps all but a closing fence. *)
Lemma strip_fences_no_opening (s : str) :
  (forall r, s <> BACKTICK :: r) ->
  strip_fences s = strip (if endswith s (lit "```") then drop_last 3 s else s).
Proof.
  intro H. unfold strip_fences, fenced_part, additional_cleanup.
  assert (forall p, startswith s (BACKTICK :: p) = false) as K.
  { intro p. destruct s as [|x s]; [reflexivity|].
    apply startswith_head. intro E. subst x. exact (H s eq_refl). }
  change (lit "```") with (BACKTICK :: [BACKTICK; BACKTICK]).
  change (lit "```json") with (BACKTICK :: lit "``json").
  rewrite !K. reflexivity.
Qed.

Lemma fence_before_brace (l t : str) :
  startswith (l ++ RBRACE :: t) (lit "```") = true ->
  exists r, l = lit "```" ++ r.
Proof.
  change (lit "```") with [BACKTICK; BACKTICK; BACKTICK].
  destruct l as [|b1 [|b2 [|b3 r]]]; cbn [app startswith]; intro H.
  - discriminate.
  - destruct (b1 =? BACKTICK)%N; discriminate.
  - destruct (b1 =? BACKTICK)%N; [|discriminate].
    destruct (b2 =? BACKTICK)%N; discriminate.
  - destruct (N.eqb_spec b1 BACKTICK) as [->|]; [|discriminate].
    destruct (N.eqb_spec b2 BACKTICK) as [->|]; [|discriminate].
    destruct (N.eqb_spec b3 BACKTICK) as [->|]; [|discriminate].
    exists r. reflexivity.
Qed.

(** A closing fence after the last closing brace lies in what follows it. *)
Lemma closing_fence_after (a post : str) :
  endswith (a ++ RBRACE :: post) (lit "```") = true ->
  exists post', post = post' ++ lit "```"
    /\ drop_last 3 (a ++ RBRACE :: post) = a ++ RBRACE :: post'.
Proof.
  unfold endswith. rewrite rev_app_distr. cbn [rev]. rewrite <- app_assoc. cbn [app].
  change (rev (lit "```")) with (lit "```").
  intro H. destruct (fence_before_brace _ _ H) as (r & E).
  apply (f_equal (@rev _)) in E. rewrite rev_involutive, rev_app_distr in E.
  change (rev (lit "```")) with (lit "```") in E.
  exists (rev r). split; [exact E|].
  rewrite E. unfold drop_last.
  replace (a ++ RBRACE :: rev r ++ lit "```")
    with ((a ++ RBRACE :: rev r) ++ lit "```")
    by (rewrite <- app_assoc; reflexivity).
  rewrite length_app.
  replace (List.length (a ++ RBRACE :: rev r) + List.length (lit "```") - 3)
    with (List.length (a ++ RBRACE :: rev r) + 0) by (simpl; lia).
  rewrite firstn_app_2. simpl. apply app_nil_r.
Qed.

(** X10.  A reply that does not begin with a fence: whatever stands before
    the first opening brace (prose, an opening fence after prose) and after
    the last closing brace (a closing fence, prose) is dropped, and the reply
    is interpreted as the text from the one brace to the other alone is. *)
Theorem prose_around_object (lim : Limits) (pre mid post : str) :
  ~ In LBRACE pre -> ~ In RBRACE post ->
  (forall r, lstrip pre <> BACKTICK :: r) ->
  clean (pre ++ LBRACE :: mid ++ RBRACE :: post) = LBRACE :: mid ++ [RBRACE]
  /\ interpret lim (pre ++ LBRACE :: mid ++ RBRACE :: post)
     = interpret lim (LBRACE :: mid ++ [RBRACE]).
Proof.
  intros Hpre Hpost Hb.
  assert (forall pre post,
    ~ In LBRACE pre -> ~ In RBRACE post ->
    (forall r, lstrip pre <> BACKTICK :: r) ->
    clean (pre ++ LBRACE :: mid ++ RBRACE :: post) = LBRACE :: mid ++ [RBRACE]) as K.
  { clear pre post Hpre Hpost Hb. intros pre post Hpre Hpost Hb.
    unfold clean.
    assert (strip (pre ++ LBRACE :: mid ++ RBRACE :: post)
            = (lstrip pre ++ LBRACE :: mid) ++ RBRACE :: rstrip post) as Es.
    { unfold strip. rewrite (lstrip_app_nonspace pre LBRACE _ eq_refl).
      replace (lstrip pre ++ LBRACE :: mid ++ RBRACE :: post)
        with ((lstrip pre ++ LBRACE :: mid) ++ RBRACE :: post)
        by (rewrite <- app_assoc; reflexivity).
      apply (rstrip_app_nonspace _ RBRACE post eq_refl). }
    rewrite Es. rewrite strip_fences_no_opening.
    2:{ intros r E. destruct (lstrip pre) as [|x p] eqn:Ep.
        - simpl in E. discriminate.
        - simpl in E. injection E as -> _. exact (Hb p eq_refl). }
    assert (~ In LBRACE (lstrip pre)) as Hp' by (intro X; exact (Hpre (In_lstrip _ _ X))).
    assert (~ In RBRACE (rstrip post)) as Hq' by (intro X; exact (Hpost (In_rstrip _ _ X))).
    destruct (endswith ((lstrip pre ++ LBRACE :: mid) ++ RBRACE :: rstrip post) (lit "```"))
      eqn:Ee.
    - destruct (closing_fence_after _ _ Ee) as (post' & Ep & ->).
      rewrite <- app_assoc. cbn [app].
      apply extract_object_strip; [exact Hp'|].
      intro X. apply Hq'. rewrite Ep. apply in_or_app. left. exact X.
    - rewrite <- app_assoc. cbn [app].
      apply extract_object_strip; assumption. }
  split; [apply K; assumption|].
  apply interpret_clean. rewrite (K pre post Hpre Hpost Hb).
  symmetry. apply (K [] []); [intros []|intros []|discriminate].
Qed.

(** ** The filter and the normalisation *)

Lemma dict_set_absent (d : dict) k v :
  dict_get d k = None -> dict_set d k v = d ++ [(k, v)].
Proof.
  induction d as [|[k0 v0] d IH]; simpl; [reflexivity|].
  destruct (str_eqb k0 k); [discriminate|]. intro H. rewrite (IH H). reflexivity.
Qed.

Lemma dict_set_twice (d : dict) k v v' :
  dict_set (dict_set d k v) k v' = dict_set d k v'.
Proof.
  induction d as [|[k0 v0] d IH]; simpl.
  - rewrite str_eqb_refl. reflexivity.
  - destruct (str_eqb k0 k) eqn:E; simpl; rewrite E; [reflexivity|].
    rewrite IH. reflexivity.
Qed.

Lemma dict_set_present (d : dict) k v :
  dict_get d k = Some v -> dict_set d k v = d.
Proof.
  induction d as [|[k0 v0] d IH]; simpl; [discriminate|].
  destruct (str_eqb k0 k) eqn:E.
  - intro H. injection H as ->. reflexivity.
  - intro H. rewrite (IH H). reflexivity.
Qed.

(** A record that passed the test has a confidence, a number at least 0.7. *)
Lemma kept_is_confident (v c : pyval) :
  get_confidence v = inr c -> ge_threshold c = inr true -> confidence_at_least v.
Proof.
  intros Hc Hg. destruct v as [| | | | | |d]; try discriminate.
  simpl in Hc. destruct (dict_get d (lit "confidence")) as [c'|] eqn:E.
  - injection Hc as ->. exists d, c. split; [reflexivity|]. split; [exact E|].
    assert (is_number c = true) as Hn by (destruct c; try discriminate; reflexivity).
    destruct (ge_threshold_number c Hn) as (b & Hb & Hiff).
    rewrite Hb in Hg. injection Hg as ->. apply Hiff. reflexivity.
  - injection Hc as <-. rewrite ge_threshold_default in Hg. discriminate.
Qed.

(** A record for which the test did not raise is a candidate record. *)
Lemma decided_is_candidate (v c : pyval) (b : bool) :
  get_confidence v = inr c -> ge_threshold c = inr b -> candidate_record v.
Proof.
  intros Hc Hg. destruct v as [| | | | | |d]; try discriminate.
  exists d. split; [reflexivity|]. simpl in Hc.
  destruct (dict_get d (lit "confidence")) as [c'|]; [|exact I].
  injection Hc as ->. destruct c; try discriminate; reflexivity.
Qed.

Lemma filter_vehicles_selected (l : list pyval) :
  Forall candidate_record l ->
  exists kept, filter_vehicles l = inr kept /\ selected confidence_at_least l kept.
Proof.
  induction 1 as [|v l Hv Hl (kept & Hk & Hsel)].
  - exists []. split; [reflexivity|constructor].
  - destruct (candidate_decision v Hv) as (c & b & Hc & Hb & Hiff).
    simpl. rewrite Hc. simpl. rewrite Hb. simpl. rewrite Hk. simpl.
    destruct b.
    + exists (v :: kept). split; [reflexivity|].
      constructor; [apply Hiff; reflexivity|exact Hsel].
    + exists kept. split; [reflexivity|].
      constructor; [|exact Hsel]. intro K. apply Hiff in K. discriminate.
Qed.

Lemma filter_returns_candidates (l : list pyval) : forall kept,
  filter_vehicles l = inr kept -> Forall candidate_record l.
Proof.
  induction l as [|v l IH]; intros kept H; [constructor|].
  simpl in H. unfold bind in H.
  destruct (get_confidence v) as [|c] eqn:Ec; [discriminate|].
  destruct (ge_threshold c) as [|b] eqn:Eg; [discriminate|].
  destruct (filter_vehicles l) as [|filtered] eqn:Ef; [discriminate|].
  constructor.
  - exact (decided_is_candidate v c b Ec Eg).
  - exact (IH filtered eq_refl).
Qed.

(** X11.  The list comprehension at lines 346-349 returns a list exactly
    when every item is a dictionary whose confidence, if it has one, is a
    number; one item that is not makes it raise. *)
Theorem filter_returns_iff_candidates (l : list pyval) :
  (exists kept, filter_vehicles l = inr kept) <-> Forall candidate_record l.
Proof.
  split.
  - intros (kept & H). exact (filter_returns_candidates l kept H).
  - intro H. destruct (filter_vehicles_selected l H) as (kept & Hk & _).
    exists kept. exact Hk.
Qed.

Lemma filter_vehicles_fixed (l : list pyval) :
  (forall v, In v l -> exists c, get_confidence v = inr c /\ ge_threshold c = inr true) ->
  filter_vehicles l = inr l.
Proof.
  induction l as [|v l IH]; intro H; [reflexivity|].
  destruct (H v (or_introl eq_refl)) as (c & Hc & Hg).
  simpl. rewrite Hc. simpl. rewrite Hg. simpl.
  rewrite IH by (intros x Hx; apply H; right; exact Hx). reflexivity.
Qed.

(** X12.  The validation and filter of lines 341-353 is idempotent: applied
    to a result it has returned, it returns that result again. *)
Theorem normalize_idempotent (result r : pyval) :
  normalize result = inr r -> normalize r = inr r.
Proof.
  intro H.
  destruct (normalize_returns _ _ H) as (d & vs & items & kept & -> & _ & _ & Hf & ->).
  unfold normalize, bind. cbn [has_vehicles]. unfold dict_has.
  rewrite dict_get_set_same. cbn [get_vehicles]. rewrite dict_get_set_same.
  cbn [iterate].
  rewrite filter_vehicles_fixed.
  - cbn [set_item]. rewrite dict_set_twice. reflexivity.
  - intros v Hv. exact (proj2 (filter_vehicles_In _ _ Hf v Hv)).
Qed.

Lemma salvage_loop_kept ms : forall acc,
  (forall v, In v acc -> exists c, get_confidence v = inr c /\ ge_threshold c = inr true) ->
  forall v, In v (salvage_loop ms acc) ->
    exists c, get_confidence v = inr c /\ ge_threshold c = inr true.
Proof.
  intros acc Hacc v Hv. apply salvage_loop_In in Hv.
  destruct Hv as [Hv|(p & g & c & _ & _ & Hat & ->)]; [exact (Hacc v Hv)|].
  exists (PFloat c). split; [reflexivity|]. simpl. f_equal.
  apply float_ge_threshold. exact Hat.
Qed.

(** X13.  What the regex salvage returns (lines 311-339), which does not go
    through the validation and filter of lines 341-353, would come out of
    them unchanged: the salvaged records pass the threshold and the result has
    its vehicle list. *)
Theorem salvage_is_normal (parse_error : exn) (response_text : str) :
  normalize (salvage parse_error response_text) = inr (salvage parse_error response_text).
Proof.
  assert (filter_vehicles (salvage_loop (finditer response_text) [])
          = inr (salvage_loop (finditer response_text) [])) as Hf.
  { apply filter_vehicles_fixed. apply salvage_loop_kept. intros v []. }
  unfold salvage. revert Hf.
  destruct (salvage_loop (finditer response_text) []) as [|r rs]; intro Hf.
  - reflexivity.
  - set (msg := PStr (lit "Partial parse: " ++ str_exn parse_error)).
    assert (dict_get [(lit "vehicles", PList (r :: rs)); (lit "error", msg)]
              (lit "vehicles") = Some (PList (r :: rs))) as Hg by reflexivity.
    unfold normalize, bind, has_vehicles, dict_has. rewrite Hg.
    cbn [get_vehicles]. rewrite Hg. cbn [iterate]. rewrite Hf.
    cbn [set_item]. rewrite (dict_set_present _ _ _ Hg). reflexivity.
Qed.

(** X14.  A confidence that is not a float: an integer passes the filter
    exactly when it is at least 1, [true] passes and [false] does not, NaN and
    minus infinity do not pass, infinity does; any value that is not a number
    makes the filter raise a [TypeError]. *)
Theorem confidence_of_other_types (d : dict) (c : pyval) :
  dict_get d (lit "confidence") = Some c ->
  (forall n, c = PInt n ->
     filter_vehicles [PDict d] = inr (if (1 <=? n)%Z then [PDict d] else []))
  /\ (forall b, c = PBool b ->
        filter_vehicles [PDict d] = inr (if b then [PDict d] else []))
  /\ (c = PFloat FNaN -> filter_vehicles [PDict d] = inr [])
  /\ (forall neg, c = PFloat (FInf neg) ->
        filter_vehicles [PDict d] = inr (if neg then [] else [PDict d]))
  /\ (is_number c = false -> exists msg, filter_vehicles [PDict d] = inl (TypeError msg)).
Proof.
  intro Hc.
  assert (forall b, ge_threshold c = inr b ->
            filter_vehicles [PDict d] = inr (if b then [PDict d] else [])) as K.
  { intros b Hb. simpl. rewrite Hc. simpl. rewrite Hb. reflexivity. }
  split; [|split; [|split; [|split]]].
  - intros n ->. rewrite (K (1 <=? n)%Z); [reflexivity|].
    simpl. f_equal. unfold int_ge_float. rewrite CONFIDENCE_THRESHOLD_value.
    cbn [float_ge].
    destruct (Z.leb_spec 1 n) as [H|H].
    + apply Qle_bool_iff. unfold threshold_value, Qle, inject_Z. simpl. lia.
    + destruct (Qle_bool threshold_value (inject_Z n)) eqn:E; [|reflexivity].
      apply Qle_bool_iff in E. unfold threshold_value, Qle, inject_Z in E. simpl in E. lia.
  - intros b ->. rewrite (K b); [reflexivity|]. destruct b; vm_compute; reflexivity.
  - intros ->. exact (K false eq_refl).
  - intros neg ->. rewrite (K (negb neg)); [destruct neg; reflexivity|].
    destruct neg; vm_compute; reflexivity.
  - intro Hn. simpl. rewrite Hc. simpl.
    destruct c; try discriminate; eexists; reflexivity.
Qed.

(** X15.  A ["vehicles"] value that is not a list is iterated all the same:
    an empty string or object counts as no vehicle, a non-empty string or
    object gives its characters or keys, on which [.get] raises an
    [AttributeError], and [null], a boolean or a number raises a [TypeError]
    for not being iterable. *)
Theorem vehicles_not_a_list (d : dict) (v : pyval) :
  dict_get d (lit "vehicles") = Some v ->
  ((v = PStr [] \/ v = PDict []) ->
     normalize (PDict d) = inr (PDict (dict_set d (lit "vehicles") (PList []))))
  /\ ((exists c s, v = PStr (c :: s)) \/ (exists kv r, v = PDict (kv :: r)) ->
        normalize (PDict d)
        = inl (AttributeError (lit "'str' object has no attribute 'get'")))
  /\ (v = PNone \/ (exists b, v = PBool b) \/ (exists n, v = PInt n)
       \/ (exists f, v = PFloat f) ->
        normalize (PDict d)
        = inl (TypeError (lit "'" ++ type_name v ++ lit "' object is not iterable"))).
Proof.
  intro Hv.
  assert (normalize (PDict d)
          = match iterate v with
            | inl e => inl e
            | inr items =>
                match filter_vehicles items with
                | inl e => inl e
                | inr kept => inr (PDict (dict_set d (lit "vehicles") (PList kept)))
                end
            end) as K.
  { unfold normalize, bind, has_vehicles, dict_has. rewrite Hv.
    cbn [get_vehicles]. rewrite Hv. reflexivity. }
  rewrite K. split; [|split].
  - intros [->| ->]; reflexivity.
  - intros [(c & s & ->)|([k x] & r & ->)]; reflexivity.
  - intros [->|[(b & ->)|[(n & ->)|(f & ->)]]]; reflexivity.
Qed.

(** ** The decoded reply, from the model to the envelope *)

Lemma analyze_decoded w image text decoded :
  GEMINI_API_KEY w <> [] -> configure w = None ->
  generate_content w image = inr text ->
  decoded_reply (limits w) text decoded ->
  analyze_image_with_gemini w image
  = match normalize decoded with
    | inr result => inr result
    | inl e => outer_handlers e true
    end.
Proof.
  intros Hk Hc Hg Hd. unfold analyze_image_with_gemini.
  rewrite (get_gemini_model_ok w Hk Hc), Hg, (interpret_decoded _ _ _ Hd). reflexivity.
Qed.

Lemma normalize_error_result decoded e :
  normalize decoded = inl e ->
  exists msg, outer_handlers e true = inr (error_result msg) /\ msg <> [].
Proof.
  intro H. destruct (normalize_raises _ _ H) as (_ & _ & Hm).
  destruct (outer_handlers_cases e true) as [(msg & Ho & Hn)|(msg & _ & _ & Hb)];
    [|discriminate].
  exists msg. split; [exact Ho|exact (Hn Hm)].
Qed.

(** X16.  A reply that decodes to something other than an object (an array,
    a string, a number, [true], [false], [null]) gives an error result: no
    vehicle and a message. *)
Theorem non_object_reply (w : World) (image : Image) (text : str) (decoded : pyval) :
  GEMINI_API_KEY w <> [] -> configure w = None ->
  generate_content w image = inr text ->
  decoded_reply (limits w) text decoded ->
  (forall d, decoded <> PDict d) ->
  exists msg,
    analyze_image_with_gemini w image = inr (error_result msg) /\ msg <> [].
Proof.
  intros Hk Hc Hg Hd Hn. rewrite (analyze_decoded w image text decoded Hk Hc Hg Hd).
  destruct (normalize decoded) as [e|r] eqn:E.
  - exact (normalize_error_result _ _ E).
  - destruct (normalize_returns _ _ E) as (d & _ & _ & _ & -> & _).
    exfalso. exact (Hn d eq_refl).
Qed.

(** X17.  One record of a decoded reply that is no dictionary, or whose
    confidence is no number, costs the whole reply: the result is an error
    result, without any of the other records. *)
Theorem malformed_record_discards_all
    (w : World) (image : Image) (text : str) (d : dict) (l : list pyval) :
  GEMINI_API_KEY w <> [] -> configure w = None ->
  generate_content w image = inr text ->
  decoded_reply (limits w) text (PDict d) ->
  dict_get d (lit "vehicles") = Some (PList l) ->
  ~ Forall candidate_record l ->
  exists msg,
    analyze_image_with_gemini w image = inr (error_result msg) /\ msg <> [].
Proof.
  intros Hk Hc Hg Hd Hv Hbad. rewrite (analyze_decoded w image text _ Hk Hc Hg Hd).
  destruct (normalize (PDict d)) as [e|r] eqn:E.
  - exact (normalize_error_result _ _ E).
  - exfalso. apply Hbad.
    destruct (normalize_returns _ _ E) as (d1 & vs & items & kept & Ed & Hvs & Hi & Hf & _).
    injection Ed as <-. destruct Hvs as [Hvs|[Hvs _]]; rewrite Hv in Hvs; [|discriminate].
    injection Hvs as <-. simpl in Hi. injection Hi as <-.
    exact (filter_returns_candidates _ _ Hf).
Qed.

Lemma normalize_candidates (d : dict) (l : list pyval) :
  dict_get d (lit "vehicles") = Some (PList l) \/
  (dict_get d (lit "vehicles") = None /\ l = []) ->
  Forall candidate_record l ->
  exists kept,
    normalize (PDict d)
      = inr (PDict (dict_set d (lit "vehicles") (PList kept)))
    /\ selected confidence_at_least l kept.
Proof.
  intros Hv Hl. destruct (filter_vehicles_selected l Hl) as (kept & Hf & Hsel).
  exists kept. split; [|exact Hsel].
  unfold normalize, bind, has_vehicles, dict_has.
  destruct Hv as [Hv|[Hv ->]]; rewrite Hv.
  - cbn [get_vehicles]. rewrite Hv. cbn [iterate]. rewrite Hf. reflexivity.
  - cbn [set_item get_vehicles]. rewrite dict_get_set_same. cbn [iterate].
    rewrite Hf. cbn [set_item]. rewrite dict_set_twice. reflexivity.
Qed.

(** X18.  From the model to the envelope, for a reply that decodes (strictly
    or after repair) to an object whose vehicles, if it has any, are candidate
    records: the envelope of [process_image] is that object with the vehicles
    below 0.7 left out, the others kept in their order, and the timestamp set
    to the clock reading with "Z"; every other key of the reply, an ["error"]
    of its own included, is in the envelope with the value the reply gave
    it. *)
Theorem decoded_reply_envelope
    (w : World) (image_input : str) (is_base64 : bool) (image : Image)
    (text : str) (d : dict) (l : list pyval) :
  GEMINI_API_KEY w <> [] ->
  load_image w image_input is_base64 = inr image ->
  configure w = None ->
  generate_content w image = inr text ->
  decoded_reply (limits w) text (PDict d) ->
  dict_get d (lit "vehicles") = Some (PList l) \/
  (dict_get d (lit "vehicles") = None /\ l = []) ->
  Forall candidate_record l ->
  exists kept d',
    process_image w image_input is_base64 = inr (PDict d')
    /\ dict_get d' (lit "vehicles") = Some (PList kept)
    /\ selected confidence_at_least l kept
    /\ dict_get d' (lit "timestamp") = Some (PStr (utcnow_z w))
    /\ forall k, k <> lit "vehicles" -> k <> lit "timestamp" ->
                 dict_get d' k = dict_get d k.
Proof.
  intros Hk Hl Hc Hg Hd Hv Hcand.
  destruct (normalize_candidates d l Hv Hcand) as (kept & Hn & Hsel).
  exists kept. eexists.
  rewrite (process_image_analysis w _ _ image Hk Hl).
  rewrite (analyze_decoded w image text _ Hk Hc Hg Hd), Hn.
  split; [reflexivity|]. split.
  { rewrite dict_get_set_other by exact timestamp_not_vehicles.
    apply dict_get_set_same. }
  split; [exact Hsel|]. split; [apply dict_get_set_same|].
  intros k Hk1 Hk2.
  rewrite dict_get_set_other by (intro E; exact (Hk2 (eq_sym E))).
  apply dict_get_set_other. intro E; exact (Hk1 (eq_sym E)).
Qed.

(** X19.  Whatever the input, the credential, the model and its reply, every
    record in the vehicle list of the envelope that [process_image] returns
    is a dictionary with a confidence, a number at least 0.7. *)
Theorem returned_vehicles_confident (w : World) (image_input : str) (is_base64 : bool) :
  exists result,
    process_image w image_input is_base64 = inr result
    /\ forall v, In v (vehicles_of result) -> confidence_at_least v.
Proof.
  destruct (GEMINI_API_KEY w) as [|k key] eqn:Ek.
  { eexists. split; [unfold process_image; rewrite Ek; reflexivity|]. intros v []. }
  assert (GEMINI_API_KEY w <> []) as Hk by congruence.
  destruct (load_image w image_input is_base64) as [e|image] eqn:El.
  { destruct (load_image_raises _ _ _ _ El) as (msg & -> & _).
    eexists. split.
    - unfold process_image. fold (load_image w image_input is_base64).
      rewrite Ek, El. reflexivity.
    - intros v []. }
  rewrite (process_image_analysis w _ _ image Hk El).
  destruct (analyze_cases w image) as [(d & vs & Ha & Hg)|(msg & Ha & _)]; rewrite Ha.
  - eexists. split; [reflexivity|]. intros v Hv.
    cbn [vehicles_of] in Hv.
    rewrite dict_get_set_other in Hv by exact timestamp_not_vehicles.
    destruct (analyze_vehicles _ _ _ Ha v Hv) as (c & Hc & Hge).
    exact (kept_is_confident v c Hc Hge).
  - eexists. split; [reflexivity|]. intros v [].
Qed.

(** X20.  Past the credential check the timestamp of the envelope is the
    clock reading followed by "Z" on every path, also when the reply carries a
    timestamp of its own. *)
Theorem timestamp_is_clock_reading (w : World) (image_input : str) (is_base64 : bool) :
  GEMINI_API_KEY w <> [] ->
  exists d,
    process_image w image_input is_base64 = inr (PDict d)
    /\ dict_get d (lit "timestamp") = Some (PStr (utcnow_z w))
    /\ endswith (utcnow_z w) (lit "Z") = true.
Proof.
  intro Hk.
  destruct (credential_timestamp w image_input is_base64 Hk) as (d & E & Ht).
  exists d. split; [exact E|]. split; [exact Ht|apply utcnow_z_suffix].
Qed.

(** ** The repair and the salvage on replies cut short *)

Lemma normalize_without_vehicles (d : dict) :
  dict_get d (lit "vehicles") = None ->
  normalize (PDict d) = inr (PDict (d ++ [(lit "vehicles", PList [])])).
Proof.
  intro H. unfold normalize, bind, has_vehicles, dict_has. rewrite H.
  cbn [set_item get_vehicles]. rewrite dict_get_set_same. cbn [iterate filter_vehicles].
  cbn [set_item]. rewrite dict_set_twice, (dict_set_absent _ _ _ H). reflexivity.
Qed.

(** X21.  When the strict decode fails and the text, after the two
    substitutions, ends with an object whose braces pair up, the repair
    decodes that last object alone, whatever stands before it.  If the object
    has no ["vehicles"] key (as the last record of a reply cut short inside
    its vehicle list), the result is that object with an empty vehicle list
    and without error: the records of the reply are not returned and the
    salvage is not attempted. *)
Theorem repair_decodes_last_object
    (w : World) (image : Image) (text pre mid : str) (d : dict) (parse_error : exn) :
  GEMINI_API_KEY w <> [] -> configure w = None ->
  generate_content w image = inr text ->
  json_loads (limits w) (clean text) = inl parse_error ->
  is_JSONDecodeError parse_error = true ->
  fix_trailing_commas (clean text) = pre ++ LBRACE :: mid ++ [RBRACE] ->
  balanced mid ->
  json_loads (limits w) (LBRACE :: mid ++ [RBRACE]) = inr (PDict d) ->
  dict_get d (lit "vehicles") = None ->
  analyze_image_with_gemini w image
  = inr (PDict (d ++ [(lit "vehicles", PList [])])).
Proof.
  intros Hk Hc Hg H1 Hj Hfix Hb Hv Hd.
  assert (decoded_reply (limits w) text (PDict d)) as Hdec.
  { right. exists parse_error. split; [exact H1|]. split; [exact Hj|].
    exact (proj2 (repair_decodes_span _ parse_error _ pre mid Hfix Hb) _ Hv). }
  rewrite (analyze_decoded w image text _ Hk Hc Hg Hdec).
  rewrite (normalize_without_vehicles d Hd). reflexivity.
Qed.

Lemma In_re_sub_go (close c : char) (s : str) : forall skip,
  In c (re_sub_go close s skip) -> In c s.
Proof.
  induction s as [|x s IH]; intros skip H; [exact H|].
  cbn [re_sub_go] in H. destruct skip as [|k].
  - destruct (x =? COMMA)%N.
    + destruct (ws_then close s) as [n|].
      * right. exact (IH n H).
      * destruct H as [H|H]; [left; exact H|right; exact (IH 0 H)].
    + destruct H as [H|H]; [left; exact H|right; exact (IH 0 H)].
  - right. exact (IH k H).
Qed.

Lemma In_fix_trailing_commas (c : char) (s : str) :
  In c (fix_trailing_commas s) -> In c s.
Proof.
  unfold fix_trailing_commas, re_sub_trailing. intro H.
  apply In_re_sub_go in H. apply In_re_sub_go in H. exact H.
Qed.

(** Without a closing brace there is nothing to repair. *)
Lemma repair_without_brace lim parse_error t :
  ~ In RBRACE t -> repair lim parse_error t = inl parse_error.
Proof.
  intro H. unfold repair.
  assert (rfind (fix_trailing_commas t) RBRACE = (-1)%Z) as E.
  { unfold rfind. apply rfind_from_absent.
    intro K. exact (H (In_fix_trailing_commas _ _ K)). }
  rewrite E. reflexivity.
Qed.

(** X22.  A reply without any closing brace (cut short inside its first
    record) that the strict decode rejects goes straight to the salvage: the
    repair has nothing to match and raises the error of the strict decode
    again, and the result is what the salvage makes of the cleaned text. *)
Theorem no_closing_brace_salvaged
    (w : World) (image : Image) (text : str) (parse_error : exn) :
  GEMINI_API_KEY w <> [] -> configure w = None ->
  generate_content w image = inr text ->
  ~ In RBRACE (clean text) ->
  json_loads (limits w) (clean text) = inl parse_error ->
  is_JSONDecodeError parse_error = true ->
  analyze_image_with_gemini w image = inr (salvage parse_error (clean text)).
Proof.
  intros Hk Hc Hg Hb H1 Hj.
  apply (analyze_reply w image text _ (get_gemini_model_ok w Hk Hc) Hg).
  apply interpret_undecodable. split; [exact H1|]. split; [exact Hj|].
  exists parse_error. split; [exact (repair_without_brace _ _ _ Hb)|].
  exact (is_JSONDecodeError_ValueError _ Hj).
Qed.

(** ** The input read from a file *)

(** X23.  With [--base64-file] alone, [main] runs as with [--base64] and the
    stripped content of the file, provided that content is not empty.  On an
    empty or blank file the two differ: [main] still analyses the empty text
    and emits its envelope, where an empty [--base64] ends the run with
    status 1. *)
Theorem base64_file_as_base64 (w : World) (args : Args) (data : str) :
  truthy (image args) = false -> truthy (base64 args) = false ->
  truthy (base64_file args) = true ->
  read_text w (arg (base64_file args)) = inr data ->
  let inline := {| image := None; base64 := Some (strip data);
                   base64_file := None; output := output args |} in
  (strip data <> [] -> main w args = main w inline)
  /\ (strip data = [] ->
      main w inline = SysExit 1
      /\ exists result,
           process_image w [] true = inr result
           /\ main w args = emit w args result).
Proof.
  intros Hi Hb Hf Hr inline.
  assert (main w args
          = match process_image w (strip data) true with
            | inr result => emit w args result
            | inl _ => SysExit 1
            end) as Hm.
  { unfold main. rewrite Hi, Hb, Hf, Hr. reflexivity. }
  destruct (process_image_total w (strip data) true) as (result & Hp).
  rewrite Hp in Hm. split.
  - intro Hn. rewrite Hm. unfold main, inline.
    destruct (strip data) as [|c s] eqn:Es; [congruence|].
    cbn [image base64 base64_file truthy negb andb Nat.b2n Nat.add Nat.ltb Nat.leb arg].
    rewrite Hp. reflexivity.
  - intro He. split.
    + unfold main, inline. rewrite He. reflexivity.
    + exists result. rewrite He in Hp. split; [exact Hp|exact Hm].
Qed.

(** ** The service on sample replies *)

(** A well-formed reply comes back as it is, with a timestamp and without an
    error. *)
Example reply_passes_through :
  let reply :=
    dq "{'vehicles':[{'plateNumber':'ABC-1234','confidence':0.95,'bbox':[0.1,0.2,0.3,0.4],'class_name':'car','plateVisible':true}]}" in
  process_image (sample_world (lit "key") (inr reply) (inr (ImageOf [])) None)
    (lit "aGk=") true
  = inr (PDict
           [ (lit "vehicles",
               PList [ PDict [ (lit "plateNumber", PStr (lit "ABC-1234"));
                               (lit "confidence", PFloat (float_of_decimal false 95 (-2)));
                               (lit "bbox",
                                 PList [ PFloat (float_of_decimal false 1 (-1));
                                         PFloat (float_of_decimal false 2 (-1));
                                         PFloat (float_of_decimal false 3 (-1));
                                         PFloat (float_of_decimal false 4 (-1)) ]);
                               (lit "class_name", PStr (lit "car"));
                               (lit "plateVisible", PBool true) ] ]);
             (lit "timestamp", PStr (lit "2025-03-09T14:05:07.001500Z")) ]).
Proof. vm_compute. reflexivity. Qed.

(** A fenced reply with an empty vehicle list. *)
Example fenced_empty_reply :
  let reply := lit "```json" ++ [NEWLINE] ++ dq "{'vehicles':[]}" ++ [NEWLINE] ++ lit "```" in
  process_image (sample_world (lit "key") (inr reply) (inr (ImageOf [])) None)
    (lit "aGk=") true
  = inr (PDict [ (lit "vehicles", PList []);
                 (lit "timestamp", PStr (lit "2025-03-09T14:05:07.001500Z")) ]).
Proof. vm_compute. reflexivity. Qed.

(** Of a record at 0.5 and one at 0.8 the second is returned. *)
Example low_confidence_dropped :
  let reply :=
    dq "{'vehicles':[{'plateNumber':'AAA 111','confidence':0.5},{'plateNumber':'BBB 222','confidence':0.8}]}" in
  process_image (sample_world (lit "key") (inr reply) (inr (ImageOf [])) None)
    (lit "aGk=") true
  = inr (PDict
           [ (lit "vehicles",
               PList [ PDict [ (lit "plateNumber", PStr (lit "BBB 222"));
                               (lit "confidence", PFloat (float_of_decimal false 8 (-1))) ] ]);
             (lit "timestamp", PStr (lit "2025-03-09T14:05:07.001500Z")) ]).
Proof. vm_compute. reflexivity. Qed.

(** A reply that is not JSON and holds no vehicle fragment. *)
Example gibberish_reply :
  process_image
    (sample_world (lit "key") (inr (lit "no vehicles today")) (inr (ImageOf [])) None)
    (lit "aGk=") true
  = inr (envelope []
           (lit "Failed to parse AI response: Expecting value: line 1 column 1 (char 0)")
           (lit "2025-03-09T14:05:07.001500Z")).
Proof. vm_compute. reflexivity. Qed.

(** A reply nested too deep for the interpreter is not salvaged: the
    [RecursionError] of the decoder is no [ValueError], and the handler for
    [RuntimeError] of the outer [try] reports it. *)
Example deep_reply_not_salvaged :
  let reply := dq "{'plateNumber':'ABC 123','confidence':0.9,'bbox':[[[[0]]]]}" in
  let w := set_limits (sample_world (lit "key") (inr reply) (inr (ImageOf [])) None)
             shallow_limits in
  finditer (clean reply) = [(lit "ABC 123", lit "0.9")]
  /\ analyze_image_with_gemini w (ImageOf [])
     = inr (error_result
              (lit "maximum recursion depth exceeded while decoding a JSON array from a unicode string")).
Proof. vm_compute. split; reflexivity. Qed.

(** So is a reply with an [int] literal longer than the interpreter
    converts, when the strict decode meets it. *)
Example long_int_reply_not_salvaged :
  let reply := dq "{'plateNumber':'ABC 123','confidence':0.9,'id':"
                 ++ repeat (ch "7") 4301 ++ lit "}" in
  let w := sample_world (lit "key") (inr reply) (inr (ImageOf [])) None in
  finditer (clean reply) = [(lit "ABC 123", lit "0.9")]
  /\ analyze_image_with_gemini w (ImageOf [])
     = inr (error_result (str_exn (int_limit_error default_limits 4301))).
Proof. vm_compute. split; reflexivity. Qed.

(** ** The theorems at concrete inputs *)

Lemma threshold_filter_exact_witness :
  Forall candidate_record sample_records
  /\ exists kept,
       filter_vehicles sample_records = inr kept
       /\ selected confidence_at_least sample_records kept
       /\ (forall v, In v kept <-> In v sample_records /\ confidence_at_least v).
Proof.
  assert (Forall candidate_record sample_records) as H.
  { repeat constructor; eexists; (split; [reflexivity|reflexivity]). }
  split; [exact H|exact (threshold_filter_exact sample_records H)].
Defined.


Lemma missing_confidence_dropped_witness :
  let d := [ (lit "plateNumber", PStr (lit "ABC 123")) ] in
  dict_get d (lit "confidence") = None
  /\ get_confidence (PDict d) = inr (PFloat (FFin 0))
  /\ ge_threshold (PFloat (FFin 0)) = inr false
  /\ (forall l kept, filter_vehicles l = inr kept -> ~ In (PDict d) kept)
  /\ (forall w img result,
        analyze_image_with_gemini w img = inr result ->
        ~ In (PDict d) (vehicles_of result)).
Proof.
  intro d. split; [reflexivity|].
  exact (missing_confidence_dropped d eq_refl).
Defined.

Lemma plate_visible_by_path_witness :
  let r := salvaged_record (lit "NONE") (float_of_decimal false 9 (-1)) in
  let result :=
    PDict [ (lit "vehicles", PList [r]);
            (lit "error",
              PStr (lit "Partial parse: Expecting value: line 1 column 65 (char 64)")) ] in
  let w := sample_world (lit "key") (inr truncated_reply) (inr (ImageOf [])) None in
  generate_content w (ImageOf []) = inr truncated_reply
  /\ analyze_image_with_gemini w (ImageOf []) = inr result
  /\ In r (vehicles_of result)
  /\ ((exists decoded, decoded_reply (limits w) truncated_reply decoded)
      \/ (exists parse_error, undecodable (limits w) truncated_reply parse_error))
  /\ (forall parse_error, undecodable (limits w) truncated_reply parse_error ->
        exists plate pv,
          field r (lit "plateNumber") = Some (PStr plate)
          /\ field r (lit "plateVisible") = Some (PBool pv)
          /\ (upper plate = lit "NONE" -> pv = false)
          /\ (upper plate <> lit "NONE" -> upper plate <> lit "BLUR" -> pv = true))
  /\ (forall decoded, decoded_reply (limits w) truncated_reply decoded ->
        In r (vehicles_of decoded)).
Proof.
  intros r result w.
  assert (generate_content w (ImageOf []) = inr truncated_reply) as H0 by reflexivity.
  assert (analyze_image_with_gemini w (ImageOf []) = inr result) as H1
    by (vm_compute; reflexivity).
  assert (In r (vehicles_of result)) as H2 by (left; reflexivity).
  split; [exact H0|]. split; [exact H1|]. split; [exact H2|].
  exact (plate_visible_by_path w (ImageOf []) truncated_reply result r H0 H1 H2).
Defined.

Lemma missing_credential_timestamp_witness :
  let w := sample_world [] (inr []) (inr (ImageOf [])) None in
  GEMINI_API_KEY w = []
  /\ process_image w (lit "aGk=") true
     = inr (envelope [] (lit "GEMINI_API_KEY is not set in environment")
              (isoformat (clock w) ++ lit "+00:00"))
  /\ endswith (isoformat (clock w) ++ lit "+00:00") (lit "Z") = false.
Proof.
  intro w. split; [reflexivity|].
  exact (missing_credential_timestamp w (lit "aGk=") true eq_refl).
Defined.

Lemma fenced_reply_witness :
  let lim := default_limits in
  let body := dq "{'vehicles':[]}" in
  ~ In BACKTICK body
  /\ interpret lim (lit "```json" ++ body ++ lit "```") = interpret lim body
  /\ (startswith body (lit "json") = false ->
      interpret lim (lit "```" ++ body ++ lit "```") = interpret lim body)
  /\ (forall tag pre mid post,
        ~ In BACKTICK tag -> ~ In LBRACE tag ->
        body = pre ++ (LBRACE :: mid ++ [RBRACE]) ++ post ->
        ~ In LBRACE pre -> ~ In RBRACE post ->
        interpret lim (lit "```" ++ tag ++ body ++ lit "```") = interpret lim body).
Proof.
  intros lim body.
  assert (~ In BACKTICK body) as H.
  { intro K. vm_compute in K. intuition discriminate. }
  split; [exact H|exact (fenced_reply lim body H)].
Defined.

Lemma repair_removes_separators_witness :
  let lim := default_limits in
  let a := dq "'plateNumber':'ABC 123','confidence':0.9" in
  let mid := dq "'vehicles':[" ++ (LBRACE :: a ++ RBRACE :: lit "]") in
  let j := LBRACE :: mid ++ [RBRACE] in
  let m := dq "{'vehicles':[{'plateNumber':'ABC 123','confidence':0.9}, ]}" in
  let v := PDict [ (lit "vehicles",
                     PList [ PDict [ (lit "plateNumber", PStr (lit "ABC 123"));
                                     (lit "confidence",
                                       PFloat (float_of_decimal false 9 (-1))) ] ]) ] in
  let parse_error :=
    JSONDecodeError (lit "Expecting property name enclosed in double quotes")
      trailing_commas_reply 55 in
  json_loads lim trailing_commas_reply = inl parse_error
  /\ (inserted RBRACKET j m /\ inserted RBRACE m trailing_commas_reply
      /\ has_trailing RBRACE j = false /\ has_trailing RBRACKET j = false
      /\ balanced mid /\ json_loads lim j = inr v)
  /\ fix_trailing_commas trailing_commas_reply = j
  /\ repair lim parse_error trailing_commas_reply = inr v.
Proof.
  intros lim a mid j m v parse_error.
  assert (inserted RBRACKET j m) as H1.
  { vm_compute.
    repeat first [ apply inserted_nil | apply inserted_keep
                 | apply (inserted_comma _ [32%N]); [repeat constructor|] ]. }
  assert (inserted RBRACE m trailing_commas_reply) as H2.
  { vm_compute.
    repeat first [ apply inserted_nil | apply inserted_keep
                 | apply (inserted_comma _ [32%N]); [repeat constructor|]
                 | apply (inserted_comma _ []); [constructor|] ]. }
  assert (has_trailing RBRACE j = false) as H3 by (vm_compute; reflexivity).
  assert (has_trailing RBRACKET j = false) as H4 by (vm_compute; reflexivity).
  assert (balanced mid) as H5.
  { apply balanced_plain; [reflexivity|].
    apply balanced_nest; apply balanced_braceless; reflexivity. }
  assert (json_loads lim j = inr v) as H6 by (vm_compute; reflexivity).
  split; [vm_compute; reflexivity|].
  split; [repeat split; assumption|].
  exact (repair_removes_separators lim parse_error j m trailing_commas_reply mid v
           H1 H2 H3 H4 eq_refl H5 H6).
Defined.

Lemma base64_header_stripped_witness :
  let w := sample_world (lit "key") (inr []) (inr (ImageOf [])) None in
  let header := lit "data:image/png;base64" in
  let payload := lit "aGk=" in
  (~ In COMMA header /\ ~ In COMMA payload)
  /\ load_image_from_base64 w payload = inr (ImageOf payload)
  /\ load_image_from_base64 w (header ++ COMMA :: payload) = inr (ImageOf payload).
Proof.
  intros w header payload.
  assert (~ In COMMA header) as H1.
  { intro K. vm_compute in K. intuition discriminate. }
  assert (~ In COMMA payload) as H2.
  { intro K. vm_compute in K. intuition discriminate. }
  split; [split; assumption|].
  exact (base64_header_stripped w header payload H1 H2).
Defined.

Lemma base64_second_comma_cuts_witness :
  let w := sample_world (lit "key") (inr []) (inr (ImageOf [])) None in
  let header := lit "data:image/png;base64" in
  let payload := lit "aGk=" in
  let rest := lit "bGs=" in
  (~ In COMMA header /\ ~ In COMMA payload)
  /\ load_image_from_base64 w (header ++ COMMA :: payload ++ COMMA :: rest)
     = inr (ImageOf payload).
Proof.
  intros w header payload rest.
  assert (~ In COMMA header) as H1.
  { intro K. vm_compute in K. intuition discriminate. }
  assert (~ In COMMA payload) as H2.
  { intro K. vm_compute in K. intuition discriminate. }
  split; [split; assumption|].
  exact (base64_second_comma_cuts w header payload rest H1 H2).
Defined.

Lemma load_failure_envelope_witness :
  let e := OtherError (lit "[Errno 2] No such file or directory: 'missing.jpg'") in
  let w := sample_world (lit "key") (inr []) (inl e) None in
  (GEMINI_API_KEY w <> [] /\ open_image w (lit "missing.jpg") = inl e)
  /\ process_image w (lit "missing.jpg") false
     = inr (envelope []
              (lit "Failed to load image: Failed to load image from file: [Errno 2] No such file or directory: 'missing.jpg'")
              (lit "2025-03-09T14:05:07.001500Z")).
Proof.
  intros e w.
  assert (GEMINI_API_KEY w <> []) as Hk by discriminate.
  assert (open_image w (lit "missing.jpg") = inl e) as Ho by reflexivity.
  split; [split; assumption|].
  exact (load_failure_envelope w (lit "missing.jpg") false e Hk Ho).
Defined.

Lemma model_init_failure_witness :
  let e := OtherError (lit "API key not valid") in
  let w := set_configure
             (sample_world (lit "key") (inr []) (inr (ImageOf [])) None) (Some e) in
  (GEMINI_API_KEY w <> []
   /\ load_image w (lit "aGk=") true = inr (ImageOf (lit "aGk="))
   /\ configure w = Some e)
  /\ process_image w (lit "aGk=") true
     = inr (envelope [] (lit "Failed to initialize Gemini model: API key not valid")
              (utcnow_z w)).
Proof.
  intros e w.
  assert (GEMINI_API_KEY w <> []) as Hk by discriminate.
  assert (load_image w (lit "aGk=") true = inr (ImageOf (lit "aGk="))) as Hl
    by reflexivity.
  assert (configure w = Some e) as Hc by reflexivity.
  split; [split; [exact Hk|split; [exact Hl|exact Hc]]|].
  exact (model_init_failure w (lit "aGk=") true _ e Hk Hl Hc).
Defined.

Lemma upstream_quota_message_witness :
  let e := OtherError (lit "Quota exceeded for model") in
  let w := sample_world (lit "key") (inl e) (inr (ImageOf [])) None in
  (GEMINI_API_KEY w <> [] /\ configure w = None
   /\ generate_content w (ImageOf []) = inl e
   /\ is_JSONDecodeError e = false)
  /\ analyze_image_with_gemini w (ImageOf []) = inr (error_result quota_message).
Proof.
  intros e w.
  assert (GEMINI_API_KEY w <> []) as Hk by discriminate.
  assert (configure w = None) as Hc by reflexivity.
  assert (generate_content w (ImageOf []) = inl e) as Hg by reflexivity.
  assert (is_JSONDecodeError e = false) as Hj by reflexivity.
  split; [split; [exact Hk|split; [exact Hc|split; [exact Hg|exact Hj]]]|].
  apply (proj1 (upstream_quota_message w (ImageOf []) e Hk Hc Hg Hj)); [reflexivity|].
  left. exists [], (lit "Quota"), (lit " exceeded for model").
  split; reflexivity.
Defined.

Lemma upstream_decode_error_lost_witness :
  let e := JSONDecodeError (lit "Expecting value") [] 0 in
  let w := sample_world (lit "key") (inl e) (inr (ImageOf [])) None in
  let image := ImageOf (lit "aGk=") in
  (GEMINI_API_KEY w <> []
   /\ load_image w (lit "aGk=") true = inr image
   /\ configure w = None
   /\ generate_content w image = inl e
   /\ is_JSONDecodeError e = true)
  /\ analyze_image_with_gemini w image = inl (OtherError unbound_response_text)
  /\ process_image w (lit "aGk=") true
     = inr (envelope [] unbound_response_text (utcnow_z w)).
Proof.
  intros e w image.
  assert (GEMINI_API_KEY w <> []) as Hk by discriminate.
  assert (load_image w (lit "aGk=") true = inr image) as Hl by reflexivity.
  assert (configure w = None) as Hc by reflexivity.
  assert (generate_content w image = inl e) as Hg by reflexivity.
  assert (is_JSONDecodeError e = true) as Hj by reflexivity.
  split; [split; [exact Hk|split; [exact Hl|split; [exact Hc|split; [exact Hg|exact Hj]]]]|].
  exact (upstream_decode_error_lost w (lit "aGk=") true image e Hk Hl Hc Hg Hj).
Defined.

Lemma unterminated_fence_witness :
  let lim := default_limits in
  let body := NEWLINE :: dq "{'vehicles':[]}" in
  ~ In BACKTICK body
  /\ interpret lim (lit "```json" ++ body) = interpret lim body
  /\ (startswith body (lit "json") = false ->
      interpret lim (lit "```" ++ body) = interpret lim body).
Proof.
  intros lim body.
  assert (~ In BACKTICK body) as H.
  { intro K. vm_compute in K. intuition discriminate. }
  split; [exact H|exact (unterminated_fence lim body H)].
Defined.

Lemma prose_around_object_witness :
  let lim := default_limits in
  let pre := lit "Here is the result: ```json" ++ [NEWLINE] in
  let mid := dq "'vehicles':[]" in
  let post := NEWLINE :: lit "``` I hope this helps." in
  (~ In LBRACE pre /\ ~ In RBRACE post /\ (forall r, lstrip pre <> BACKTICK :: r))
  /\ clean (pre ++ LBRACE :: mid ++ RBRACE :: post) = LBRACE :: mid ++ [RBRACE]
  /\ interpret lim (pre ++ LBRACE :: mid ++ RBRACE :: post)
     = interpret lim (LBRACE :: mid ++ [RBRACE]).
Proof.
  intros lim pre mid post.
  assert (~ In LBRACE pre) as H1.
  { intro K. vm_compute in K. intuition discriminate. }
  assert (~ In RBRACE post) as H2.
  { intro K. vm_compute in K. intuition discriminate. }
  assert (forall r, lstrip pre <> BACKTICK :: r) as H3.
  { intros r K. vm_compute in K. discriminate. }
  split; [split; [exact H1|split; [exact H2|exact H3]]|].
  exact (prose_around_object lim pre mid post H1 H2 H3).
Defined.

Lemma normalize_idempotent_witness :
  let result := PDict [ (lit "vehicles", PList sample_records);
                        (lit "note", PStr (lit "two cars")) ] in
  let r := PDict [ (lit "vehicles",
                     PList [ PDict [ (lit "plateNumber", PStr (lit "BBB 222"));
                                     (lit "confidence",
                                       PFloat (float_of_decimal false 8 (-1))) ] ]);
                   (lit "note", PStr (lit "two cars")) ] in
  normalize result = inr r /\ normalize r = inr r.
Proof.
  intros result r.
  assert (normalize result = inr r) as H by (vm_compute; reflexivity).
  split; [exact H|exact (normalize_idempotent result r H)].
Defined.

Lemma confidence_of_other_types_witness :
  let d := [ (lit "plateNumber", PStr (lit "ABC 123"));
             (lit "confidence", PInt 1) ] in
  dict_get d (lit "confidence") = Some (PInt 1)
  /\ filter_vehicles [PDict d] = inr [PDict d].
Proof.
  intro d.
  assert (dict_get d (lit "confidence") = Some (PInt 1)) as H by reflexivity.
  split; [exact H|].
  exact (proj1 (confidence_of_other_types d (PInt 1) H) 1%Z eq_refl).
Defined.

Lemma vehicles_not_a_list_witness :
  let d := [ (lit "vehicles", PNone) ] in
  dict_get d (lit "vehicles") = Some PNone
  /\ normalize (PDict d) = inl (TypeError (lit "'NoneType' object is not iterable")).
Proof.
  intro d.
  assert (dict_get d (lit "vehicles") = Some PNone) as H by reflexivity.
  split; [exact H|].
  exact (proj2 (proj2 (vehicles_not_a_list d PNone H)) (or_introl eq_refl)).
Defined.

Lemma non_object_reply_witness :
  let text := lit "[]" in
  let w := sample_world (lit "key") (inr text) (inr (ImageOf [])) None in
  let image := ImageOf [] in
  (GEMINI_API_KEY w <> [] /\ configure w = None
   /\ generate_content w image = inr text
   /\ decoded_reply (limits w) text (PList [])
   /\ (forall d, PList [] <> PDict d))
  /\ exists msg,
       analyze_image_with_gemini w image = inr (error_result msg) /\ msg <> [].
Proof.
  intros text w image.
  assert (GEMINI_API_KEY w <> []) as Hk by discriminate.
  assert (configure w = None) as Hc by reflexivity.
  assert (generate_content w image = inr text) as Hg by reflexivity.
  assert (decoded_reply (limits w) text (PList [])) as Hd
    by (left; vm_compute; reflexivity).
  assert (forall d, PList [] <> PDict d) as Hn by discriminate.
  split; [split; [exact Hk|split; [exact Hc|split; [exact Hg|split; [exact Hd|exact Hn]]]]|].
  exact (non_object_reply w image text (PList []) Hk Hc Hg Hd Hn).
Defined.

Lemma malformed_record_discards_all_witness :
  let text := reply_with_worded_confidence in
  let w := sample_world (lit "key") (inr text) (inr (ImageOf [])) None in
  let image := ImageOf [] in
  let l := [ PDict [ (lit "plateNumber", PStr (lit "ABC 123"));
                     (lit "confidence", PFloat (float_of_decimal false 9 (-1))) ];
             PDict [ (lit "plateNumber", PStr (lit "XYZ 789"));
                     (lit "confidence", PStr (lit "high")) ] ] in
  let d := [ (lit "vehicles", PList l) ] in
  (GEMINI_API_KEY w <> [] /\ configure w = None
   /\ generate_content w image = inr text
   /\ decoded_reply (limits w) text (PDict d)
   /\ dict_get d (lit "vehicles") = Some (PList l)
   /\ ~ Forall candidate_record l)
  /\ exists msg,
       analyze_image_with_gemini w image = inr (error_result msg) /\ msg <> [].
Proof.
  intros text w image l d.
  assert (GEMINI_API_KEY w <> []) as Hk by discriminate.
  assert (configure w = None) as Hc by reflexivity.
  assert (generate_content w image = inr text) as Hg by reflexivity.
  assert (decoded_reply (limits w) text (PDict d)) as Hd
    by (left; vm_compute; reflexivity).
  assert (dict_get d (lit "vehicles") = Some (PList l)) as Hv by reflexivity.
  assert (~ Forall candidate_record l) as Hbad.
  { intro K. apply Forall_inv_tail in K. apply Forall_inv in K.
    destruct K as (d' & E & Hn). injection E as <-. discriminate Hn. }
  split; [split; [exact Hk|split; [exact Hc|split; [exact Hg|split;
            [exact Hd|split; [exact Hv|exact Hbad]]]]]|].
  exact (malformed_record_discards_all w image text d l Hk Hc Hg Hd Hv Hbad).
Defined.

Lemma decoded_reply_envelope_witness :
  let text := reply_with_note in
  let w := sample_world (lit "key") (inr text) (inr (ImageOf [])) None in
  let image := ImageOf (lit "aGk=") in
  let d := [ (lit "vehicles", PList sample_records);
             (lit "note", PStr (lit "two cars")) ] in
  (GEMINI_API_KEY w <> []
   /\ load_image w (lit "aGk=") true = inr image
   /\ configure w = None
   /\ generate_content w image = inr text
   /\ decoded_reply (limits w) text (PDict d)
   /\ dict_get d (lit "vehicles") = Some (PList sample_records)
   /\ Forall candidate_record sample_records)
  /\ exists kept d',
       process_image w (lit "aGk=") true = inr (PDict d')
       /\ dict_get d' (lit "vehicles") = Some (PList kept)
       /\ selected confidence_at_least sample_records kept
       /\ dict_get d' (lit "timestamp") = Some (PStr (utcnow_z w))
       /\ forall k, k <> lit "vehicles" -> k <> lit "timestamp" ->
                    dict_get d' k = dict_get d k.
Proof.
  intros text w image d.
  assert (GEMINI_API_KEY w <> []) as Hk by discriminate.
  assert (load_image w (lit "aGk=") true = inr image) as Hl by reflexivity.
  assert (configure w = None) as Hc by reflexivity.
  assert (generate_content w image = inr text) as Hg by reflexivity.
  assert (decoded_reply (limits w) text (PDict d)) as Hd
    by (left; vm_compute; reflexivity).
  assert (dict_get d (lit "vehicles") = Some (PList sample_records)) as Hv
    by reflexivity.
  assert (Forall candidate_record sample_records) as Hcand.
  { repeat constructor; eexists; (split; [reflexivity|reflexivity]). }
  split; [split; [exact Hk|split; [exact Hl|split; [exact Hc|split; [exact Hg|split;
            [exact Hd|split; [exact Hv|exact Hcand]]]]]]|].
  exact (decoded_reply_envelope w (lit "aGk=") true image text d sample_records
           Hk Hl Hc Hg Hd (or_introl Hv) Hcand).
Defined.

Lemma timestamp_is_clock_reading_witness :
  let w := sample_world (lit "key")
             (inr (dq "{'vehicles':[],'timestamp':'1999-12-31T23:59:59Z'}"))
             (inr (ImageOf [])) None in
  GEMINI_API_KEY w <> []
  /\ exists d,
       process_image w (lit "aGk=") true = inr (PDict d)
       /\ dict_get d (lit "timestamp") = Some (PStr (utcnow_z w))
       /\ endswith (utcnow_z w) (lit "Z") = true.
Proof.
  intro w.
  assert (GEMINI_API_KEY w <> []) as Hk by discriminate.
  split; [exact Hk|exact (timestamp_is_clock_reading w (lit "aGk=") true Hk)].
Defined.

Lemma repair_decodes_last_object_witness :
  let text := reply_cut_after_record in
  let w := sample_world (lit "key") (inr text) (inr (ImageOf [])) None in
  let image := ImageOf [] in
  let pre := dq "{'vehicles':[" in
  let mid := dq "'plateNumber':'ABC 123','confidence':0.9" in
  let d := [ (lit "plateNumber", PStr (lit "ABC 123"));
             (lit "confidence", PFloat (float_of_decimal false 9 (-1))) ] in
  let parse_error := JSONDecodeError (lit "Expecting ',' delimiter") text 55 in
  (GEMINI_API_KEY w <> [] /\ configure w = None
   /\ generate_content w image = inr text
   /\ json_loads (limits w) (clean text) = inl parse_error
   /\ is_JSONDecodeError parse_error = true
   /\ fix_trailing_commas (clean text) = pre ++ LBRACE :: mid ++ [RBRACE]
   /\ balanced mid
   /\ json_loads (limits w) (LBRACE :: mid ++ [RBRACE]) = inr (PDict d)
   /\ dict_get d (lit "vehicles") = None)
  /\ analyze_image_with_gemini w image
     = inr (PDict (d ++ [(lit "vehicles", PList [])])).
Proof.
  intros text w image pre mid d parse_error.
  assert (GEMINI_API_KEY w <> []) as Hk by discriminate.
  assert (configure w = None) as Hc by reflexivity.
  assert (generate_content w image = inr text) as Hg by reflexivity.
  assert (json_loads (limits w) (clean text) = inl parse_error) as H1
    by (vm_compute; reflexivity).
  assert (is_JSONDecodeError parse_error = true) as Hj by reflexivity.
  assert (fix_trailing_commas (clean text) = pre ++ LBRACE :: mid ++ [RBRACE]) as Hf
    by (vm_compute; reflexivity).
  assert (balanced mid) as Hb by (apply balanced_braceless; reflexivity).
  assert (json_loads (limits w) (LBRACE :: mid ++ [RBRACE]) = inr (PDict d)) as Hv
    by (vm_compute; reflexivity).
  assert (dict_get d (lit "vehicles") = None) as Hd by reflexivity.
  split; [split; [exact Hk|split; [exact Hc|split; [exact Hg|split; [exact H1|split;
            [exact Hj|split; [exact Hf|split; [exact Hb|split; [exact Hv|exact Hd]]]]]]]]|].
  exact (repair_decodes_last_object w image text pre mid d parse_error
           Hk Hc Hg H1 Hj Hf Hb Hv Hd).
Defined.

Lemma no_closing_brace_salvaged_witness :
  let text := truncated_reply in
  let w := sample_world (lit "key") (inr text) (inr (ImageOf [])) None in
  let image := ImageOf [] in
  let parse_error := JSONDecodeError (lit "Expecting value") text 64 in
  (GEMINI_API_KEY w <> [] /\ configure w = None
   /\ generate_content w image = inr text
   /\ ~ In RBRACE (clean text)
   /\ json_loads (limits w) (clean text) = inl parse_error
   /\ is_JSONDecodeError parse_error = true)
  /\ analyze_image_with_gemini w image = inr (salvage parse_error (clean text)).
Proof.
  intros text w image parse_error.
  assert (GEMINI_API_KEY w <> []) as Hk by discriminate.
  assert (configure w = None) as Hc by reflexivity.
  assert (generate_content w image = inr text) as Hg by reflexivity.
  assert (~ In RBRACE (clean text)) as Hb.
  { intro K. vm_compute in K. intuition discriminate. }
  assert (json_loads (limits w) (clean text) = inl parse_error) as H1
    by (vm_compute; reflexivity).
  assert (is_JSONDecodeError parse_error = true) as Hj by reflexivity.
  split; [split; [exact Hk|split; [exact Hc|split; [exact Hg|split; [exact Hb|split;
            [exact H1|exact Hj]]]]]|].
  exact (no_closing_brace_salvaged w image text parse_error Hk Hc Hg Hb H1 Hj).
Defined.

Lemma base64_file_as_base64_witness :
  let w := sample_world (lit "key") (inr (dq "{'vehicles':[]}")) (inr (ImageOf [])) None in
  let args := {| image := None; base64 := None;
                 base64_file := Some (lit "image.b64"); output := None |} in
  let data := lit "image.b64" in
  (truthy (image args) = false /\ truthy (base64 args) = false
   /\ truthy (base64_file args) = true
   /\ read_text w (arg (base64_file args)) = inr data
   /\ strip data <> [])
  /\ main w args
     = main w {| image := None; base64 := Some (strip data);
                 base64_file := None; output := output args |}.
Proof.
  intros w args data.
  assert (truthy (image args) = false) as Hi by reflexivity.
  assert (truthy (base64 args) = false) as Hb by reflexivity.
  assert (truthy (base64_file args) = true) as Hf by reflexivity.
  assert (read_text w (arg (base64_file args)) = inr data) as Hr by reflexivity.
  assert (strip data <> []) as Hn by (vm_compute; discriminate).
  split; [split; [exact Hi|split; [exact Hb|split; [exact Hf|split; [exact Hr|exact Hn]]]]|].
  exact (proj1 (base64_file_as_base64 w args data Hi Hb Hf Hr) Hn).
Defined.
